(** * CareerAgent: structured extraction and draft quality validation

    A shallow embedding of the core of the CareerAgent repository:

    - [core/llm.py]: [LocalLLMClient._clean_json_response] and
      [LocalLLMClient.generate_json];
    - [core/models.py]: the records and the derived fields of [QualityCheck];
    - [core/validators.py]: [DraftValidator];
    - [core/cv_parser.py]: [CVParser.parse_text];
    - [core/contact_finder.py]: the heuristics of [ContactFinder].

    Conventions of the embedding.

    - A Python [str] is a list of Unicode code points ([list N]); [len] is
      [length], slicing is [firstn]/[skipn].
    - Python floats are IEEE binary64 numbers: Rocq's primitive floats.
    - Whitespace ([str.strip], [str.split], the regex class [\s]) is the full
      set Python uses.  Case mapping, digits and word characters follow the
      ASCII tables; code points outside ASCII are caseless, are not digits
      and are not word characters in this model.
    - A raised exception is a value [Exn cls msg]; functions that can raise
      return a sum.
    - [requests.post], [json.loads] and the schema validation of pydantic
      are libraries outside the repository; they are parameters of the
      sections that use them, and the state they read and change is passed
      along explicitly.  [print] and [time.sleep] are left out. *)

From Stdlib Require Import String Ascii.
From Stdlib Require Import List Bool Arith NArith ZArith Lia.
From Stdlib Require Import Floats Uint63 DecimalString.
Import ListNotations.

Set Warnings "-register-all,-inexact-float".

(** ** Python strings *)

Module PyStr.

Definition str := list N.

(** A literal: the code points of an ASCII Rocq string. *)
Definition py (s : string) : str := map N_of_ascii (list_ascii_of_string s).

(** The double quote, which a Rocq string literal cannot hold plainly. *)
Definition dq : str := [34%N].

(** The code point of an ASCII character. *)
Definition ch (a : ascii) : N := N_of_ascii a.

Definition in_range (lo hi c : N) : bool := (N.leb lo c && N.leb c hi)%bool.

(** [str.isspace] on one code point: the characters Python strips and
    splits on, which are also the ones [\s] matches in a [str] pattern. *)
Definition isspace (c : N) : bool :=
  (in_range 9 13 c || in_range 28 32 c || N.eqb c 133 || N.eqb c 160
   || N.eqb c 5760 || in_range 8192 8202 c || N.eqb c 8232 || N.eqb c 8233
   || N.eqb c 8239 || N.eqb c 8287 || N.eqb c 12288)%bool.

Definition newline_char : N := 10.

Definition isupper (c : N) : bool := in_range 65 90 c.
Definition islower (c : N) : bool := in_range 97 122 c.
Definition isdigit (c : N) : bool := in_range 48 57 c.
(** A word character of [\w]: letters, digits and the underscore. *)
Definition isword (c : N) : bool :=
  (isupper c || islower c || isdigit c || N.eqb c 95)%bool.

Definition lower_char (c : N) : N := if isupper c then (c + 32)%N else c.
Definition upper_char (c : N) : N := if islower c then (c - 32)%N else c.
Definition lower (s : str) : str := map lower_char s.

Fixpoint lstrip (s : str) : str :=
  match s with
  | c :: s' => if isspace c then lstrip s' else s
  | [] => []
  end.
Definition rstrip (s : str) : str := rev (lstrip (rev s)).
Definition strip (s : str) : str := rstrip (lstrip s).

Fixpoint str_eqb (a b : str) : bool :=
  match a, b with
  | [], [] => true
  | x :: a', y :: b' => (N.eqb x y && str_eqb a' b')%bool
  | _, _ => false
  end.

(** [s.startswith(p)] *)
Fixpoint startswith (s p : str) : bool :=
  match p, s with
  | [], _ => true
  | x :: p', y :: s' => (N.eqb x y && startswith s' p')%bool
  | _ :: _, [] => false
  end.

(** [sub in s] *)
Fixpoint contains (s sub : str) : bool :=
  (startswith s sub ||
   match s with
   | [] => false
   | _ :: s' => contains s' sub
   end)%bool.

(** [s.find(c)] for a single character; [None] stands for [-1]. *)
Fixpoint find_char (c : N) (s : str) : option nat :=
  match s with
  | [] => None
  | x :: s' => if N.eqb x c then Some 0
               else match find_char c s' with
                    | Some i => Some (S i)
                    | None => None
                    end
  end.

(** [s.split()]: the maximal runs of non-whitespace characters. *)
Fixpoint split_ws_go (s cur : str) : list str :=
  match s with
  | [] => match cur with [] => [] | _ => [rev cur] end
  | c :: s' =>
      if isspace c
      then match cur with
           | [] => split_ws_go s' []
           | _ => rev cur :: split_ws_go s' []
           end
      else split_ws_go s' (c :: cur)
  end.
Definition split_ws (s : str) : list str := split_ws_go s [].

(** [s.split(sep)] for a non-empty separator. [skip] counts the characters
    of a separator occurrence that are still to be passed over. *)
Fixpoint split_go (sep s cur : str) (skip : nat) : list str :=
  match s with
  | [] => [rev cur]
  | c :: s' =>
      match skip with
      | S k => split_go sep s' cur k
      | O => if startswith s sep
             then rev cur :: split_go sep s' [] (length sep - 1)
             else split_go sep s' (c :: cur) 0
      end
  end.
Definition split (s sep : str) : list str := split_go sep s [] 0.

(** [sep.join(l)] *)
Fixpoint join (sep : str) (l : list str) : str :=
  match l with
  | [] => []
  | [x] => x
  | x :: l' => x ++ sep ++ join sep l'
  end.

(** [str(n)] for a non-negative integer. *)
Definition str_of_nat (n : nat) : str :=
  py (NilEmpty.string_of_uint (Nat.to_uint n)).

(** Truthiness of a string and of an [Optional[str]]. *)
Definition truthy (s : str) : bool :=
  match s with [] => false | _ :: _ => true end.
Definition otruthy (o : option str) : bool :=
  match o with Some s => truthy s | None => false end.

End PyStr.
Import PyStr.

(** ** Exceptions *)

Inductive exn_class :=
| Exception | ValueError | JSONDecodeError | IndexError | ValidationError.

Inductive exn := Exn (cls : exn_class) (msg : str).

Definition exn_cls (e : exn) : exn_class := let 'Exn c _ := e in c.
(** [str(e)] *)
Definition exn_msg (e : exn) : str := let 'Exn _ m := e in m.

(** The result of a call that may raise. *)
Definition result (A : Type) : Type := (exn + A)%type.
Definition raise {A : Type} (c : exn_class) (m : string) : result A :=
  inl (Exn c (py m)).
Definition ret {A : Type} (a : A) : result A := inr a.

(** ** core/llm.py: extraction of the JSON object from a model response *)

Module Llm.

Definition lbrace : N := 123.
Definition rbrace : N := 125.

Definition preambles : list str :=
  [py "here's the json:"; py "here is the json:"; py "json:"; py "output:"].

(** Lines 132-138: strip, then drop each known preamble in turn. *)
Definition strip_preambles (response : str) : str :=
  fold_left
    (fun response pre =>
       if startswith (lower response) pre
       then strip (skipn (length pre) response)
       else response)
    preambles (strip response).

(** Lines 141-149: the content between the first two code fences, without
    its language tag. *)
Definition backtick : N := 96.
Definition fence : str := [backtick; backtick; backtick].

Definition strip_fences (response : str) : str :=
  if contains response fence then
    let parts := split response fence in
    if 3 <=? length parts then
      let response := nth 1 parts [] in
      if startswith (lower (strip response)) (py "json")
      then strip (skipn 4 (strip response))
      else response
    else response
  else response.

(** The text in which the object is looked for. *)
Definition unwrap (response : str) : str :=
  strip_fences (strip_preambles response).

(** Lines 157-166: the loop over [range(start, len(response))]; [s] is
    [response[i:]], the result is [end]. *)
Fixpoint scan_braces (s : str) (i : nat) (brace_count : Z) : option nat :=
  match s with
  | [] => None
  | c :: s' =>
      if N.eqb c lbrace then scan_braces s' (S i) (brace_count + 1)
      else if N.eqb c rbrace then
        let brace_count := (brace_count - 1)%Z in
        if Z.eqb brace_count 0 then Some (S i)
        else scan_braces s' (S i) brace_count
      else scan_braces s' (S i) brace_count
  end.

Definition _clean_json_response (response : str) : result str :=
  let response := unwrap response in
  match find_char lbrace response with
  | None => raise ValueError "No JSON object found in response"
  | Some start =>
      match scan_braces (skipn start response) start 0 with
      | None => raise ValueError "Malformed JSON: no matching closing brace"
      | Some end_ => ret (firstn (end_ - start) (skipn start response))
      end
  end.

(** *** Brace depth, as the specification words it *)

(** Number of opening braces minus number of closing braces. *)
Fixpoint depth (s : str) : Z :=
  match s with
  | [] => 0
  | c :: s' =>
      ((if N.eqb c lbrace then 1 else if N.eqb c rbrace then -1 else 0)
       + depth s')%Z
  end.

(** The change of depth a character makes. *)
Definition delta (c : N) : Z :=
  if N.eqb c lbrace then 1 else if N.eqb c rbrace then -1 else 0.

(** The depth stays positive on every non-empty prefix of [s] of length at
    most [n]. *)
Definition open_upto (n : nat) (s : str) : Prop :=
  forall k, 0 < k <= n -> (0 < depth (firstn k s))%Z.

(** [obj] starts with an opening brace and its depth returns to zero at its
    last character and not before. *)
Definition balanced_object (obj : str) : Prop :=
  (exists body, obj = lbrace :: body)
  /\ depth obj = 0%Z
  /\ open_upto (length obj - 1) obj.

(** No code fence begins inside [a] when a fence follows [a]. *)
Definition no_fence_in (a : str) : Prop :=
  contains (a ++ [backtick; backtick]) fence = false.

(** *** [generate_json]: generation with retries *)

(** A value built by [json.loads]; a dict keeps its keys in order. *)
Inductive json :=
| JNull
| JBool (b : bool)
| JInt (z : Z)
| JFloat (f : float)
| JStr (s : str)
| JList (l : list json)
| JDict (kv : list (str * json)).

(** [d[k] = v] on a dict: the value is replaced in place, a new key goes
    to the end. *)
Fixpoint dict_set (k : str) (v : json) (kv : list (str * json))
  : list (str * json) :=
  match kv with
  | [] => [(k, v)]
  | (k', v') :: kv' =>
      if str_eqb k' k then (k, v) :: kv' else (k', v') :: dict_set k v kv'
  end.

(** [type(v).__name__] *)
Definition type_name (v : json) : str :=
  match v with
  | JNull => py "NoneType"
  | JBool _ => py "bool"
  | JInt _ => py "int"
  | JFloat _ => py "float"
  | JStr _ => py "str"
  | JList _ => py "list"
  | JDict _ => py "dict"
  end.

(** [d.get(k)] *)
Fixpoint dict_get (k : str) (kv : list (str * json)) : option json :=
  match kv with
  | [] => None
  | (k', v) :: kv' => if str_eqb k' k then Some v else dict_get k kv'
  end.

(** [str(z)] for an integer. *)
Definition str_of_Z (z : Z) : str := py (NilEmpty.string_of_int (Z.to_int z)).

(** *** [generate_text]: one request to the model server *)

(** What [requests.post] gives back: a timeout, another exception with its
    message, or a response with its status code and what
    [response.json()] makes of its body, [inl msg] when that raises. *)
Inductive post_outcome :=
| PostTimeout
| PostRaised (msg : str)
| PostResponse (status_code : Z) (body : (str + json)%type).

Section GenerateText.

Variable World : Type.

(** [requests.post] to the generation endpoint with the model name, the
    prompt, the temperature and the number of tokens. *)
Variable post : World -> str -> str -> float -> Z -> World * post_outcome.

(** [self.model] *)
Variable model : str.

(** Lines 52-87.  The exceptions raised in the [try] block are caught by
    its last clause and raised again with the prefix
    "LLM generation failed: "; a result is [inl msg] for
    [raise Exception(msg)]. *)
Definition generate_text (w : World) (prompt : str) (temperature : float)
    (max_tokens : Z) : World * (str + str) :=
  let '(w1, outcome) := post w model prompt temperature max_tokens in
  let failed (msg : str) : (str + str)%type :=
    inl (py "LLM generation failed: " ++ msg) in
  (w1,
   match outcome with
   | PostTimeout =>
       inl (py "LLM request timed out. Try a smaller model or reduce prompt size.")
   | PostRaised msg => failed msg
   | PostResponse status_code body =>
       if Z.eqb status_code 200 then
         match body with
         | inl msg => failed msg
         | inr (JDict kv) =>
             match dict_get (py "response") kv with
             | None => inr (strip [])
             | Some (JStr text) => inr (strip text)
             | Some v =>
                 failed (py "'" ++ type_name v
                         ++ py "' object has no attribute 'strip'")
             end
         | inr v =>
             failed (py "'" ++ type_name v
                     ++ py "' object has no attribute 'get'")
         end
       else if Z.eqb status_code 404 then
         failed (py "Model '" ++ model ++ py "' not found. Please run `ollama pull "
                 ++ model ++ py "` in terminal.")
       else failed (py "Ollama API error: " ++ str_of_Z status_code)
   end).

End GenerateText.

Arguments generate_text {World}.

(** One invocation of the text generator: its arguments and what it gave
    back, [inl msg] when it raised. *)
Record call := mk_call {
  call_prompt : str;
  call_temperature : float;
  call_max_tokens : Z;
  call_result : (str + str)%type
}.

(** The instruction appended to every prompt (line 97). *)
Definition json_instruction : str :=
  [newline_char; newline_char]
  ++ py "IMPORTANT: Return ONLY valid JSON, no markdown, no explanations.".

Section Generate.

(** The state of the world the generator reads and changes. *)
Variable World : Type.

(** The text generator the loop calls: [self.generate_text], or any other
    one.  All it raises is a plain [Exception], given by its message. *)
Variable generator : World -> str -> float -> Z -> World * (str + str).

(** [json.loads]; [None] is a [json.JSONDecodeError]. *)
Variable json_loads : str -> option json.

(** The body of [for attempt in range(max_retries)], lines 94-128.
    [remaining] is the number of iterations left, so that
    [attempt + remaining = max_retries].  The invocations of the generator
    are collected in order.  When the range is empty the function ends
    without a [return]: its value is Python's [None], here [JNull]. *)
Fixpoint generate_json_loop (remaining attempt max_retries : nat) (w : World)
    (json_prompt : str) (temperature : float)
  : World * list call * result json :=
  match remaining with
  | O => (w, [], ret JNull)
  | S remaining' =>
      let '(w1, r) := generator w json_prompt temperature 3000 in
      let c := mk_call json_prompt temperature 3000 r in
      match r with
      | inl msg =>
          (w1, [c], inl (Exn Exception (py "LLM JSON generation failed: " ++ msg)))
      | inr response_text =>
          match _clean_json_response response_text with
          | inl e =>
              (w1, [c],
               inl (Exn Exception
                      (py "LLM JSON generation failed: " ++ exn_msg e)))
          | inr cleaned =>
              match json_loads cleaned with
              | Some parsed => (w1, [c], ret parsed)
              | None =>
                  if attempt <? max_retries - 1 then
                    let '(w2, cs, res) :=
                      generate_json_loop remaining' (S attempt) max_retries
                        w1 json_prompt (temperature * 0.5)%float in
                    (w2, c :: cs, res)
                  else
                    (w1, [c],
                     inl (Exn Exception
                            (py "Failed to parse JSON after "
                             ++ str_of_nat max_retries ++ py " attempts.")))
              end
          end
      end
  end.

Definition generate_json (w : World) (prompt : str) (temperature : float)
    (max_retries : nat) : World * list call * result json :=
  generate_json_loop max_retries 0 max_retries w
    (prompt ++ json_instruction) temperature.

(** The temperature after [k] retries. *)
Fixpoint halved (k : nat) (temperature : float) : float :=
  match k with
  | O => temperature
  | S k' => halved k' (temperature * 0.5)%float
  end.

(** What became of the text an invocation returned. *)
Inductive attempt_outcome :=
| TransportFailed (msg : str)
| ExtractionFailed (e : exn)
| DecodeFailed (cleaned : str)
| Parsed (value : json).

Definition outcome_of (c : call) : attempt_outcome :=
  match call_result c with
  | inl msg => TransportFailed msg
  | inr response_text =>
      match _clean_json_response response_text with
      | inl e => ExtractionFailed e
      | inr cleaned =>
          match json_loads cleaned with
          | Some parsed => Parsed parsed
          | None => DecodeFailed cleaned
          end
      end
  end.

Definition is_decode_failure (c : call) : bool :=
  match outcome_of c with DecodeFailed _ => true | _ => false end.

(** The log is the sequence of invocations made from world [w], each run
    in the world the one before left, and [w'] is the world after the
    last. *)
Fixpoint log_replays (w : World) (log : list call) (w' : World) : Prop :=
  match log with
  | [] => w' = w
  | c :: log' =>
      exists w1,
        generator w (call_prompt c) (call_temperature c)
          (call_max_tokens c) = (w1, call_result c)
        /\ log_replays w1 log' w'
  end.

(** How the result of the loop follows from its last invocation, when
    [remaining] iterations were left at its start: the error of exhausted
    retries comes only after all of them. *)
Definition loop_explains (remaining max_retries : nat) (log : list call)
    (res : result json) : Prop :=
  exists c,
    nth_error log (length log - 1) = Some c
    /\ match outcome_of c with
       | Parsed value => res = ret value
       | DecodeFailed _ =>
           length log = remaining
           /\ res = inl (Exn Exception
                           (py "Failed to parse JSON after "
                            ++ str_of_nat max_retries ++ py " attempts."))
       | ExtractionFailed e =>
           res = inl (Exn Exception
                        (py "LLM JSON generation failed: " ++ exn_msg e))
       | TransportFailed msg =>
           res = inl (Exn Exception (py "LLM JSON generation failed: " ++ msg))
       end.


End Generate.

Arguments generate_json_loop {World}.

(** Two stand-ins used to run the loop on concrete inputs: a generator that
    replays a script, one entry for each invocation, and a decoder that
    knows the empty object only. *)
Definition scripted_generator (w : list (str + str)) (_ : str) (_ : float)
    (_ : Z) : list (str + str) * (str + str) :=
  match w with
  | [] => ([], inl (py "no response left"))
  | r :: w' => (w', r)
  end.

Definition loads_empty_object (s : str) : option json :=
  if str_eqb s (py "{}") then Some (JDict []) else None.

(** A transport that replays a script of outcomes. *)
Definition scripted_post (w : list post_outcome) (_ _ : str) (_ : float)
    (_ : Z) : list post_outcome * post_outcome :=
  match w with
  | [] => ([], PostRaised (py "no outcome left"))
  | o :: w' => (w', o)
  end.

Arguments generate_json {World}.
Arguments log_replays {World}.

End Llm.

(** ** Regular expressions, as Python's [re] module matches them

    A backtracking matcher: alternatives are tried in order, repetition is
    greedy, and the first position of the text at which the pattern matches
    wins. *)

Module Re.

(** An item of a character class. *)
Inductive citem :=
| CChar (c : N)
| CRange (lo hi : N)
| CDigit                       (* \d *)
| CSpace.                      (* \s *)

Inductive regex :=
| Eps
| Chr (c : N)                  (* a literal character *)
| Class (items : list citem)   (* [...] *)
| Seq (r1 r2 : regex)
| Alt (r1 r2 : regex)
| Star (r : regex)             (* greedy r* *)
| Bol                          (* ^ *)
| WordB.                       (* \b *)

Definition Plus (r : regex) : regex := Seq r (Star r).
Definition Opt (r : regex) : regex := Alt r Eps.

(** The pattern of a literal text. *)
Fixpoint Lit (s : str) : regex :=
  match s with
  | [] => Eps
  | [c] => Chr c
  | c :: s' => Seq (Chr c) (Lit s')
  end.
Definition L (s : string) : regex := Lit (py s).

(** [(?:a|b|...)] *)
Fixpoint Alts (rs : list regex) : regex :=
  match rs with
  | [] => Eps
  | [r] => r
  | r :: rs' => Alt r (Alts rs')
  end.

Fixpoint Seqs (rs : list regex) : regex :=
  match rs with
  | [] => Eps
  | [r] => r
  | r :: rs' => Seq r (Seqs rs')
  end.

Definition item_mem (it : citem) (c : N) : bool :=
  match it with
  | CChar x => N.eqb c x
  | CRange lo hi => in_range lo hi c
  | CDigit => isdigit c
  | CSpace => isspace c
  end.

Definition class_mem (items : list citem) (c : N) : bool :=
  existsb (fun it => item_mem it c) items.

Section Matcher.

(** The flags [re.IGNORECASE] and [re.MULTILINE]. *)
Variables (ignorecase multiline : bool).

Definition chr_match (x c : N) : bool :=
  (N.eqb c x || (ignorecase && N.eqb (lower_char c) (lower_char x)))%bool.

Definition class_match (items : list citem) (c : N) : bool :=
  (class_mem items c
   || (ignorecase
       && (class_mem items (lower_char c) || class_mem items (upper_char c))))%bool.

Definition at_bol (prev : option N) : bool :=
  match prev with
  | None => true
  | Some p => (multiline && N.eqb p newline_char)%bool
  end.

Definition at_wordb (prev : option N) (s : str) : bool :=
  let before := match prev with Some p => isword p | None => false end in
  let after := match s with c :: _ => isword c | [] => false end in
  negb (Bool.eqb before after).

(** [rmatch r prev s k]: match [r] at the head of [s], [prev] being the
    character before it, then hand the rest of the text to [k]; [None]
    makes the matcher backtrack.  The result is the text left after the
    whole match. *)
Fixpoint rmatch (r : regex) (prev : option N) (s : str)
    (k : option N -> str -> option str) {struct r} : option str :=
  match r with
  | Eps => k prev s
  | Chr x =>
      match s with
      | c :: s' => if chr_match x c then k (Some c) s' else None
      | [] => None
      end
  | Class items =>
      match s with
      | c :: s' => if class_match items c then k (Some c) s' else None
      | [] => None
      end
  | Seq r1 r2 => rmatch r1 prev s (fun p' s' => rmatch r2 p' s' k)
  | Alt r1 r2 =>
      match rmatch r1 prev s k with
      | Some rest => Some rest
      | None => rmatch r2 prev s k
      end
  | Star r1 =>
      (fix loop (n : nat) (prev : option N) (s : str) {struct n} : option str :=
         match n with
         | O => k prev s
         | S n' =>
             match rmatch r1 prev s
                     (fun p' s' =>
                        if length s' <? length s then loop n' p' s' else None)
             with
             | Some rest => Some rest
             | None => k prev s
             end
         end) (length s) prev s
  | Bol => if at_bol prev then k prev s else None
  | WordB => if at_wordb prev s then k prev s else None
  end.

(** A match of [r] starting exactly here: the text left after it. *)
Definition match_here (r : regex) (prev : option N) (s : str) : option str :=
  rmatch r prev s (fun _ rest => Some rest).

(** [re.search]: the first position with a match; the result is the
    matched text and what follows it. *)
Fixpoint search_from (r : regex) (prev : option N) (s : str)
  : option (str * str) :=
  match match_here r prev s with
  | Some rest => Some (firstn (length s - length rest) s, rest)
  | None =>
      match s with
      | [] => None
      | c :: s' => search_from r (Some c) s'
      end
  end.

Definition search (r : regex) (s : str) : option (str * str) :=
  search_from r None s.

Definition last_char (prev : option N) (m : str) : option N :=
  match rev m with c :: _ => Some c | [] => prev end.

(** [re.findall] for a pattern without capturing groups: the successive
    non-overlapping matches.  After an empty match the scan moves one
    character on. *)
Fixpoint findall_from (fuel : nat) (r : regex) (prev : option N) (s : str)
  : list str :=
  match fuel with
  | O => []
  | S fuel' =>
      match search_from r prev s with
      | None => []
      | Some (m, rest) =>
          m :: match m, rest with
               | [], [] => []
               | [], c :: rest' => findall_from fuel' r (Some c) rest'
               | _ :: _, _ => findall_from fuel' r (last_char prev m) rest
               end
      end
  end.

Definition findall (r : regex) (s : str) : list str :=
  findall_from (S (length s)) r None s.

End Matcher.

(** Whether a pattern can match the empty text. *)
Fixpoint nullable (r : regex) : bool :=
  match r with
  | Eps | Star _ | Bol | WordB => true
  | Chr _ | Class _ => false
  | Seq r1 r2 => (nullable r1 && nullable r2)%bool
  | Alt r1 r2 => (nullable r1 || nullable r2)%bool
  end.

End Re.

(** ** core/models.py: the records *)

Module Models.

Record Experience := mk_Experience {
  exp_title : str;
  exp_company : str;
  exp_duration : str;
  exp_achievements : list str;
  exp_metrics : list str;
  exp_technologies : list str
}.

Record Project := mk_Project {
  proj_name : str;
  proj_description : str;
  proj_technologies : list str;
  proj_link : option str;
  proj_github : option str;
  proj_impact : option str
}.

Record CVProfile := mk_CVProfile {
  cv_name : option str;
  cv_email : option str;
  cv_phone : option str;
  cv_linkedin : option str;
  cv_github : option str;
  cv_portfolio : option str;
  cv_summary : option str;
  cv_experiences : list Experience;
  cv_projects : list Project;
  cv_skills : list str;
  cv_education : list str;
  raw_text : str
}.

Record ContactCandidate := mk_ContactCandidate {
  name : str;
  role : option str;
  email : option str;
  email_confidence : str;
  linkedin : option str;
  source : str;
  confidence_score : float
}.

Record PersonalizationPlan := mk_PersonalizationPlan {
  anchor_project : option Project;
  technical_hook : str;
  impact_hook : str;
  company_hook : str;
  shared_technologies : list str;
  relevant_metrics : list str;
  angle : str
}.

(** [created_at], a wall-clock time stamp, is left out. *)
Record EmailDraft := mk_EmailDraft {
  subject : str;
  body : str;
  recipient_email : option str;
  recipient_name : option str;
  job_title : str;
  company : str;
  personalization_plan : option PersonalizationPlan;
  word_count : nat;
  gmail_draft_id : option str
}.

(** [EmailDraft(subject=..., body=..., job_title=..., company=...)]: the
    other fields take their defaults and the validator of [word_count]
    counts the words of the body. *)
Definition EmailDraft_new (subject body job_title company : str) : EmailDraft :=
  mk_EmailDraft subject body None None job_title company None
    (length (split_ws body)) None.

Record QualityCheck := mk_QualityCheck {
  has_metric : bool;
  has_project_link : bool;
  has_company_hook : bool;
  has_clear_cta : bool;
  under_word_limit : bool;
  no_emojis : bool;
  no_bullet_dashes : bool;
  score : float;
  issues : list str;
  passed : bool
}.

(** [sum(checks)] *)
Definition sum_bools (checks : list bool) : nat :=
  length (filter (fun b => b) checks).

Definition float_of_nat (n : nat) : float :=
  PrimFloat.of_uint63 (Uint63.of_Z (Z.of_nat n)).

(** The validator of [score], lines 145-156. *)
Definition calculate_score (checks : list bool) : float :=
  (float_of_nat (sum_bools checks) / float_of_nat (length checks) * 100)%float.

(** The validator of [passed], lines 158-160. *)
Definition check_passed (score : float) : bool := PrimFloat.leb 70 score.

(** [QualityCheck(has_metric=..., ...)]: the seven checks are given, [score]
    and [passed] are computed by their validators, [issues] is empty. *)
Definition QualityCheck_new (m l h c w e b : bool) : QualityCheck :=
  let score := calculate_score [m; l; h; c; w; e; b] in
  mk_QualityCheck m l h c w e b score [] (check_passed score).

Definition set_issues (q : QualityCheck) (i : list str) : QualityCheck :=
  mk_QualityCheck (has_metric q) (has_project_link q) (has_company_hook q)
    (has_clear_cta q) (under_word_limit q) (no_emojis q) (no_bullet_dashes q)
    (score q) i (passed q).

(** The seven checks of a result, in the order of the fields. *)
Definition checks_of (q : QualityCheck) : list bool :=
  [has_metric q; has_project_link q; has_company_hook q; has_clear_cta q;
   under_word_limit q; no_emojis q; no_bullet_dashes q].

(** [CVProfile(raw_text=..., summary=...)] *)
Definition CVProfile_minimal (raw summary : str) : CVProfile :=
  mk_CVProfile None None None None None None (Some summary) [] [] [] [] raw.

End Models.
Import Models.

(** ** core/validators.py *)

Module Validators.
Import Re.

Definition digit : regex := Class [CDigit].
Definition space : regex := Class [CSpace].

Definition emoji_pattern : regex :=
  Plus (Class [CRange 0x1f600 0x1f64f; CRange 0x1f300 0x1f5ff;
               CRange 0x1f680 0x1f6ff; CRange 0x1f1e0 0x1f1ff;
               CRange 0x2702 0x27b0; CRange 0x24c2 0x1f251;
               CRange 0x1f900 0x1f9ff]).

(** The class of bullet characters: dash, U+2022, star, U+2192. *)
Definition bullet : regex :=
  Class [CChar (ch "-"); CChar 0x2022; CChar (ch "*"); CChar 0x2192].

Definition bullet_patterns : list regex :=
  [Seqs [Bol; Star space; bullet; Plus space];
   Seqs [Chr newline_char; Star space; bullet; Plus space]].

Definition hexdigit : regex :=
  Class [CRange (ch "0") (ch "9"); CRange (ch "a") (ch "f");
         CRange (ch "A") (ch "F")].

Definition url_pattern : regex :=
  Seqs [L "http"; Opt (Class [CChar (ch "s")]); L "://";
        Plus (Alts [Class [CRange (ch "a") (ch "z"); CRange (ch "A") (ch "Z")];
                    Class [CRange (ch "0") (ch "9")];
                    Class [CRange (ch "$") (ch "_"); CChar (ch "@");
                           CChar (ch "."); CChar (ch "&"); CChar (ch "+")];
                    Class [CChar (ch "!"); CChar (ch "*"); CChar (ch "\");
                           CChar (ch "("); CChar (ch "\"); CChar (ch ")");
                           CChar (ch ",")];
                    Seqs [Chr (ch "%"); hexdigit; hexdigit]])].

Definition metric_patterns : list regex :=
  [Seq (Plus digit) (Chr (ch "%"));
   Seq (Plus digit)
       (Class [CChar (ch "K"); CChar (ch "k"); CChar (ch "M"); CChar (ch "m")]);
   Seq (Plus digit) (Chr (ch "x"));
   Seqs [Plus digit; Star space;
         Alts [L "users"; L "customers"; L "developers"; L "engineers"]];
   Seqs [Alts [L "increased"; L "decreased"; L "improved"; L "reduced";
               L "grew"; L "scaled"];
         Plus space; Opt (Seq (L "by") (Plus space)); Plus digit]].

Definition cta_patterns : list regex :=
  [Seqs [Opt (Alts [L "quick"; L "brief"; L "short"]); Star space;
         Alts [L "call"; L "chat"; L "meeting"; L "demo"]];
   Seqs [Alts [L "available"; L "free"]; Plus space;
         Alts [L "this week"; L "next week"; L "to chat"]];
   Alts [L "discuss"; L "talk"; L "show"; L "demo"];
   Seqs [Alts [L "7"; L "10"; L "15"]; Star (Class [CSpace; CChar (ch "-")]);
         Alts [L "min"; L "minute"]]].

Definition found {A : Type} (o : option A) : bool :=
  match o with Some _ => true | None => false end.

Definition _check_has_metric (text : str) : bool :=
  existsb (fun pattern => found (search true false pattern text))
    metric_patterns.

Definition _check_has_link (text : str) : bool :=
  0 <? length (findall false false url_pattern text).

Definition _check_company_hook (draft : EmailDraft) : bool :=
  let body_lower := lower (body draft) in
  if (truthy (company draft) && contains body_lower (lower (company draft)))%bool
  then true
  else if truthy (job_title draft) then
    let title_words := firstn 3 (split_ws (lower (job_title draft))) in
    existsb (fun word => contains body_lower word)
      (filter (fun word => 3 <? length word) title_words)
  else false.

Definition _check_has_cta (text : str) : bool :=
  existsb (fun pattern => found (search true false pattern text)) cta_patterns.

Definition _check_word_limit (body : str) (max_words : nat) : bool :=
  length (split_ws body) <=? max_words.

Definition _check_no_emojis (text : str) : bool :=
  negb (found (search false false emoji_pattern text)).

Definition _check_no_bullets (body : str) : bool :=
  negb (existsb (fun pattern => found (search false true pattern body))
          bullet_patterns).

(** The cross mark U+274C that opens every issue. *)
Definition cross : str := [0x274c%N].

Definition _generate_issues (checks : QualityCheck) (draft : EmailDraft)
  : list str :=
  (if has_metric checks then []
   else [cross ++ py " No concrete metrics found (e.g., '40% improvement', '10K users')"])
  ++ (if has_project_link checks then []
      else [cross ++ py " No project link found (GitHub, portfolio, demo)"])
  ++ (if has_company_hook checks then []
      else [cross ++ py " No specific reference to " ++ company draft
            ++ py " or job role"])
  ++ (if has_clear_cta checks then []
      else [cross ++ py " No clear call-to-action (e.g., '10-minute call', 'quick demo')"])
  ++ (if under_word_limit checks then []
      else [cross ++ py " Too long: "
            ++ str_of_nat (length (split_ws (body draft)))
            ++ py " words (limit: 180)"])
  ++ (if no_emojis checks then []
      else [cross ++ py " Contains emojis (remove all emojis)"])
  ++ (if no_bullet_dashes checks then []
      else [cross ++ py " Contains bullet dashes (use paragraphs instead)"]).

Definition validate_draft (draft : EmailDraft) : QualityCheck :=
  let full_text := subject draft ++ py " " ++ body draft in
  let checks :=
    QualityCheck_new
      (_check_has_metric full_text)
      (_check_has_link full_text)
      (_check_company_hook draft)
      (_check_has_cta full_text)
      (_check_word_limit (body draft) 180)
      (_check_no_emojis full_text)
      (_check_no_bullets (body draft)) in
  set_issues checks (_generate_issues checks draft).

(** The draft of the scenario of the specification, for a given subject. *)
Definition scenario_body : str :=
  py "I reduced latency by 40% and increased throughput by 2x. Check github.com/me/proj. Would you have 15 minutes this week?".

Definition scenario_draft (subject : str) : EmailDraft :=
  EmailDraft_new subject scenario_body (py "Senior Engineer") (py "Acme").

End Validators.

(** ** core/cv_parser.py *)

Module CvParser.
Import Llm.

(** The longest text sent to the model (line 31). *)
Definition max_cv_chars : nat := N.to_nat 12000.

(** The fallback profile of lines 50-53. *)
Definition fallback_profile (cv_text reason : str) : CVProfile :=
  CVProfile_minimal cv_text
    (py "CV parsing failed: " ++ reason ++ py ". Using raw text.").

Section ParseText.

Variable World : Type.
Variable generator : World -> str -> float -> Z -> World * (str + str).
Variable json_loads : str -> option json.

(** [CV_PARSE_PROMPT.format(cv_text=...)]: the fixed prompt text of
    core/prompts.py around the CV text; its wording plays no part here. *)
Variable CV_PARSE_PROMPT_format : str -> str.

(** The constructor of [CVProfile] applied to the fields of [cv_data]: the
    schema validation of the pydantic library;
    [inl msg] is a validation error with [str(e) = msg]. *)
Variable CVProfile_validate : list (str * json) -> (str + CVProfile)%type.

Definition parse_text (w : World) (cv_text : str) : World * result CVProfile :=
  if (negb (truthy cv_text) || (length (strip cv_text) <? 50))%bool
  then (w, raise ValueError "CV text is too short or empty")
  else
    let cv_text :=
      if max_cv_chars <? length cv_text
      then firstn max_cv_chars cv_text else cv_text in
    let prompt := CV_PARSE_PROMPT_format cv_text in
    let '(w1, _, r) :=
      generate_json generator json_loads w prompt 0.2%float 2 in
    match r with
    | inl e => (w1, ret (fallback_profile cv_text (exn_msg e)))
    | inr (JDict kv) =>
        match CVProfile_validate (dict_set (py "raw_text") (JStr cv_text) kv) with
        | inr profile => (w1, ret profile)
        | inl msg => (w1, ret (fallback_profile cv_text msg))
        end
    | inr cv_data =>
        (w1, ret (fallback_profile cv_text
                    (py "'" ++ type_name cv_data
                     ++ py "' object does not support item assignment")))
    end.

End ParseText.

Arguments parse_text {World}.

(** Stand-ins to run [parse_text] on concrete inputs: the prompt is the CV
    text itself and the schema validation rejects every mapping. *)
Definition prompt_is_text (cv_text : str) : str := cv_text.
Definition rejects_all (_ : list (str * json)) : (str + CVProfile)%type :=
  inl (py "1 validation error for CVProfile").

(** A CV text of 71 characters. *)
Definition sample_cv : str :=
  py "Jane Doe. Senior engineer, ten years of Python, Docker and Kubernetes.".


End CvParser.

(** ** core/contact_finder.py *)

Module ContactFinder.
Import Re.

(** [l[a:b]] *)
Definition slice {A : Type} (a b : nat) (l : list A) : list A :=
  firstn (b - a) (skipn a l).

(** [enumerate(l)] *)
Fixpoint enumerate_from {A : Type} (i : nat) (l : list A) : list (nat * A) :=
  match l with
  | [] => []
  | x :: l' => (i, x) :: enumerate_from (S i) l'
  end.

(** Lines 86-90: the domain, lower-cased and stripped, without a leading
    [user@]. *)
Definition domain_part (domain : str) : str :=
  let domain := strip (lower domain) in
  if contains domain (py "@") then nth 1 (split domain (py "@")) [] else domain.

(** A guessed contact, as lines 103-111 build it. *)
Definition guessed_contact (first_name last_name email : str) (score : float)
  : ContactCandidate :=
  mk_ContactCandidate (first_name ++ py " " ++ last_name) None (Some email)
    (py "guessed") None (py "email_permutation") score.

Definition generate_email_permutations (first_name last_name domain : str)
  : result (list ContactCandidate) :=
  let first := strip (lower first_name) in
  let last := strip (lower last_name) in
  let domain := domain_part domain in
  match first with
  | [] => raise IndexError "string index out of range"
  | first_0 :: _ =>
      let patterns :=
        [first ++ py "." ++ last ++ py "@" ++ domain;
         first ++ py "@" ++ domain;
         first ++ last ++ py "@" ++ domain;
         [first_0] ++ last ++ py "@" ++ domain;
         first ++ py "_" ++ last ++ py "@" ++ domain] in
      ret (map (fun '(i, email) =>
                  guessed_contact first_name last_name email
                    (0.7 - float_of_nat i * 0.1)%float)
               (enumerate_from 0 (firstn 3 patterns)))
  end.

(** A search result: the values under the keys [title], [body] and [href],
    [None] when the key is absent. *)
Record SearchResult := mk_SearchResult {
  res_title : option str;
  res_body : option str;
  res_href : option str
}.

(** [d.get(key, "")] *)
Definition get_or_empty (o : option str) : str :=
  match o with Some s => s | None => [] end.

Definition _extract_name_from_title (title : str) : option str :=
  let linkedin_name :=
    if (contains title (py "|") && contains title (py "LinkedIn"))%bool then
      let parts := strip (nth 0 (split title (py "|")) []) in
      if contains parts (py "-")
      then Some (strip (nth 0 (split parts (py "-")) []))
      else None
    else None in
  match linkedin_name with
  | Some name => Some name
  | None =>
      match split_ws title with
      | (c0 :: w0) :: (c1 :: w1) :: _ =>
          if (isupper c0 && isupper c1)%bool
          then Some ((c0 :: w0) ++ py " " ++ (c1 :: w1))
          else None
      | _ => None
      end
  end.

Definition alnum_items : list citem :=
  [CRange (ch "A") (ch "Z"); CRange (ch "a") (ch "z"); CRange (ch "0") (ch "9")].

Definition tld_char : regex :=
  Class [CRange (ch "A") (ch "Z"); CChar (ch "|"); CRange (ch "a") (ch "z")].

Definition email_pattern : regex :=
  Seqs [WordB;
        Plus (Class (alnum_items
                     ++ [CChar (ch "."); CChar (ch "_"); CChar (ch "%");
                         CChar (ch "+"); CChar (ch "-")]));
        Chr (ch "@");
        Plus (Class (alnum_items ++ [CChar (ch "."); CChar (ch "-")]));
        Chr (ch ".");
        tld_char; tld_char; Star tld_char;
        WordB].

Definition _extract_email (text : str) : option str :=
  match findall false false email_pattern text with
  | m :: _ => Some m
  | [] => None
  end.

Definition role_keywords : list str :=
  [py "Manager"; py "Director"; py "Lead"; py "Engineer"; py "Recruiter";
   py "VP"; py "Head"; py "Chief"; py "Senior"; py "Principal"].

(** Lines 218-221: the phrase around the first word, not at the start of
    the title, that contains the keyword. *)
Fixpoint role_phrase (keyword : str) (words : list str)
    (indexed : list (nat * str)) : option str :=
  match indexed with
  | [] => None
  | (i, word) :: rest =>
      if (contains word keyword && (0 <? i))%bool
      then Some (join (py " ") (slice (Nat.max 0 (i - 1)) (i + 2) words))
      else role_phrase keyword words rest
  end.

Fixpoint _extract_role_from (keywords : list str) (title combined : str) : str :=
  match keywords with
  | [] => py "Unknown Role"
  | keyword :: rest =>
      if contains combined keyword then
        let words := split_ws title in
        match role_phrase keyword words (enumerate_from 0 words) with
        | Some phrase => phrase
        | None => _extract_role_from rest title combined
        end
      else _extract_role_from rest title combined
  end.

Definition _extract_role (title snippet : str) : option str :=
  Some (_extract_role_from role_keywords title (title ++ py " " ++ snippet)).

(** [min(a, b)] *)
Definition pymin (a b : float) : float := if PrimFloat.ltb b a then b else a.

Definition _calculate_confidence (email linkedin : option str)
    (company snippet : str) : float :=
  let score := 0.3%float in
  let score := if otruthy email then (score + 0.4)%float else score in
  let score := if otruthy linkedin then (score + 0.2)%float else score in
  let score :=
    if contains (lower snippet) (lower company)
    then (score + 0.1)%float else score in
  pymin score 1.0.

(** The score as the specification words it: 0.3, plus 0.4 for an email,
    plus 0.2 for a LinkedIn address, plus 0.1 for a mention of the company,
    capped at 1. *)
Definition signal_score (has_email has_linkedin mentions_company : bool)
  : float :=
  let plus (signal : bool) (bonus score : float) : float :=
    if signal then (score + bonus)%float else score in
  pymin (plus mentions_company 0.1 (plus has_linkedin 0.2 (plus has_email 0.4 0.3)))%float
        1.0.

Definition _extract_contact_from_result (result : SearchResult)
    (company_name : str) : option ContactCandidate :=
  let title := get_or_empty (res_title result) in
  let snippet := get_or_empty (res_body result) in
  let url := get_or_empty (res_href result) in
  let name := _extract_name_from_title title in
  match name with
  | None | Some [] => None
  | Some name =>
      let email := _extract_email (title ++ py " " ++ snippet) in
      let role := _extract_role title snippet in
      let linkedin_url :=
        if contains url (py "linkedin.com") then Some url else None in
      let confidence :=
        _calculate_confidence email linkedin_url company_name snippet in
      Some (mk_ContactCandidate
              name role email
              (if otruthy email then py "confirmed" else py "unknown")
              linkedin_url url confidence)
  end.

(** A search result in the form LinkedIn pages take. *)
Definition sample_result : SearchResult :=
  mk_SearchResult
    (Some (py "Jane Doe - Engineering Manager | LinkedIn"))
    (Some (py "Jane leads platform teams at Acme. Reach her at jane@acme.com"))
    (Some (py "https://www.linkedin.com/in/janedoe")).

End ContactFinder.

(** ** What a pattern can match *)

Module ReLang.
Import Re.

(** [lang ignorecase r m]: the text [m] is in the language of [r], the
    anchors [^] and [\b] standing for the empty text.  Every match of the
    matcher is in it. *)
Inductive lang (ignorecase : bool) : regex -> str -> Prop :=
| lang_eps : lang ignorecase Eps []
| lang_chr x c :
    chr_match ignorecase x c = true -> lang ignorecase (Chr x) [c]
| lang_class items c :
    class_match ignorecase items c = true -> lang ignorecase (Class items) [c]
| lang_seq r1 r2 m1 m2 :
    lang ignorecase r1 m1 -> lang ignorecase r2 m2 ->
    lang ignorecase (Seq r1 r2) (m1 ++ m2)
| lang_alt_l r1 r2 m : lang ignorecase r1 m -> lang ignorecase (Alt r1 r2) m
| lang_alt_r r1 r2 m : lang ignorecase r2 m -> lang ignorecase (Alt r1 r2) m
| lang_star_nil r : lang ignorecase (Star r) []
| lang_star_cons r m1 m2 :
    lang ignorecase r m1 -> lang ignorecase (Star r) m2 ->
    lang ignorecase (Star r) (m1 ++ m2)
| lang_bol : lang ignorecase Bol []
| lang_wordb : lang ignorecase WordB [].

(** The loop of the matcher on [Star r1], by name. *)
Definition star_loop (ignorecase multiline : bool) (r1 : regex)
    (k : option N -> str -> option str) : nat -> option N -> str -> option str :=
  fix loop (n : nat) (prev : option N) (s : str) {struct n} : option str :=
    match n with
    | O => k prev s
    | S n' =>
        match rmatch ignorecase multiline r1 prev s
                (fun p' s' =>
                   if length s' <? length s then loop n' p' s' else None)
        with
        | Some rest => Some rest
        | None => k prev s
        end
    end.

(** The character before the text that follows [u], when [prev] is the one
    before [u]. *)
Definition char_before (prev : option N) (u : str) : option N :=
  match rev u with c :: _ => Some c | [] => prev end.

(** The text after a repetition of a class does not go on with a character
    of the class. *)
Definition stops (ignorecase : bool) (items : list citem) (rest : str) : Prop :=
  match rest with
  | [] => True
  | c :: _ => class_match ignorecase items c = false
  end.

End ReLang.

(** ** Parts of a text *)

Module Parts.

(** [s] is a contiguous part of [r]. *)
Definition part_of (s r : str) : Prop := exists a b, r = a ++ s ++ b.

End Parts.

(** ** Character sets of the validator's patterns, spelled out *)

Module ValidatorSets.

(** A character of the emoji ranges. *)
Definition emoji_char (c : N) : bool :=
  (in_range 0x1f600 0x1f64f c || in_range 0x1f300 0x1f5ff c
   || in_range 0x1f680 0x1f6ff c || in_range 0x1f1e0 0x1f1ff c
   || in_range 0x2702 0x27b0 c || in_range 0x24c2 0x1f251 c
   || in_range 0x1f900 0x1f9ff c)%bool.

(** A bullet: dash, U+2022, star, U+2192. *)
Definition bullet_char (c : N) : bool :=
  (N.eqb c (ch "-") || N.eqb c 0x2022 || N.eqb c (ch "*") || N.eqb c 0x2192)%bool.

(** A character that can follow [http://] in what counts as a link: a
    letter, a digit, a character from [$] to [_], or an exclamation mark. *)
Definition url_char (c : N) : bool :=
  (in_range (ch "a") (ch "z") c || in_range (ch "$") (ch "_") c
   || N.eqb c (ch "!"))%bool.

(** The start of a line: the text before it is empty or ends with a
    newline. *)
Definition line_start (u : str) : bool :=
  match rev u with [] => true | c :: _ => N.eqb c newline_char end.

(** A word: not empty, without white space. *)
Definition is_word (w : str) : bool :=
  (truthy w && forallb (fun c => negb (isspace c)) w)%bool.

End ValidatorSets.

(** ** Character sets of the e-mail pattern, spelled out *)

Module ContactSets.

Definition alnum_char (c : N) : bool :=
  (in_range (ch "A") (ch "Z") c || in_range (ch "a") (ch "z") c
   || in_range (ch "0") (ch "9") c)%bool.

(** A character of the part before the [@]. *)
Definition email_local_char (c : N) : bool :=
  (alnum_char c || N.eqb c (ch ".") || N.eqb c (ch "_") || N.eqb c (ch "%")
   || N.eqb c (ch "+") || N.eqb c (ch "-"))%bool.

(** A character of the domain. *)
Definition email_domain_char (c : N) : bool :=
  (alnum_char c || N.eqb c (ch ".") || N.eqb c (ch "-"))%bool.

(** A character of the last label: a letter, or the bar that the class
    [[A-Z|a-z]] lets in. *)
Definition email_tld_char (c : N) : bool :=
  (in_range (ch "A") (ch "Z") c || N.eqb c (ch "|")
   || in_range (ch "a") (ch "z") c)%bool.

(** An ASCII letter. *)
Definition letter (c : N) : bool :=
  (in_range (ch "A") (ch "Z") c || in_range (ch "a") (ch "z") c)%bool.

End ContactSets.

(** ** core/contact_finder.py: the search for contacts *)

Module ContactSearch.
Import Llm ContactFinder.

Definition keywords : list str :=
  [py "engineer"; py "developer"; py "manager"; py "lead"; py "scientist";
   py "analyst"; py "designer"].

(** Lines 115-134. *)
Definition _extract_role_keyword (job_title : str) : str :=
  let title_lower := lower job_title in
  match find (fun keyword => contains title_lower keyword) keywords with
  | Some keyword => keyword
  | None =>
      match split_ws job_title with
      | word :: _ => word
      | [] => py "manager"
      end
  end.

(** The queries of lines 41-45. *)
Definition default_queries (company_name role_keyword : str) : list json :=
  [JStr (company_name ++ py " hiring manager " ++ role_keyword);
   JStr (py "site:linkedin.com/in " ++ company_name ++ py " recruiter");
   JStr (company_name ++ py " engineering manager")].

(** Lines 58-66: the loop over the results of one search.  [contacts] and
    [seen_names] are the list and the set the loop fills; the test of the
    limit comes after the result is handled. *)
Fixpoint scan_results (results : list SearchResult) (company_name : str)
    (max_results : Z) (contacts : list ContactCandidate)
    (seen_names : list str) : list ContactCandidate * list str :=
  match results with
  | [] => (contacts, seen_names)
  | result :: results' =>
      let '(contacts, seen_names) :=
        match _extract_contact_from_result result company_name with
        | Some contact =>
            if negb (existsb (str_eqb (name contact)) seen_names)
            then (contacts ++ [contact], name contact :: seen_names)
            else (contacts, seen_names)
        | None => (contacts, seen_names)
        end in
      if (max_results <=? Z.of_nat (length contacts))%Z
      then (contacts, seen_names)
      else scan_results results' company_name max_results contacts seen_names
  end.

(** What the loops keep true of the contacts collected so far: their names
    differ, they are the names seen, and none is empty. *)
Definition collected (contacts : list ContactCandidate) (seen_names : list str)
  : Prop :=
  NoDup (map name contacts)
  /\ (forall n, In n seen_names <-> In n (map name contacts))
  /\ Forall (fun c => truthy (name c) = true) contacts.

Section FindContacts.

Variable World : Type.
Variable generator : World -> str -> float -> Z -> World * (str + str).
Variable json_loads : str -> option json.

(** [CONTACT_SEARCH_QUERIES_PROMPT.format(company_name=..., job_title=...,
    role_keyword=...)] *)
Variable CONTACT_SEARCH_QUERIES_PROMPT_format : str -> str -> str -> str.

(** [self.ddgs.text(query, max_results=5)]: the list of results, or
    [inl msg] when the search raises. *)
Variable ddgs_text : World -> json -> Z -> World * (str + list SearchResult).

(** [str(v)] for a value that is neither a list nor a dict. *)
Variable py_str : json -> str.

(** Lines 28-52: the queries to search.  Any failure of the model client
    gives the default queries; a dict gives its values ([kv] holds each key
    once), a list is taken as it is, another value becomes one query. *)
Definition search_queries (w : World) (company_name job_title : str)
  : World * list json :=
  let role_keyword := _extract_role_keyword job_title in
  let prompt :=
    CONTACT_SEARCH_QUERIES_PROMPT_format company_name job_title role_keyword in
  let '(w1, _, r) := generate_json generator json_loads w prompt 0.3%float 2 in
  (w1,
   match r with
   | inl _ => default_queries company_name role_keyword
   | inr (JDict kv) => map snd kv
   | inr (JList queries) => queries
   | inr queries => [JStr (py_str queries)]
   end).

(** Lines 54-75: the loop over the queries.  A search that raises is
    passed over. *)
Fixpoint run_queries (queries : list json) (w : World) (company_name : str)
    (max_results : Z) (contacts : list ContactCandidate)
    (seen_names : list str) : World * list ContactCandidate :=
  match queries with
  | [] => (w, contacts)
  | query :: queries' =>
      let '(w1, r) := ddgs_text w query 5 in
      match r with
      | inl _ =>
          run_queries queries' w1 company_name max_results contacts seen_names
      | inr results =>
          let '(contacts, seen_names) :=
            scan_results results company_name max_results contacts seen_names in
          if (max_results <=? Z.of_nat (length contacts))%Z
          then (w1, contacts)
          else run_queries queries' w1 company_name max_results contacts
                 seen_names
      end
  end.

(** Lines 22-77. *)
Definition find_contacts (w : World) (company_name job_title : str)
    (max_results : Z) : World * list ContactCandidate :=
  let '(w1, queries) := search_queries w company_name job_title in
  run_queries (firstn 3 queries) w1 company_name max_results [] [].

End FindContacts.

Arguments search_queries {World}.
Arguments run_queries {World}.
Arguments find_contacts {World}.

(** A search engine that also counts the searches it is asked for, and a
    text generator that leaves that count alone: the world is paired with
    the number of searches made so far. *)
Definition counting {World : Type}
    (ddgs_text : World -> json -> Z -> World * (str + list SearchResult))
    (wn : World * nat) (query : json) (max_results : Z)
  : (World * nat) * (str + list SearchResult) :=
  let '(w, n) := wn in
  let '(w1, r) := ddgs_text w query max_results in
  ((w1, S n), r).

Definition not_counting {World : Type}
    (generator : World -> str -> float -> Z -> World * (str + str))
    (wn : World * nat) (prompt : str) (temperature : float) (max_tokens : Z)
  : (World * nat) * (str + str) :=
  let '(w, n) := wn in
  let '(w1, r) := generator w prompt temperature max_tokens in
  ((w1, n), r).

End ContactSearch.

(** ** core/cv_parser.py: text extraction and the lists drawn from a profile *)

Module CvExtract.
Import Llm CvParser.

(** What reading a PDF with one of the two libraries gives: the texts of
    the pages extracted, in order ([None] for a page without text), and
    the message of the exception that ended the reading, if one was
    raised, on opening the file or on a page. *)
Record pdf_reading := mk_pdf_reading {
  pages_read : list (option str);
  failure : option str
}.

(** Lines 62-65 and 76-79: the text of each page that has some is added
    to [text], followed by two newlines. *)
Definition add_pages (text : str) (pages : list (option str)) : str :=
  fold_left
    (fun text page_text =>
       match page_text with
       | Some (c :: t) => text ++ (c :: t) ++ [newline_char; newline_char]
       | Some [] | None => text
       end)
    pages text.

(** One of the two [try] blocks: the pages are added to [text]; the text
    is returned, stripped, when the reading ended without an exception and
    the text is not blank.  Otherwise the text collected so far goes on to
    what follows. *)
Definition try_reading (text : str) (reading : pdf_reading)
  : str * option str :=
  let text := add_pages text (pages_read reading) in
  match failure reading with
  | None =>
      if truthy (strip text) then (text, Some (strip text)) else (text, None)
  | Some _ => (text, None)
  end.

(** Lines 55-88.  [plumber] is what [pdfplumber] makes of the file and
    [pypdf] what [PyPDF2] does. *)
Definition _extract_text_from_pdf (plumber pypdf : pdf_reading) : result str :=
  let text := [] in
  match try_reading text plumber with
  | (_, Some stripped) => ret stripped
  | (text, None) =>
      match try_reading text pypdf with
      | (_, Some stripped) => ret stripped
      | (_, None) =>
          raise ValueError
            "Could not extract text from PDF. File may be scanned image or corrupted."
      end
  end.

Section ParsePdf.

Variable World : Type.
Variable generator : World -> str -> float -> Z -> World * (str + str).
Variable json_loads : str -> option json.
Variable CV_PARSE_PROMPT_format : str -> str.
Variable CVProfile_validate : list (str * json) -> (str + CVProfile)%type.

(** The two libraries, reading the file at a path. *)
Variable pdfplumber_read : str -> pdf_reading.
Variable PyPDF2_read : str -> pdf_reading.

(** Lines 20-23. *)
Definition parse_pdf (w : World) (pdf_path : str) : World * result CVProfile :=
  match _extract_text_from_pdf (pdfplumber_read pdf_path) (PyPDF2_read pdf_path) with
  | inl e => (w, inl e)
  | inr text =>
      parse_text generator json_loads CV_PARSE_PROMPT_format
        CVProfile_validate w text
  end.

End ParsePdf.

Arguments parse_pdf {World}.

(** [if x: links.append(x)]: [x] is added when it is a non-empty text. *)
Definition append_if (links : list str) (x : option str) : list str :=
  match x with
  | Some (c :: t) => links ++ [c :: t]
  | Some [] | None => links
  end.

(** Lines 90-107. *)
Definition extract_links (cv_profile : CVProfile) : list str :=
  let links := [] in
  let links := append_if links (cv_github cv_profile) in
  let links := append_if links (cv_linkedin cv_profile) in
  let links := append_if links (cv_portfolio cv_profile) in
  fold_left
    (fun links project =>
       append_if (append_if links (proj_link project)) (proj_github project))
    (cv_projects cv_profile) links.

(** Lines 109-120. *)
Definition extract_metrics (cv_profile : CVProfile) : list str :=
  let metrics :=
    fold_left (fun metrics exp => metrics ++ exp_metrics exp)
      (cv_experiences cv_profile) [] in
  fold_left (fun metrics project => append_if metrics (proj_impact project))
    (cv_projects cv_profile) metrics.

End CvExtract.

(** ** core/whatsapp.py *)

Module WhatsApp.

Section Client.

(** [str.isdigit] on one character, a property of the Unicode database of
    the Python library. *)
Variable str_isdigit : N -> bool.

(** [urllib.parse.quote]; [inl e] when it raises, as it does on a lone
    surrogate. *)
Variable quote : str -> result str.

(** [self.base_url] *)
Definition base_url : str := py "https://wa.me".

(** Lines 55-57. *)
Definition format_phone_number (phone : str) : str := filter str_isdigit phone.

(** Lines 44-53. *)
Definition validate_phone_number (phone : str) : bool :=
  if negb (truthy phone) then false
  else
    let clean := filter str_isdigit phone in
    ((10 <=? length clean) && (length clean <=? 15))%bool.

(** Lines 16-42. *)
Definition create_click_to_chat_url (message : str) (phone : option str)
  : result str :=
  match quote message with
  | inl e => inl e
  | inr encoded_message =>
      match phone with
      | Some (c :: p) =>
          let clean_phone := filter str_isdigit (c :: p) in
          ret (base_url ++ py "/" ++ clean_phone ++ py "?text="
               ++ encoded_message)
      | Some [] | None => ret (base_url ++ py "?text=" ++ encoded_message)
      end
  end.

End Client.

End WhatsApp.

(** ** core/llm.py: the models the server lists *)

Module LlmModels.
Import Llm.

(** What [requests.get] gives back: an exception, or a response with its
    status code and what [response.json()] makes of its body, [None] when
    that raises. *)
Inductive get_outcome :=
| GetRaised
| GetResponse (status_code : Z) (body : option json).

(** [model["name"]]; [None] when it raises, for a dict without the key and
    for a value that is no dict. *)
Definition model_name_of (model : json) : option json :=
  match model with
  | JDict kv => dict_get (py "name") kv
  | _ => None
  end.

(** [[model["name"] for model in models]]; [None] when an entry raises. *)
Fixpoint names_of (models : list json) : option (list json) :=
  match models with
  | [] => Some []
  | model :: models' =>
      match model_name_of model, names_of models' with
      | Some name, Some names => Some (name :: names)
      | _, _ => None
      end
  end.

(** Line 37 on the decoded body; [None] when it raises: the body is no
    dict, the value under "models" cannot be iterated, or an element has
    no name.  Iterating a non-empty text or dict gives texts, which have
    no name. *)
Definition model_names (data : json) : option (list json) :=
  match data with
  | JDict kv =>
      match dict_get (py "models") kv with
      | None => Some []
      | Some (JList models) => names_of models
      | Some (JStr []) | Some (JDict []) => Some []
      | Some _ => None
      end
  | _ => None
  end.

(** [x in names] for a text [x]: a name equals it when it is that text. *)
Definition name_in (x : str) (names : list json) : bool :=
  existsb (fun name => match name with JStr s => str_eqb x s | _ => false end)
    names.

Section Server.

Variable World : Type.

(** [requests.get(url, timeout=5)] *)
Variable get : World -> str -> World * get_outcome.

(** [self.base_url] *)
Variable base_url : str.

(** Lines 23-29. *)
Definition check_connection (w : World) : World * bool :=
  let '(w1, outcome) := get w (base_url ++ py "/api/version") in
  (w1,
   match outcome with
   | GetRaised => false
   | GetResponse status_code _ => Z.eqb status_code 200
   end).

(** Lines 31-40. *)
Definition list_models (w : World) : World * list json :=
  let '(w1, outcome) := get w (base_url ++ py "/api/tags") in
  (w1,
   match outcome with
   | GetRaised => []
   | GetResponse status_code body =>
       if Z.eqb status_code 200 then
         match body with
         | None => []
         | Some data =>
             match model_names data with
             | Some names => names
             | None => []
             end
         end
       else []
   end).

(** Lines 42-50. *)
Definition check_model_availability (w : World) (model_name : str)
  : World * bool :=
  let '(w1, available_models) := list_models w in
  (w1,
   if name_in model_name available_models then true
   else if name_in (model_name ++ py ":latest") available_models then true
   else false).

End Server.

Arguments check_connection {World}.
Arguments list_models {World}.
Arguments check_model_availability {World}.

End LlmModels.
Import Llm.

(** * Facts about the extraction of the JSON object *)

Section ExtractionFacts.

Open Scope Z_scope.

Lemma depth_cons c s : depth (c :: s) = delta c + depth s.
Proof. reflexivity. Qed.

Lemma delta_cases c :
  (c = lbrace /\ delta c = 1) \/ (c = rbrace /\ delta c = -1)
  \/ (c <> lbrace /\ c <> rbrace /\ delta c = 0).
Proof.
  unfold delta.
  destruct (N.eqb_spec c lbrace) as [-> | Hl]; [now left |].
  destruct (N.eqb_spec c rbrace) as [-> | Hr]; [right; left; now split |].
  right; right; now repeat split.
Qed.

(** One turn of the loop. *)
Lemma scan_braces_step c s i bc :
  scan_braces (c :: s) i bc =
  if (N.eqb c rbrace && Z.eqb (bc - 1) 0)%bool then Some (S i)
  else scan_braces s (S i) (bc + delta c).
Proof.
  simpl. unfold delta.
  destruct (N.eqb_spec c lbrace) as [-> | Hl]; [reflexivity |].
  destruct (N.eqb c rbrace); simpl.
  - destruct (Z.eqb (bc - 1) 0); [reflexivity |].
    now replace (bc + -1) with (bc - 1) by lia.
  - now rewrite Z.add_0_r.
Qed.

Lemma find_char_absent c s : ~ In c s -> find_char c s = None.
Proof.
  induction s as [| x s IH]; simpl; intros H; [reflexivity |].
  destruct (N.eqb_spec x c) as [-> | Hx]; [exfalso; apply H; now left |].
  rewrite IH; [reflexivity | intros Hin; apply H; now right].
Qed.

Lemma find_char_first c pre rest :
  ~ In c pre -> find_char c (pre ++ c :: rest) = Some (length pre).
Proof.
  induction pre as [| x pre IH]; simpl; intros H.
  - now rewrite N.eqb_refl.
  - destruct (N.eqb_spec x c) as [-> | Hx]; [exfalso; apply H; now left |].
    rewrite IH; [reflexivity | intros Hin; apply H; now right].
Qed.

(** What [find] tells about the text. *)
Lemma find_char_split c s i :
  find_char c s = Some i ->
  exists pre rest, s = pre ++ c :: rest /\ ~ In c pre /\ i = length pre.
Proof.
  revert i; induction s as [| x s IH]; simpl; intros i H; [discriminate |].
  destruct (N.eqb_spec x c) as [-> | Hx].
  - injection H as <-. exists [], s. repeat split. intros [].
  - destruct (find_char c s) as [j |] eqn:E; [| discriminate].
    injection H as <-.
    destruct (IH j eq_refl) as (pre & rest & -> & Hpre & ->).
    exists (x :: pre), rest. repeat split.
    intros [Heq | Hin]; [now apply Hx | now apply Hpre].
Qed.

Lemma find_char_none_absent c s : find_char c s = None -> ~ In c s.
Proof.
  induction s as [| x s IH]; simpl; intros H; [intros [] |].
  destruct (N.eqb_spec x c) as [-> | Hx]; [discriminate |].
  destruct (find_char c s); [discriminate |].
  intros [Heq | Hin]; [now apply Hx | now apply IH].
Qed.

(** The loop stops at the character that brings the depth back to zero. *)
Lemma scan_braces_closes obj : forall post i bc,
  0 <= bc ->
  obj <> [] ->
  (0 < bc \/ exists body, obj = lbrace :: body) ->
  (forall k, (0 < k < length obj)%nat -> 0 < bc + depth (firstn k obj)) ->
  bc + depth obj = 0 ->
  scan_braces (obj ++ post) i bc = Some (i + length obj)%nat.
Proof.
  induction obj as [| c obj IH]; intros post i bc Hbc Hne Hhead Hopen Hzero;
    [contradiction |].
  rewrite <- app_comm_cons, scan_braces_step.
  rewrite depth_cons in Hzero.
  destruct obj as [| c' obj].
  - simpl in Hzero.
    destruct (delta_cases c) as [[-> Hd] | [[-> Hd] | (Hl & Hr & Hd)]].
    + lia.
    + replace (bc - 1) with 0 by lia. simpl. f_equal. lia.
    + exfalso. destruct Hhead as [Hpos | [body Hb]]; [lia |].
      injection Hb as Hc _. contradiction.
  - assert (H1 : 0 < bc + delta c).
    { specialize (Hopen 1%nat). simpl in Hopen. rewrite Z.add_0_r in Hopen.
      apply Hopen. simpl. lia. }
    replace (N.eqb c rbrace && Z.eqb (bc - 1) 0)%bool with false.
    2:{ symmetry. apply andb_false_iff.
        destruct (delta_cases c) as [[-> Hd] | [[-> Hd] | (Hl & Hr & Hd)]].
        - now left.
        - right. apply Z.eqb_neq. lia.
        - left. now apply N.eqb_neq. }
    rewrite IH.
    + f_equal. simpl. lia.
    + lia.
    + discriminate.
    + now left.
    + intros k Hk. specialize (Hopen (S k)).
      rewrite firstn_cons, depth_cons in Hopen.
      rewrite <- Z.add_assoc. apply Hopen. simpl in *. lia.
    + lia.
Qed.

(** The loop runs to the end of a text on which the depth never comes back
    to zero. *)
Lemma scan_braces_open s : forall i bc,
  (forall k, (0 < k <= length s)%nat -> 0 < bc + depth (firstn k s)) ->
  scan_braces s i bc = None.
Proof.
  induction s as [| c s IH]; intros i bc Hopen; [reflexivity |].
  rewrite scan_braces_step.
  assert (H1 : 0 < bc + delta c).
  { specialize (Hopen 1%nat). simpl in Hopen. rewrite Z.add_0_r in Hopen.
    apply Hopen. simpl. lia. }
  replace (N.eqb c rbrace && Z.eqb (bc - 1) 0)%bool with false.
  2:{ symmetry. apply andb_false_iff.
      destruct (delta_cases c) as [[-> Hd] | [[-> Hd] | (Hl & Hr & Hd)]].
      - now left.
      - right. apply Z.eqb_neq. lia.
      - left. now apply N.eqb_neq. }
  apply IH. intros k Hk. specialize (Hopen (S k)).
  rewrite firstn_cons, depth_cons in Hopen.
  rewrite <- Z.add_assoc. apply Hopen. simpl. lia.
Qed.

(** Whatever the loop returns closes a balanced span. *)
Lemma scan_braces_sound s : forall i bc e,
  0 <= bc ->
  (0 < bc \/ exists body, s = lbrace :: body) ->
  scan_braces s i bc = Some e ->
  exists obj post,
    s = obj ++ post /\ e = (i + length obj)%nat /\ obj <> []
    /\ bc + depth obj = 0
    /\ (forall k, (0 < k < length obj)%nat -> 0 < bc + depth (firstn k obj)).
Proof.
  induction s as [| c s IH]; intros i bc e Hbc Hhead H; [discriminate |].
  rewrite scan_braces_step in H.
  destruct (N.eqb c rbrace && Z.eqb (bc - 1) 0)%bool eqn:E.
  - apply andb_true_iff in E as [Ec Eb].
    apply N.eqb_eq in Ec as ->. apply Z.eqb_eq in Eb.
    injection H as <-. exists [rbrace], s. repeat split.
    + simpl. lia.
    + discriminate.
    + simpl. lia.
    + simpl. intros k Hk. lia.
  - apply andb_false_iff in E.
    assert (H1 : 0 < bc + delta c).
    { destruct (delta_cases c) as [[-> Hd] | [[-> Hd] | (Hl & Hr & Hd)]].
      - lia.
      - destruct E as [E | E]; [discriminate |]. apply Z.eqb_neq in E.
        destruct Hhead as [Hpos | [body Hb]]; [lia | discriminate].
      - destruct Hhead as [Hpos | [body Hb]]; [lia |].
        injection Hb as Hc _. contradiction. }
    destruct (IH (S i) (bc + delta c) e) as (obj & post & -> & -> & Hne & Hz & Hop);
      [lia | now left | exact H |].
    exists (c :: obj), post. repeat split.
    + simpl. lia.
    + discriminate.
    + rewrite depth_cons. lia.
    + intros k Hk. destruct k as [| k]; [lia |].
      rewrite firstn_cons, depth_cons.
      destruct k as [| k]; [simpl; lia |].
      rewrite Z.add_assoc. apply Hop. simpl in *. lia.
Qed.

(** If the loop runs to the end, the depth never came back to zero. *)
Lemma scan_braces_none_open s : forall i bc,
  0 <= bc ->
  (0 < bc \/ exists body, s = lbrace :: body) ->
  scan_braces s i bc = None ->
  forall k, (0 < k <= length s)%nat -> 0 < bc + depth (firstn k s).
Proof.
  induction s as [| c s IH]; intros i bc Hbc Hhead H k Hk; [simpl in Hk; lia |].
  rewrite scan_braces_step in H.
  destruct (N.eqb c rbrace && Z.eqb (bc - 1) 0)%bool eqn:E; [discriminate |].
  apply andb_false_iff in E.
  assert (H1 : 0 < bc + delta c).
  { destruct (delta_cases c) as [[-> Hd] | [[-> Hd] | (Hl & Hr & Hd)]].
    - lia.
    - destruct E as [E | E]; [discriminate |]. apply Z.eqb_neq in E.
      destruct Hhead as [Hpos | [body Hb]]; [lia | discriminate].
    - destruct Hhead as [Hpos | [body Hb]]; [lia |].
      injection Hb as Hc _. contradiction. }
  destruct k as [| k]; [lia |].
  rewrite firstn_cons, depth_cons.
  destruct k as [| k]; [simpl; lia |].
  rewrite Z.add_assoc.
  apply (IH (S i) (bc + delta c)); [lia | now left | exact H | simpl in *; lia].
Qed.


Lemma balanced_object_scan obj post i :
  balanced_object obj ->
  scan_braces (obj ++ post) i 0 = Some (i + length obj)%nat.
Proof.
  intros (Hhead & Hzero & Hopen).
  apply scan_braces_closes.
  - lia.
  - destruct Hhead as [body ->]. discriminate.
  - now right.
  - intros k Hk. rewrite Z.add_0_l. apply Hopen. lia.
  - lia.
Qed.

Lemma firstn_exact {A : Type} (a b : list A) :
  firstn (length a) (a ++ b) = a.
Proof.
  rewrite firstn_app, Nat.sub_diag, firstn_all. simpl.
  apply app_nil_r.
Qed.

Lemma skipn_exact {A : Type} (a b : list A) :
  skipn (length a) (a ++ b) = b.
Proof.
  rewrite skipn_app, Nat.sub_diag, skipn_all. reflexivity.
Qed.

(** The two error messages differ, and an error is not a result. *)
Lemma no_object_not_malformed :
  @raise str ValueError "No JSON object found in response"
  <> raise ValueError "Malformed JSON: no matching closing brace".
Proof. unfold raise. intros H. injection H as H. vm_compute in H. discriminate. Qed.

(** When the text left after the preambles and the fences are stripped is
    some prose without an opening brace, then a balanced object, then
    anything, the parser returns that object. *)
Lemma clean_of_unwrapped response pre obj post :
  unwrap response = pre ++ obj ++ post ->
  ~ In lbrace pre ->
  balanced_object obj ->
  _clean_json_response response = ret obj.
Proof.
  intros Htext Hpre Hobj.
  unfold _clean_json_response. rewrite Htext.
  destruct Hobj as ([body Hbody] & Hzero & Hopen).
  assert (Hfind : find_char lbrace (pre ++ obj ++ post) = Some (length pre)).
  { rewrite Hbody. simpl. now apply find_char_first. }
  rewrite Hfind, skipn_exact.
  rewrite balanced_object_scan.
  - replace (length pre + length obj - length pre)%nat with (length obj) by lia.
    now rewrite firstn_exact.
  - repeat split; [now exists body | exact Hzero | exact Hopen].
Qed.

(** C3: the parser fails with "No JSON object found in response" exactly
    when the stripped text has no opening brace, and with "Malformed JSON:
    no matching closing brace" exactly when the brace depth counted from
    the first opening brace never comes back to zero; what it returns is
    always a balanced object of the stripped text that follows brace-free
    prose, never a part of one.  The parser is a total function: it
    terminates on every text. *)
Theorem clean_json_response_failure response :
  (~ In lbrace (unwrap response)
   <-> _clean_json_response response
       = raise ValueError "No JSON object found in response")
  /\ ((exists pre rest,
         unwrap response = pre ++ lbrace :: rest
         /\ ~ In lbrace pre
         /\ open_upto (length (lbrace :: rest)) (lbrace :: rest))
      <-> _clean_json_response response
          = raise ValueError "Malformed JSON: no matching closing brace")
  /\ (forall s, _clean_json_response response = ret s ->
        balanced_object s
        /\ exists pre post,
             unwrap response = pre ++ s ++ post /\ ~ In lbrace pre)
  /\ ((exists e, _clean_json_response response = inl e)
      \/ (exists s, _clean_json_response response = inr s)).
Proof.
  unfold _clean_json_response.
  destruct (find_char lbrace (unwrap response)) as [start |] eqn:Hfind.
  - destruct (find_char_split _ _ _ Hfind) as (pre & rest & Htext & Hpre & ->).
    rewrite Htext, skipn_exact.
    destruct (scan_braces (lbrace :: rest) (length pre) 0) as [e |] eqn:Hscan.
    + destruct (scan_braces_sound (lbrace :: rest) (length pre) 0 e
                  ltac:(lia) (or_intror (ex_intro _ rest eq_refl)) Hscan)
        as (obj & post & Hsplit & -> & Hne & Hzero & Hopen).
      assert (Hobj : balanced_object obj).
      { repeat split.
        - destruct obj as [| c obj]; [contradiction |].
          injection Hsplit as <- _. now exists obj.
        - lia.
        - intros k Hk. specialize (Hopen k). rewrite Z.add_0_l in Hopen.
          apply Hopen. lia. }
      replace (length pre + length obj - length pre)%nat with (length obj) by lia.
      assert (Hin : In lbrace (pre ++ lbrace :: rest))
        by (apply in_or_app; right; now left).
      rewrite Hsplit in Hin |- *. rewrite firstn_exact.
      split; [| split; [| split]].
      * split; [| discriminate].
        intros Habs. exfalso. now apply Habs.
      * split; [| discriminate].
        intros (pre' & rest' & Htext' & Hpre' & Hopen').
        exfalso.
        assert (Hsame : length pre' = length pre).
        { pose proof (find_char_first lbrace pre' rest' Hpre') as F1.
          pose proof (find_char_first lbrace pre rest Hpre) as F2.
          rewrite <- Htext' in F1. rewrite Hsplit, F1 in F2.
          now injection F2. }
        assert (Hrest : lbrace :: rest' = obj ++ post).
        { rewrite <- (skipn_exact pre' (lbrace :: rest')), <- Htext', Hsame.
          now rewrite skipn_exact. }
        rewrite Hrest in Hopen'.
        specialize (Hopen' (length obj)).
        rewrite firstn_exact in Hopen'.
        assert (0 < length obj)%nat by (destruct obj; [contradiction | simpl; lia]).
        rewrite length_app in Hopen'. lia.
      * intros s Hs. injection Hs as <-. split; [exact Hobj |].
        exists pre, post. now split.
      * right. now exists obj.
    + split; [| split; [| split]].
      * split.
        -- intros Habs. exfalso. apply Habs. apply in_or_app. right. now left.
        -- intros H. exfalso. now apply no_object_not_malformed.
      * split; [reflexivity |].
        intros _. exists pre, rest. repeat split; [exact Hpre |].
        intros k Hk.
        pose proof (scan_braces_none_open (lbrace :: rest) (length pre) 0
                      ltac:(lia) (or_intror (ex_intro _ rest eq_refl)) Hscan k Hk)
          as Hk'.
        lia.
      * discriminate.
      * left. eexists. reflexivity.
  - split; [| split; [| split]].
    + split; [reflexivity |]. intros _. now apply find_char_none_absent.
    + split.
      * intros (pre & rest & Htext & Hpre & _). exfalso.
        rewrite Htext, (find_char_first lbrace pre rest Hpre) in Hfind.
        discriminate.
      * intros H. exfalso. now apply no_object_not_malformed.
    + discriminate.
    + left. eexists. reflexivity.
Qed.

End ExtractionFacts.


(** * What stripping leaves of a text *)

(** Both sides are the same concatenation, differently bracketed. *)
Ltac same_app :=
  repeat first [rewrite <- app_assoc | progress cbn [app]]; reflexivity.

Section StrippingFacts.

Lemma lstrip_app_nonspace c u v :
  isspace c = false -> lstrip (u ++ c :: v) = lstrip u ++ c :: v.
Proof.
  intros Hc. induction u as [| x u IH]; simpl.
  - now rewrite Hc.
  - destruct (isspace x); [exact IH | reflexivity].
Qed.

Lemma lstrip_suffix u : exists w, u = w ++ lstrip u.
Proof.
  induction u as [| x u [w IH]]; simpl.
  - now exists [].
  - destruct (isspace x).
    + exists (x :: w). simpl. now f_equal.
    + now exists [].
Qed.

Lemma rstrip_app_nonspace c u v :
  isspace c = false -> rstrip (u ++ c :: v) = u ++ c :: rstrip v.
Proof.
  intros Hc. unfold rstrip.
  replace (rev (u ++ c :: v)) with (rev v ++ c :: rev u).
  - rewrite (lstrip_app_nonspace c (rev v) (rev u) Hc).
    rewrite rev_app_distr. cbn [rev]. rewrite rev_involutive. same_app.
  - rewrite rev_app_distr. cbn [rev]. same_app.
Qed.

Lemma rstrip_prefix v : exists w, v = rstrip v ++ w.
Proof.
  unfold rstrip. destruct (lstrip_suffix (rev v)) as [w Hw].
  exists (rev w).
  rewrite <- rev_app_distr, <- Hw. now rewrite rev_involutive.
Qed.

(** A block that begins and ends with characters that are not white space
    survives [strip]. *)
Lemma strip_keeps h mid l p t :
  isspace h = false -> isspace l = false ->
  strip (p ++ (h :: mid ++ [l]) ++ t)
  = lstrip p ++ (h :: mid ++ [l]) ++ rstrip t.
Proof.
  intros Hh Hl. unfold strip.
  change (p ++ (h :: mid ++ [l]) ++ t) with (p ++ h :: ((mid ++ [l]) ++ t)).
  rewrite (lstrip_app_nonspace h p _ Hh).
  replace (lstrip p ++ h :: (mid ++ [l]) ++ t)
    with ((lstrip p ++ h :: mid) ++ l :: t)
    by same_app.
  rewrite (rstrip_app_nonspace l _ t Hl). same_app.
Qed.

(** A prefix of the lower-cased text that does not hold [h] ends before the
    first [h] of the text. *)
Lemma prefix_before h pre : forall p rest,
  lower_char h = h -> ~ In h pre ->
  startswith (lower (p ++ h :: rest)) pre = true ->
  length pre <= length p.
Proof.
  induction pre as [| x pre IH]; intros p rest Hh Hpre Hstart; simpl; [lia |].
  destruct p as [| c p]; simpl in Hstart.
  - rewrite Hh in Hstart. apply andb_true_iff in Hstart as [Hx _].
    apply N.eqb_eq in Hx. exfalso. apply Hpre. now left.
  - apply andb_true_iff in Hstart as [_ Hstart].
    simpl. apply le_n_S. apply (IH p rest Hh); [| exact Hstart].
    intros Hin. apply Hpre. now right.
Qed.

Lemma skipn_within {A : Type} n (p x : list A) :
  n <= length p -> skipn n (p ++ x) = skipn n p ++ x.
Proof.
  intros Hn. rewrite skipn_app.
  replace (n - length p) with 0 by lia. reflexivity.
Qed.

Lemma skipn_suffix {A : Type} n (p : list A) : exists w, p = w ++ skipn n p.
Proof. exists (firstn n p). now rewrite firstn_skipn. Qed.

(** One step of the loop over the preambles, and then the whole loop, keep
    such a block when no preamble holds its first character: the text
    before the block loses a prefix, the text after it a suffix. *)
Lemma strip_preambles_from_keeps h mid l pres :
  isspace h = false -> isspace l = false -> lower_char h = h ->
  (forall pre, In pre pres -> ~ In h pre) ->
  forall p t,
  exists p' t' u v,
    fold_left
      (fun response pre =>
         if startswith (lower response) pre
         then strip (skipn (length pre) response)
         else response)
      pres (p ++ (h :: mid ++ [l]) ++ t)
    = p' ++ (h :: mid ++ [l]) ++ t'
    /\ p = u ++ p' /\ t = t' ++ v.
Proof.
  intros Hh Hl Hlow. induction pres as [| pre pres IH]; intros Hpres p t.
  - exists p, t, [], []. simpl. now rewrite app_nil_r.
  - cbn [fold_left].
    destruct (startswith (lower (p ++ (h :: mid ++ [l]) ++ t)) pre) eqn:Hstart.
    + assert (Hlen : length pre <= length p).
      { apply (prefix_before h pre p ((mid ++ [l]) ++ t) Hlow);
          [apply Hpres; now left | exact Hstart]. }
      rewrite (skipn_within _ p _ Hlen), (strip_keeps h mid l _ t Hh Hl).
      destruct (IH (fun q Hq => Hpres q (or_intror Hq))
                  (lstrip (skipn (length pre) p)) (rstrip t))
        as (p' & t' & u & v & Heq & Hp & Ht).
      destruct (skipn_suffix (length pre) p) as [w1 Hw1].
      destruct (lstrip_suffix (skipn (length pre) p)) as [w2 Hw2].
      destruct (rstrip_prefix t) as [w3 Hw3].
      exists p', t', (w1 ++ w2 ++ u), (v ++ w3). split; [exact Heq |]. split.
      * rewrite Hw1 at 1. rewrite Hw2 at 1. rewrite Hp. same_app.
      * rewrite Hw3 at 1. rewrite Ht. same_app.
    + destruct (IH (fun q Hq => Hpres q (or_intror Hq)) p t)
        as (p' & t' & u & v & Heq & Hp & Ht).
      exists p', t', u, v. now repeat split.
Qed.

Lemma strip_preambles_keeps h mid l p t :
  isspace h = false -> isspace l = false -> lower_char h = h ->
  (forall pre, In pre preambles -> ~ In h pre) ->
  exists p' t' u v,
    strip_preambles (p ++ (h :: mid ++ [l]) ++ t)
    = p' ++ (h :: mid ++ [l]) ++ t'
    /\ p = u ++ p' /\ t = t' ++ v.
Proof.
  intros Hh Hl Hlow Hpres. unfold strip_preambles.
  rewrite (strip_keeps h mid l p t Hh Hl).
  destruct (strip_preambles_from_keeps h mid l preambles Hh Hl Hlow Hpres
              (lstrip p) (rstrip t)) as (p' & t' & u & v & Heq & Hp & Ht).
  destruct (lstrip_suffix p) as [w1 Hw1].
  destruct (rstrip_prefix t) as [w2 Hw2].
  exists p', t', (w1 ++ u), (v ++ w2). split; [exact Heq |]. split.
  - rewrite Hw1 at 1. rewrite Hp. same_app.
  - rewrite Hw2 at 1. rewrite Ht. same_app.
Qed.

Lemma preambles_hold_no h :
  h = lbrace \/ h = backtick ->
  forall pre, In pre preambles -> ~ In h pre.
Proof.
  intros [-> | ->] pre Hpre Hin; vm_compute in Hpre;
    repeat (destruct Hpre as [<- | Hpre];
            [vm_compute in Hin;
             repeat (destruct Hin as [Hin | Hin]; [discriminate |]);
             exact Hin |]);
    exact Hpre.
Qed.

Lemma startswith_nil s : startswith s [] = true.
Proof. destruct s; reflexivity. Qed.

Lemma startswith_app f : forall u t,
  startswith u f = true -> startswith (u ++ t) f = true.
Proof.
  induction f as [| x f IH]; intros u t H.
  - apply startswith_nil.
  - destruct u as [| y u]; simpl in *; [discriminate |].
    apply andb_true_iff in H as [Hx H]. rewrite Hx. simpl. now apply IH.
Qed.

Lemma contains_app_l f u t :
  contains u f = true -> contains (u ++ t) f = true.
Proof.
  induction u as [| y u IH]; simpl; intros H.
  - rewrite orb_false_r in H.
    destruct f; [destruct t; reflexivity | discriminate].
  - apply orb_true_iff in H as [H | H]; apply orb_true_iff.
    + left. now apply (startswith_app f (y :: u) t).
    + right. now apply IH.
Qed.

Lemma contains_app_r f u t :
  contains t f = true -> contains (u ++ t) f = true.
Proof.
  intros H. induction u as [| y u IH]; simpl; [exact H |].
  apply orb_true_iff. now right.
Qed.

Lemma contains_false_inside f u r v :
  contains (u ++ r ++ v) f = false -> contains r f = false.
Proof.
  intros H. destruct (contains r f) eqn:E; [| reflexivity].
  rewrite (contains_app_r f u (r ++ v) (contains_app_l f r v E)) in H.
  discriminate.
Qed.

Lemma no_fence_in_suffix u a : no_fence_in (u ++ a) -> no_fence_in a.
Proof.
  unfold no_fence_in. rewrite <- app_assoc. intros H.
  destruct (contains (a ++ [backtick; backtick]) fence) eqn:E; [| reflexivity].
  rewrite (contains_app_r fence u _ E) in H. discriminate.
Qed.

Lemma split_go_nonempty sep s : forall cur skip,
  1 <= length (split_go sep s cur skip).
Proof.
  induction s as [| c s IH]; intros cur skip; cbn [split_go].
  - cbn [length]. lia.
  - destruct skip; [| apply IH].
    destruct (startswith (c :: s) sep); [cbn [length]; lia | apply IH].
Qed.

(** Up to the first fence, [split] collects the text. *)
Lemma split_go_fence_first a : forall y cur,
  no_fence_in a ->
  split_go fence (a ++ fence ++ y) cur 0
  = (rev cur ++ a) :: split_go fence y [] 0.
Proof.
  induction a as [| c a IH]; intros y cur Hno.
  - simpl. rewrite startswith_nil. simpl. now rewrite app_nil_r.
  - unfold no_fence_in in Hno. simpl in Hno.
    apply orb_false_iff in Hno as [Hstart Hrest].
    assert (Hhere : startswith ((c :: a) ++ fence ++ y) fence = false).
    { destruct a as [| d [| e a]]; simpl in *;
        rewrite ?startswith_nil in *; exact Hstart. }
    change ((c :: a) ++ fence ++ y) with (c :: (a ++ fence ++ y)) in *.
    cbn [split_go]. rewrite Hhere, (IH y (c :: cur) Hrest).
    f_equal. cbn [rev]. same_app.
Qed.

Lemma depth_app a b : depth (a ++ b) = (depth a + depth b)%Z.
Proof.
  induction a as [| c a IH]; [reflexivity |].
  cbn [app]. rewrite !depth_cons, IH. lia.
Qed.

(** A balanced object ends with a closing brace. *)
Lemma balanced_object_ends obj :
  balanced_object obj -> exists mid, obj = lbrace :: mid ++ [rbrace].
Proof.
  intros ([body ->] & Hzero & Hopen).
  destruct (exists_last (l := body)) as (mid & l & ->).
  { intros ->. discriminate. }
  exists mid. do 2 f_equal.
  change (lbrace :: mid ++ [l]) with ((lbrace :: mid) ++ [l]) in Hzero, Hopen.
  rewrite depth_app in Hzero.
  specialize (Hopen (length (lbrace :: mid))).
  rewrite firstn_exact in Hopen. rewrite length_app in Hopen.
  assert (Hpos : (0 < depth (lbrace :: mid))%Z).
  { apply Hopen. simpl. lia. }
  change (depth [l]) with (delta l + 0)%Z in Hzero.
  destruct (delta_cases l) as [[-> Hd] | [[-> Hd] | (_ & _ & Hd)]];
    [lia | reflexivity | lia].
Qed.

(** Prose without fences: the object is kept by the stripping of the
    preambles, and nothing else is stripped. *)
Lemma unwrap_in_prose pre obj post :
  balanced_object obj ->
  ~ In lbrace pre ->
  contains (pre ++ obj ++ post) fence = false ->
  exists pre' post',
    unwrap (pre ++ obj ++ post) = pre' ++ obj ++ post' /\ ~ In lbrace pre'.
Proof.
  intros Hobj Hpre Hfence.
  destruct (balanced_object_ends obj Hobj) as [mid ->].
  destruct (strip_preambles_keeps lbrace mid rbrace pre post
              eq_refl eq_refl eq_refl (preambles_hold_no lbrace (or_introl eq_refl)))
    as (p' & t' & u & v & Heq & Hp & Ht).
  exists p', t'. split.
  - unfold unwrap, strip_fences. rewrite Heq.
    replace (contains (p' ++ (lbrace :: mid ++ [rbrace]) ++ t') fence) with false;
      [reflexivity |].
    symmetry. apply (contains_false_inside fence u _ v).
    rewrite <- Hfence, Hp, Ht. f_equal. same_app.
  - intros Hin. apply Hpre. rewrite Hp. apply in_or_app. now right.
Qed.

(** The tag of a fenced block: the object is kept whether the language tag
    is found or not. *)
Lemma language_tag_keeps pre obj post :
  balanced_object obj ->
  ~ In lbrace pre ->
  let inner := pre ++ obj ++ post in
  exists pre' post',
    (if startswith (lower (strip inner)) (py "json")
     then strip (skipn 4 (strip inner)) else inner)
    = pre' ++ obj ++ post' /\ ~ In lbrace pre'.
Proof.
  intros Hobj Hpre. cbv zeta.
  destruct (balanced_object_ends obj Hobj) as [mid ->].
  destruct (startswith _ (py "json")) eqn:Htag.
  - rewrite (strip_keeps lbrace mid rbrace pre post eq_refl eq_refl) in *.
    assert (Hlen : 4 <= length (lstrip pre)).
    { apply (prefix_before lbrace (py "json") (lstrip pre)
               ((mid ++ [rbrace]) ++ rstrip post) eq_refl);
        [| exact Htag].
      intros Hin. vm_compute in Hin.
      repeat (destruct Hin as [Hin | Hin]; [discriminate |]). exact Hin. }
    rewrite (skipn_within 4 (lstrip pre) _ Hlen).
    rewrite (strip_keeps lbrace mid rbrace _ _ eq_refl eq_refl).
    eexists _, _. split; [reflexivity |].
    intros Hin. apply Hpre.
    destruct (lstrip_suffix (skipn 4 (lstrip pre))) as [w1 Hw1].
    destruct (skipn_suffix 4 (lstrip pre)) as [w2 Hw2].
    destruct (lstrip_suffix pre) as [w3 Hw3].
    rewrite Hw3, Hw2, Hw1. repeat (apply in_or_app; right). exact Hin.
  - exists pre, post. now split.
Qed.

(** A fenced block: the content between the first two fences is kept. *)
Lemma unwrap_in_fences before pre obj post after :
  balanced_object obj ->
  ~ In lbrace pre ->
  no_fence_in before ->
  no_fence_in (pre ++ obj ++ post) ->
  exists pre' post',
    unwrap (before ++ fence ++ (pre ++ obj ++ post) ++ fence ++ after)
    = pre' ++ obj ++ post' /\ ~ In lbrace pre'.
Proof.
  intros Hobj Hpre Hbefore Hinner.
  set (inner := pre ++ obj ++ post) in *.
  assert (Hcore : fence ++ inner ++ fence ++ after
                  = (backtick :: ([backtick; backtick] ++ inner
                                  ++ [backtick; backtick]) ++ [backtick])
                    ++ after) by same_app.
  rewrite Hcore.
  destruct (strip_preambles_keeps backtick
              ([backtick; backtick] ++ inner ++ [backtick; backtick]) backtick
              before after eq_refl eq_refl eq_refl
              (preambles_hold_no backtick (or_intror eq_refl)))
    as (p' & t' & u & v & Heq & Hp & Ht).
  unfold unwrap. rewrite Heq.
  replace (p' ++ (backtick :: ([backtick; backtick] ++ inner
                               ++ [backtick; backtick]) ++ [backtick]) ++ t')
    with (p' ++ fence ++ inner ++ fence ++ t') by same_app.
  unfold strip_fences.
  assert (Hhas : contains (p' ++ fence ++ inner ++ fence ++ t') fence = true).
  { apply contains_app_r. apply (contains_app_l fence fence). reflexivity. }
  rewrite Hhas. unfold split.
  rewrite (split_go_fence_first p' _ []);
    [| apply (no_fence_in_suffix u); now rewrite <- Hp].
  rewrite (split_go_fence_first inner t' [] Hinner).
  cbn [rev app length nth].
  pose proof (split_go_nonempty fence t' [] 0) as Hlen.
  replace (3 <=? S (S (length (split_go fence t' [] 0)))) with true
    by (symmetry; apply Nat.leb_le; lia).
  apply (language_tag_keeps pre obj post Hobj Hpre).
Qed.

(** C2 (as amended): the parser returns exactly a balanced object, the span
    from the first opening brace to the closing brace that brings the brace
    depth back to zero, (1) whenever the text left after the preambles and
    the fences are stripped is prose without an opening brace, then the
    object, then anything; in particular (2) for a text without any code
    fence made of such prose, the object and anything, with or without a
    known preamble; and (3) for a text whose first two code fences enclose
    such prose, the object and anything. *)
Theorem clean_json_response_returns_object response obj :
  balanced_object obj ->
  (forall pre post,
     unwrap response = pre ++ obj ++ post -> ~ In lbrace pre ->
     _clean_json_response response = ret obj)
  /\ (forall pre post,
        response = pre ++ obj ++ post -> ~ In lbrace pre ->
        contains response fence = false ->
        _clean_json_response response = ret obj)
  /\ (forall before pre post after,
        response = before ++ fence ++ (pre ++ obj ++ post) ++ fence ++ after ->
        ~ In lbrace pre ->
        no_fence_in before -> no_fence_in (pre ++ obj ++ post) ->
        _clean_json_response response = ret obj).
Proof.
  intros Hobj. split; [| split].
  - intros pre post Htext Hpre.
    now apply (clean_of_unwrapped response pre obj post).
  - intros pre post -> Hpre Hfence.
    destruct (unwrap_in_prose pre obj post Hobj Hpre Hfence)
      as (pre' & post' & Htext & Hpre').
    now apply (clean_of_unwrapped _ pre' obj post').
  - intros before pre post after -> Hpre Hbefore Hinner.
    destruct (unwrap_in_fences before pre obj post after Hobj Hpre Hbefore Hinner)
      as (pre' & post' & Htext & Hpre').
    now apply (clean_of_unwrapped _ pre' obj post').
Qed.

End StrippingFacts.

Lemma sample_object_balanced : balanced_object (py "{a {b} c}").
Proof.
  split; [| split].
  - exists (py "a {b} c}"). vm_compute. reflexivity.
  - vm_compute. reflexivity.
  - intros k Hk.
    do 9 (destruct k as [| k];
          [try (vm_compute; reflexivity); vm_compute in Hk; lia |]).
    vm_compute in Hk. lia.
Qed.

Lemma clean_json_response_returns_object_witness :
  _clean_json_response
    (py "Here's the JSON: ```json {a {b} c} ``` Hope it helps, see }")
  = ret (py "{a {b} c}")
  /\ _clean_json_response (py "Output: the result is {a {b} c} and a stray }")
     = ret (py "{a {b} c}").
Proof.
  split.
  - apply (proj2 (proj2 (clean_json_response_returns_object
                           (py "Here's the JSON: ```json {a {b} c} ``` Hope it helps, see }")
                           (py "{a {b} c}") sample_object_balanced))
             (py "Here's the JSON: ") (py "json ") (py " ")
             (py " Hope it helps, see }")).
    + vm_compute. reflexivity.
    + intros H. vm_compute in H.
      repeat (destruct H as [H | H]; [discriminate |]). exact H.
    + vm_compute. reflexivity.
    + vm_compute. reflexivity.
  - apply (proj1 (proj2 (clean_json_response_returns_object
                           (py "Output: the result is {a {b} c} and a stray }")
                           (py "{a {b} c}") sample_object_balanced))
             (py "Output: the result is ") (py " and a stray }")).
    + vm_compute. reflexivity.
    + intros H. vm_compute in H.
      repeat (destruct H as [H | H]; [discriminate |]). exact H.
    + vm_compute. reflexivity.
Defined.

(** C2, as the claim states it, fails: each of these texts contains a
    single balanced object, after no prose at all; in the first a fenced
    snippet follows the object, in the second two fences stand inside it.
    The fences are stripped first, the text between the first two of them
    holds no brace, and the parser fails. *)
Lemma clean_json_response_loses_object_to_fences :
  _clean_json_response (py "{a} Run it with: ```sh go``` Done.")
  = raise ValueError "No JSON object found in response"
  /\ _clean_json_response (py "{a ```b``` c}")
     = raise ValueError "No JSON object found in response"
  /\ unwrap (py "{a} Run it with: ```sh go``` Done.") = py "sh go"
  /\ unwrap (py "{a ```b``` c}") = py "b".
Proof. vm_compute. repeat split. Qed.

(** The cases of tests/test_llm.py. *)
Example clean_json_response_basic :
  let object := py "{" ++ dq ++ py "key" ++ dq ++ py ": " ++ dq ++ py "value"
                ++ dq ++ py "}" in
  _clean_json_response object = ret object
  /\ _clean_json_response
       (py "```json" ++ [newline_char] ++ object ++ [newline_char] ++ py "```")
     = ret object
  /\ _clean_json_response (py "Here's the JSON: " ++ object) = ret object
  /\ _clean_json_response (py "This is just text")
     = raise ValueError "No JSON object found in response".
Proof. vm_compute. repeat split. Qed.

(** * Facts about [generate_json] *)

Section GenerateFacts.

Variable World : Type.
Variable generator : World -> str -> float -> Z -> World * (str + str).
Variable json_loads : str -> option json.

(** What the loop does, for every number of remaining iterations. *)
Lemma generate_json_loop_spec remaining :
  forall attempt max_retries w json_prompt temperature w' log res,
    attempt + remaining = max_retries ->
    1 <= remaining ->
    generate_json_loop generator json_loads remaining attempt max_retries
      w json_prompt temperature = (w', log, res) ->
    1 <= length log <= remaining
    /\ log_replays generator w log w'
    /\ (forall i c, nth_error log i = Some c ->
          call_prompt c = json_prompt
          /\ call_temperature c = halved i temperature
          /\ call_max_tokens c = 3000%Z)
    /\ (forall i c, nth_error log i = Some c -> S i < length log ->
          is_decode_failure json_loads c = true)
    /\ loop_explains json_loads remaining max_retries log res.
Proof.
  induction remaining as [| remaining IH];
    intros attempt max_retries w json_prompt temperature w' log res Hsum Hpos Hrun;
    [lia |].
  cbn [generate_json_loop] in Hrun.
  destruct (generator w json_prompt temperature 3000) as [w1 r] eqn:Hgen.
  set (c := mk_call json_prompt temperature 3000 r) in *.
  assert (Hone : forall res0,
            loop_explains json_loads (S remaining) max_retries [c] res0 ->
            1 <= length [c] <= S remaining
            /\ log_replays generator w [c] w1
            /\ (forall i c0, nth_error [c] i = Some c0 ->
                  call_prompt c0 = json_prompt
                  /\ call_temperature c0 = halved i temperature
                  /\ call_max_tokens c0 = 3000%Z)
            /\ (forall i c0, nth_error [c] i = Some c0 -> S i < length [c] ->
                  is_decode_failure json_loads c0 = true)
            /\ loop_explains json_loads (S remaining) max_retries [c] res0).
  { intros res0 Hlast. split; [simpl; lia |]. split.
    - simpl. exists w1. split; [exact Hgen | reflexivity].
    - split; [| split; [| exact Hlast]].
      + intros [| i] c0 Hc0; simpl in Hc0.
        * injection Hc0 as <-. now repeat split.
        * destruct i; discriminate.
      + simpl. intros i c0 _ Hi. lia. }
  destruct r as [msg | response_text] eqn:Hr.
  - injection Hrun as <- <- <-. apply Hone.
    exists c. split; [reflexivity |]. unfold outcome_of. now simpl.
  - destruct (_clean_json_response response_text) as [e | cleaned] eqn:Hclean.
    + injection Hrun as <- <- <-. apply Hone.
      exists c. split; [reflexivity |]. unfold outcome_of. simpl. now rewrite Hclean.
    + destruct (json_loads cleaned) as [parsed |] eqn:Hloads.
      * injection Hrun as <- <- <-. apply Hone.
        exists c. split; [reflexivity |]. unfold outcome_of. simpl.
        now rewrite Hclean, Hloads.
      * assert (Hc : outcome_of json_loads c = DecodeFailed cleaned).
        { unfold outcome_of. simpl. now rewrite Hclean, Hloads. }
        destruct (attempt <? max_retries - 1) eqn:Hlt.
        -- apply Nat.ltb_lt in Hlt.
           destruct (generate_json_loop generator json_loads remaining
                       (S attempt) max_retries w1 json_prompt
                       (temperature * 0.5)%float) as [[w2 cs] res'] eqn:Hrec.
           injection Hrun as <- <- <-.
           destruct (IH (S attempt) max_retries w1 json_prompt
                       (temperature * 0.5)%float w2 cs res' ltac:(lia) ltac:(lia) Hrec)
             as (Hlen & Hrep & Hargs & Hretry & c' & Hlast & Hexp).
           split; [simpl; lia |]. split.
           { simpl. exists w1. now split. }
           split; [| split].
           ++ intros [| i] c0 Hc0; simpl in Hc0.
              ** injection Hc0 as <-. now repeat split.
              ** destruct (Hargs i c0 Hc0) as (Hp & Ht & Hm). now repeat split.
           ++ intros [| i] c0 Hc0 Hi; simpl in Hc0.
              ** injection Hc0 as <-. unfold is_decode_failure. now rewrite Hc.
              ** apply (Hretry i c0 Hc0). simpl in Hi. lia.
           ++ exists c'. split.
              ** simpl length. replace (S (length cs) - 1) with (S (length cs - 1)) by lia.
                 exact Hlast.
              ** destruct (outcome_of json_loads c'); try exact Hexp.
                 destruct Hexp as [Hl Hres]. split; [simpl; lia | exact Hres].
        -- apply Nat.ltb_ge in Hlt.
           injection Hrun as <- <- <-. apply Hone.
           exists c. split; [reflexivity |]. rewrite Hc.
           split; [simpl; lia | reflexivity].
Qed.


(** C5: when the text generator raises on some invocation, that invocation
    is the last one: the call ends at once with the failure
    "LLM JSON generation failed: <message>" in the world that invocation
    left.  An invocation is followed by another only when an object was
    extracted from its text and failed to deserialize. *)
Theorem generate_json_transport_error w prompt temperature max_retries
    w' log res i c msg :
  generate_json generator json_loads w prompt temperature max_retries
  = (w', log, res) ->
  nth_error log i = Some c ->
  call_result c = inl msg ->
  length log = S i
  /\ res = inl (Exn Exception (py "LLM JSON generation failed: " ++ msg))
  /\ log_replays generator w log w'
  /\ (forall j c', nth_error log j = Some c' -> S j < length log ->
        is_decode_failure json_loads c' = true).
Proof.
  intros Hrun Hnth Hres.
  destruct max_retries as [| n].
  { cbn in Hrun. injection Hrun as _ <- _. destruct i; discriminate. }
  unfold generate_json in Hrun.
  destruct (generate_json_loop_spec (S n) 0 (S n) w
              (prompt ++ json_instruction) temperature w' log res
              eq_refl ltac:(lia) Hrun)
    as (Hlen & Hrep & _ & Hretry & c' & Hlast & Hexp).
  assert (Hi : i < length log) by (apply nth_error_Some; congruence).
  assert (Hend : length log = S i).
  { destruct (Nat.lt_ge_cases (S i) (length log)) as [Hlt | Hge]; [| lia].
    pose proof (Hretry i c Hnth Hlt) as Hdec.
    unfold is_decode_failure, outcome_of in Hdec. rewrite Hres in Hdec.
    discriminate. }
  repeat split; try assumption.
  rewrite Hend in Hlast. replace (S i - 1) with i in Hlast by lia.
  rewrite Hnth in Hlast. injection Hlast as <-.
  unfold outcome_of in Hexp. now rewrite Hres in Hexp.
Qed.

End GenerateFacts.



(** A run over [generate_text] itself: the first response does not
    deserialize, the second request times out, the third outcome is never
    asked for. *)
Example generate_json_stops_at_transport_error :
  generate_json (generate_text scripted_post (py "llama3.1:8b"))
    loads_empty_object
    [PostResponse 200 (inr (JDict [(py "response", JStr (py " {oops} "))]));
     PostTimeout;
     PostResponse 200 (inr (JDict [(py "response", JStr (py "{}"))]))]
    (py "Q") 0.3%float 3
  = ([PostResponse 200 (inr (JDict [(py "response", JStr (py "{}"))]))],
     [mk_call (py "Q" ++ json_instruction) 0.3%float 3000 (inr (py "{oops}"));
      mk_call (py "Q" ++ json_instruction) 0.15%float 3000
        (inl (py "LLM request timed out. Try a smaller model or reduce prompt size."))],
     inl (Exn Exception
            (py "LLM JSON generation failed: LLM request timed out. Try a smaller model or reduce prompt size."))).
Proof. vm_compute. reflexivity. Qed.

Lemma generate_json_transport_error_witness :
  length
    [mk_call (py "Q" ++ json_instruction) 0.3%float 3000 (inr (py "{oops}"));
     mk_call (py "Q" ++ json_instruction) 0.15%float 3000
       (inl (py "LLM request timed out. Try a smaller model or reduce prompt size."))]
  = 2.
Proof.
  apply (generate_json_transport_error _
           (generate_text scripted_post (py "llama3.1:8b")) loads_empty_object
           [PostResponse 200 (inr (JDict [(py "response", JStr (py " {oops} "))]));
            PostTimeout;
            PostResponse 200 (inr (JDict [(py "response", JStr (py "{}"))]))]
           (py "Q") 0.3%float 3 _ _ _ 1 _ _
           generate_json_stops_at_transport_error eq_refl eq_refl).
Defined.

(** The failures of [generate_text], by outcome of the request. *)
Example generate_text_outcomes :
  map (fun o => snd (generate_text scripted_post (py "m") [o] (py "Q")
                       0.3%float 3000))
    [PostResponse 200 (inr (JDict [(py "response", JStr (py " text "))]));
     PostResponse 200 (inr (JDict []));
     PostResponse 404 (inl (py "not json"));
     PostResponse 500 (inl (py "not json"));
     PostRaised (py "connection refused")]
  = [inr (py "text");
     inr [];
     inl (py "LLM generation failed: Model 'm' not found. Please run `ollama pull m` in terminal.");
     inl (py "LLM generation failed: Ollama API error: 500");
     inl (py "LLM generation failed: connection refused")].
Proof. vm_compute. reflexivity. Qed.



(** * Facts about the quality check *)

Import Validators.

Section QualityFacts.

Open Scope float_scope.

(** The derived fields of a freshly built [QualityCheck]. *)
Lemma QualityCheck_new_derived m l h c w e b :
  let q := QualityCheck_new m l h c w e b in
  score q = float_of_nat (sum_bools (checks_of q)) / 7 * 100
  /\ passed q = PrimFloat.leb 70 (score q)
  /\ passed q = (5 <=? sum_bools (checks_of q))%nat.
Proof.
  destruct m, l, h, c, w, e, b; vm_compute; repeat split.
Qed.

(** Setting the issues leaves the checks and the derived fields alone. *)
Lemma set_issues_fields q i :
  checks_of (set_issues q i) = checks_of q
  /\ score (set_issues q i) = score q
  /\ passed (set_issues q i) = passed q.
Proof. repeat split. Qed.

(** C1: for every draft, the score of the result is the number of true
    checks among the seven, divided by 7 and multiplied by 100, and the
    draft passes exactly when that score is at least 70, which is exactly
    when at least five of the seven checks are true. *)
Theorem validate_draft_score draft :
  let q := validate_draft draft in
  score q = float_of_nat (sum_bools (checks_of q)) / 7 * 100
  /\ passed q = PrimFloat.leb 70 (score q)
  /\ passed q = (5 <=? sum_bools (checks_of q))%nat.
Proof.
  unfold validate_draft. cbv zeta.
  match goal with
  | |- context [set_issues ?q0 ?i] =>
      destruct (set_issues_fields q0 i) as (-> & -> & ->)
  end.
  apply QualityCheck_new_derived.
Qed.

(** The scores a draft can get: five true checks are the fewest that pass. *)
Example scores_by_count :
  map (fun n => float_of_nat n / 7 * 100) [0; 1; 2; 3; 4; 5; 6; 7]%nat
  = [0; 14.285714285714285; 28.57142857142857; 42.857142857142854;
     57.14285714285714; 71.42857142857143; 85.71428571428571; 100].
Proof. vm_compute. reflexivity. Qed.

(** C6, as the claim states it, fails: with the subject "Test" the draft
    of the scenario gets five true checks of seven and the score
    71.42857142857143, not seven and 100. *)
Lemma validate_draft_scenario_not_all_true :
  let q := validate_draft (scenario_draft (py "Test")) in
  checks_of q = [true; false; false; true; true; true; true]
  /\ has_company_hook q = false
  /\ score q = 71.42857142857143
  /\ PrimFloat.eqb (score q) 100 = false.
Proof. vm_compute. repeat split. Qed.

(** The word "acme" and the words "senior" and "engineer" do not occur in
    the body of the scenario. *)
Example scenario_body_mentions :
  map (contains (lower scenario_body)) [py "acme"; py "senior"; py "engineer"]
  = [false; false; false].
Proof. vm_compute. reflexivity. Qed.

(** C6 (as amended): for the draft of the scenario, whatever its subject,
    [has_company_hook] is false, since the body names neither the company
    nor a word of the job title; with the subject "Test" the checks
    [has_metric], [has_clear_cta], [under_word_limit], [no_emojis] and
    [no_bullet_dashes] are true, the score is below 100 and the draft
    passes. *)
Theorem validate_draft_scenario :
  (forall subject,
     has_company_hook (validate_draft (scenario_draft subject)) = false)
  /\ let q := validate_draft (scenario_draft (py "Test")) in
     has_metric q = true
     /\ has_clear_cta q = true
     /\ under_word_limit q = true
     /\ no_emojis q = true
     /\ no_bullet_dashes q = true
     /\ PrimFloat.ltb (score q) 100 = true
     /\ passed q = true.
Proof.
  split.
  - intros subject. reflexivity.
  - vm_compute. repeat split.
Qed.

(** The link check wants a scheme: the bare address that
    tests/test_validators.py expects to count as a link does not. *)
Example check_has_link_needs_scheme :
  _check_has_link (py "Test Check out my work at github.com/user/project") = false
  /\ _check_has_link (py "Test Check out my work at https://github.com/user/project")
     = true.
Proof. vm_compute. split; reflexivity. Qed.

End QualityFacts.

(** * Facts about the matcher *)

Import Re.

Section MatcherFacts.

Variables (ignorecase multiline : bool).

(** A successful match hands its continuation a suffix of the text, a
    proper one when the pattern cannot match the empty text. *)
Lemma rmatch_shrinks r : forall prev s k res,
  rmatch ignorecase multiline r prev s k = Some res ->
  exists p' s',
    k p' s' = Some res
    /\ length s' <= length s
    /\ (nullable r = false -> length s' < length s).
Proof.
  induction r as [| x | items | r1 IH1 r2 IH2 | r1 IH1 r2 IH2 | r1 IH1 | |];
    intros prev s k res H; simpl in H.
  - exists prev, s. repeat split; [exact H | lia | discriminate].
  - destruct s as [| c s']; [discriminate |].
    destruct (chr_match ignorecase x c); [| discriminate].
    exists (Some c), s'. repeat split; [exact H | simpl; lia | simpl; lia].
  - destruct s as [| c s']; [discriminate |].
    destruct (class_match ignorecase items c); [| discriminate].
    exists (Some c), s'. repeat split; [exact H | simpl; lia | simpl; lia].
  - destruct (IH1 _ _ _ _ H) as (p1 & s1 & H1 & Hle1 & Hlt1).
    destruct (IH2 _ _ _ _ H1) as (p2 & s2 & H2 & Hle2 & Hlt2).
    exists p2, s2. repeat split; [exact H2 | lia |].
    simpl. intros Hn. apply andb_false_iff in Hn as [Hn | Hn].
    + specialize (Hlt1 Hn). lia.
    + specialize (Hlt2 Hn). lia.
  - destruct (rmatch ignorecase multiline r1 prev s k) as [rest |] eqn:E1.
    + injection H as <-.
      destruct (IH1 _ _ _ _ E1) as (p1 & s1 & H1 & Hle1 & Hlt1).
      exists p1, s1. repeat split; [exact H1 | lia |].
      simpl. intros Hn. apply orb_false_iff in Hn as [Hn _]. auto.
    + destruct (IH2 _ _ _ _ H) as (p2 & s2 & H2 & Hle2 & Hlt2).
      exists p2, s2. repeat split; [exact H2 | lia |].
      simpl. intros Hn. apply orb_false_iff in Hn as [_ Hn]. auto.
  - revert H. generalize (length s) at 1. intros n. revert prev s.
    induction n as [| n IHn]; intros prev s H.
    + exists prev, s. repeat split; [exact H | lia | discriminate].
    + match type of H with
      | match ?m with _ => _ end = _ => destruct m as [rest |] eqn:E1
      end.
      * injection H as <-.
        destruct (IH1 _ _ _ _ E1) as (p1 & s1 & H1 & Hle1 & _).
        destruct (length s1 <? length s); [| discriminate].
        destruct (IHn _ _ H1) as (p2 & s2 & H2 & Hle2 & _).
        exists p2, s2. repeat split; [exact H2 | lia | discriminate].
      * exists prev, s. repeat split; [exact H | lia | discriminate].
  - destruct (at_bol multiline prev); [| discriminate].
    exists prev, s. repeat split; [exact H | lia | discriminate].
  - destruct (at_wordb prev s); [| discriminate].
    exists prev, s. repeat split; [exact H | lia | discriminate].
Qed.

Lemma search_from_unfold r prev s :
  search_from ignorecase multiline r prev s =
  match match_here ignorecase multiline r prev s with
  | Some rest => Some (firstn (length s - length rest) s, rest)
  | None =>
      match s with
      | [] => None
      | c :: s' => search_from ignorecase multiline r (Some c) s'
      end
  end.
Proof. destruct s; reflexivity. Qed.

(** The first match of a pattern that cannot match the empty text is not
    empty. *)
Lemma search_from_nonempty r : nullable r = false ->
  forall s prev m rest,
    search_from ignorecase multiline r prev s = Some (m, rest) -> m <> [].
Proof.
  intros Hn s. induction s as [| c s IH]; intros prev m rest H;
    rewrite search_from_unfold in H;
    match type of H with
    | match ?x with _ => _ end = _ => destruct x as [rest0 |] eqn:E
    end; try discriminate.
  - destruct (rmatch_shrinks r _ _ _ _ E) as (p' & s' & Hk & _ & Hlt).
    specialize (Hlt Hn). exfalso. simpl in Hlt. inversion Hlt.
  - assert (Hm : length m
                 = Nat.min (length (c :: s) - length rest0) (length (c :: s))).
    { rewrite <- length_firstn. f_equal. congruence. }
    destruct (rmatch_shrinks r _ _ _ _ E) as (p' & s' & Hk & _ & Hlt).
    injection Hk as ->. specialize (Hlt Hn).
    intros ->. change (length (@nil N)) with 0 in Hm. lia.
  - now apply (IH (Some c) m rest).
Qed.

Lemma findall_head_nonempty r : nullable r = false ->
  forall s m ms, findall ignorecase multiline r s = m :: ms -> m <> [].
Proof.
  intros Hn s m ms H. unfold findall in H. cbn [findall_from] in H.
  destruct (search_from ignorecase multiline r None s) as [[m0 rest] |] eqn:E;
    [| discriminate].
  injection H as <- _. now apply (search_from_nonempty r Hn s None m0 rest).
Qed.

End MatcherFacts.

(** * Facts about the contact heuristics *)

Import ContactFinder.

Section ContactFacts.

Open Scope float_scope.

(** The three confidences, as binary64 arithmetic gives them. *)
Lemma permutation_confidences :
  map (fun i => 0.7 - float_of_nat i * 0.1) [0; 1; 2]%nat
  = [0.7; 0.6; 0.49999999999999994].
Proof. vm_compute. reflexivity. Qed.

Lemma contains_char s a : contains s [a] = true <-> In a s.
Proof.
  induction s as [| x s IH]; simpl.
  - split; [discriminate | intros []].
  - rewrite startswith_nil, orb_true_iff, IH, andb_true_r, N.eqb_eq.
    split; intros [H | H]; auto.
Qed.

Lemma split_go_char_absent a u : forall cur,
  ~ In a u -> split_go [a] u cur 0 = [rev cur ++ u].
Proof.
  induction u as [| x u IH]; intros cur H; simpl.
  - now rewrite app_nil_r.
  - rewrite startswith_nil, andb_true_r.
    destruct (N.eqb_spec a x) as [-> | Hx]; [exfalso; apply H; now left |].
    rewrite IH; [| intros Hin; apply H; now right].
    simpl. now rewrite <- app_assoc.
Qed.

Lemma split_go_char_first a u rest : forall cur,
  ~ In a u ->
  split_go [a] (u ++ a :: rest) cur 0 = (rev cur ++ u) :: split_go [a] rest [] 0.
Proof.
  induction u as [| x u IH]; intros cur H; simpl.
  - now rewrite startswith_nil, andb_true_r, N.eqb_refl, app_nil_r.
  - rewrite startswith_nil, andb_true_r.
    destruct (N.eqb_spec a x) as [-> | Hx]; [exfalso; apply H; now left |].
    rewrite IH; [| intros Hin; apply H; now right].
    simpl. now rewrite <- app_assoc.
Qed.

(** The domain that is used: all of the stripped lower-case text when it
    has no [@], and what stands between its first [@] and its next one, or
    its end, otherwise. *)
Lemma domain_part_spec domain :
  let text := strip (lower domain) in
  (~ In (ch "@") text -> domain_part domain = text)
  /\ (forall user host tail,
        text = user ++ py "@" ++ host ++ tail ->
        ~ In (ch "@") user -> ~ In (ch "@") host ->
        tail = [] \/ (exists t, tail = ch "@" :: t) ->
        domain_part domain = host).
Proof.
  cbv zeta. unfold domain_part. split.
  - intros H.
    destruct (contains (strip (lower domain)) (py "@")) eqn:E; [| reflexivity].
    exfalso. apply H. now apply contains_char.
  - intros user host tail Htext Huser Hhost Htail.
    assert (E : contains (strip (lower domain)) (py "@") = true).
    { apply contains_char. rewrite Htext. apply in_or_app. right. now left. }
    rewrite E, Htext. unfold split.
    change (py "@") with [ch "@"].
    change ([ch "@"] ++ host ++ tail) with (ch "@" :: host ++ tail).
    rewrite split_go_char_first by exact Huser.
    destruct Htail as [-> | [t ->]].
    + rewrite app_nil_r, split_go_char_absent by exact Hhost. reflexivity.
    + rewrite split_go_char_first by exact Hhost. reflexivity.
Qed.

(** C8 (as amended): when the first name is not empty once lower-cased and
    stripped, exactly three contacts are returned, for the addresses
    first.last, first and firstlast at the domain, in that order, all
    tagged "guessed", with the confidences that 0.7 - i * 0.1 gives in
    binary64 arithmetic: 0.7, 0.6 and 0.49999999999999994.  The domain is
    lower-cased and stripped, and a leading [user@] is dropped from it. *)
Theorem generate_email_permutations_spec first_name last_name domain :
  strip (lower first_name) <> [] ->
  let first := strip (lower first_name) in
  let last := strip (lower last_name) in
  let host := domain_part domain in
  generate_email_permutations first_name last_name domain
  = ret [guessed_contact first_name last_name
           (first ++ py "." ++ last ++ py "@" ++ host) 0.7;
         guessed_contact first_name last_name
           (first ++ py "@" ++ host) 0.6;
         guessed_contact first_name last_name
           (first ++ last ++ py "@" ++ host) 0.49999999999999994]
  /\ (~ In (ch "@") (strip (lower domain)) -> host = strip (lower domain))
  /\ (forall user name,
        strip (lower domain) = user ++ py "@" ++ name ->
        ~ In (ch "@") user -> ~ In (ch "@") name -> host = name).
Proof.
  intros Hfirst. cbv zeta. split; [| split].
  - unfold generate_email_permutations.
    destruct (strip (lower first_name)) as [| c first] eqn:E; [contradiction |].
    cbn [firstn enumerate_from map]. reflexivity.
  - apply domain_part_spec.
  - intros user name Htext Huser Hname.
    apply (proj2 (domain_part_spec domain) user name []);
      [now rewrite app_nil_r | assumption | assumption | now left].
Qed.

Lemma generate_email_permutations_spec_witness :
  generate_email_permutations (py "Jane") (py "Doe") (py "HR@Acme.com")
  = ret [guessed_contact (py "Jane") (py "Doe") (py "jane.doe@acme.com") 0.7;
         guessed_contact (py "Jane") (py "Doe") (py "jane@acme.com") 0.6;
         guessed_contact (py "Jane") (py "Doe") (py "janedoe@acme.com")
           0.49999999999999994].
Proof.
  assert (H : strip (lower (py "Jane")) <> []) by (vm_compute; discriminate).
  exact (proj1 (generate_email_permutations_spec
                  (py "Jane") (py "Doe") (py "HR@Acme.com") H)).
Defined.

(** C8, as the claim states it, fails: for Jane Doe at acme.com the third
    confidence is 0.49999999999999994, which is not the number 0.5; and
    for a first name that is blank the call raises instead of returning
    three contacts. *)
Lemma generate_email_permutations_not_half :
  generate_email_permutations (py "Jane") (py "Doe") (py "acme.com")
  = ret [guessed_contact (py "Jane") (py "Doe") (py "jane.doe@acme.com") 0.7;
         guessed_contact (py "Jane") (py "Doe") (py "jane@acme.com") 0.6;
         guessed_contact (py "Jane") (py "Doe") (py "janedoe@acme.com")
           0.49999999999999994]
  /\ PrimFloat.eqb 0.49999999999999994 0.5 = false
  /\ PrimFloat.ltb 0.49999999999999994 0.5 = true
  /\ generate_email_permutations (py " ") (py "Doe") (py "acme.com")
     = raise IndexError "string index out of range".
Proof. vm_compute. repeat split. Qed.

(** Of a domain with several [@] only the text between the first two is
    kept. *)
Example domain_part_examples :
  map domain_part [py "acme.com"; py " HR@Acme.com "; py "a@b.org@c.net"]
  = [py "acme.com"; py "acme.com"; py "b.org"].
Proof. vm_compute. reflexivity. Qed.

(** The eight values of the score. *)
Example signal_score_table :
  map (fun '(e, l, c) => signal_score e l c)
    [(false, false, false); (false, false, true); (false, true, false);
     (false, true, true); (true, false, false); (true, false, true);
     (true, true, false); (true, true, true)]
  = [0.3; 0.4; 0.5; 0.6; 0.7; 0.7999999999999999; 0.8999999999999999;
     0.9999999999999999].
Proof. vm_compute. reflexivity. Qed.

(** C9: the confidence is 0.3, plus 0.4 when an email is given, plus 0.2
    when a LinkedIn address is given, plus 0.1 when the lower-cased snippet
    contains the lower-cased company name, capped at 1; it lies between 0
    and 1, and turning any one of the three signals on never lowers it. *)
Theorem calculate_confidence_spec email linkedin company snippet :
  let s := _calculate_confidence email linkedin company snippet in
  s = signal_score (otruthy email) (otruthy linkedin)
        (contains (lower snippet) (lower company))
  /\ PrimFloat.leb 0 s = true
  /\ PrimFloat.leb s 1 = true
  /\ (forall l c,
        PrimFloat.leb (signal_score false l c) (signal_score true l c) = true)
  /\ (forall e c,
        PrimFloat.leb (signal_score e false c) (signal_score e true c) = true)
  /\ (forall e l,
        PrimFloat.leb (signal_score e l false) (signal_score e l true) = true).
Proof.
  cbv zeta. unfold _calculate_confidence.
  destruct (otruthy email), (otruthy linkedin),
    (contains (lower snippet) (lower company));
    (split; [reflexivity |]);
    (split; [vm_compute; reflexivity |]);
    (split; [vm_compute; reflexivity |]);
    (split; [intros [] []; vm_compute; reflexivity |]);
    (split; intros [] []; vm_compute; reflexivity).
Qed.

(** The address an extracted contact carries is never the empty text. *)
Lemma extract_email_nonempty text m : _extract_email text = Some m -> m <> [].
Proof.
  unfold _extract_email.
  destruct (findall false false email_pattern text) as [| m0 ms] eqn:E;
    [discriminate |].
  intros H. injection H as <-.
  apply (findall_head_nonempty false false email_pattern eq_refl text m0 ms E).
Qed.

(** C10: a contact extracted from a search result carries the address found
    in the title and the snippet, and its tag is "confirmed" when one was
    found and "unknown" when none was; it is never "guessed".  The contacts
    of [generate_email_permutations] are all tagged "guessed". *)
Theorem extract_contact_email_confidence result company_name c :
  _extract_contact_from_result result company_name = Some c ->
  let found_email :=
    _extract_email (get_or_empty (res_title result) ++ py " "
                    ++ get_or_empty (res_body result)) in
  email c = found_email
  /\ email_confidence c
     = match found_email with
       | Some _ => py "confirmed"
       | None => py "unknown"
       end
  /\ str_eqb (email_confidence c) (py "guessed") = false
  /\ (forall first_name last_name domain guesses g,
        generate_email_permutations first_name last_name domain = inr guesses ->
        In g guesses -> email_confidence g = py "guessed").
Proof.
  intros H. cbv zeta. unfold _extract_contact_from_result in H.
  destruct (_extract_name_from_title (get_or_empty (res_title result)))
    as [[| n0 name] |]; try discriminate.
  injection H as <-. cbn [email email_confidence].
  split; [reflexivity |].
  destruct (_extract_email _) as [m |] eqn:E.
  - pose proof (extract_email_nonempty _ _ E) as Hm.
    destruct m as [| m0 m]; [contradiction |].
    repeat split.
    intros first_name last_name domain guesses g Hg Hin.
    unfold generate_email_permutations in Hg.
    destruct (strip (lower first_name)); [discriminate |].
    injection Hg as <-. cbn in Hin.
    destruct Hin as [<- | [<- | [<- | []]]]; reflexivity.
  - repeat split.
    intros first_name last_name domain guesses g Hg Hin.
    unfold generate_email_permutations in Hg.
    destruct (strip (lower first_name)); [discriminate |].
    injection Hg as <-. cbn in Hin.
    destruct Hin as [<- | [<- | [<- | []]]]; reflexivity.
Qed.

End ContactFacts.

Lemma extract_contact_email_confidence_witness :
  option_map email_confidence
    (_extract_contact_from_result sample_result (py "Acme"))
  = Some (py "confirmed").
Proof.
  destruct (_extract_contact_from_result sample_result (py "Acme"))
    as [c |] eqn:E.
  - destruct (extract_contact_email_confidence sample_result (py "Acme") c E)
      as (_ & Htag & _).
    simpl. f_equal. rewrite Htag. vm_compute. reflexivity.
  - vm_compute in E. discriminate.
Defined.

(** A search result without an address gives the tag "unknown". *)
Example extract_contact_without_email :
  option_map (fun c => (email c, email_confidence c))
    (_extract_contact_from_result
       (mk_SearchResult (Some (py "Jane Doe at Acme")) (Some (py "Team page"))
          None)
       (py "Acme"))
  = Some (None, py "unknown").
Proof. vm_compute. reflexivity. Qed.

(** * Facts about [parse_text] *)

Import CvParser.

Section ParseTextFacts.

Lemma lstrip_length s : length (lstrip s) <= length s.
Proof.
  induction s as [| c s IH]; simpl; [lia |].
  destruct (isspace c); simpl; lia.
Qed.

Lemma strip_length s : length (strip s) <= length s.
Proof.
  unfold strip, rstrip. rewrite length_rev.
  etransitivity; [apply lstrip_length |].
  rewrite length_rev. apply lstrip_length.
Qed.

Variable World : Type.
Variable generator : World -> str -> float -> Z -> World * (str + str).
Variable json_loads : str -> option json.
Variable CV_PARSE_PROMPT_format : str -> str.
Variable CVProfile_validate : list (str * json) -> (str + CVProfile)%type.

(** C7 (as amended): for a CV text of at least 50 characters once
    stripped, [parse_text] does not raise.  With [text] the CV text cut to
    its first 12000 characters: when the generation of the structured data
    fails with an error [e], and when the schema validation fails with the
    message [msg], the result is the minimal profile whose [raw_text] is
    [text] and whose summary is "CV parsing failed: <reason>. Using raw
    text.", the reason being [str(e)], or [msg]. *)
Theorem parse_text_falls_back (w : World) (cv_text : str) :
  50 <= length (strip cv_text) ->
  let text :=
    if max_cv_chars <? length cv_text
    then firstn max_cv_chars cv_text else cv_text in
  let run := parse_text generator json_loads CV_PARSE_PROMPT_format
               CVProfile_validate w cv_text in
  (exists profile, snd run = ret profile)
  /\ (forall w1 log e,
        generate_json generator json_loads w (CV_PARSE_PROMPT_format text)
          0.2%float 2 = (w1, log, inl e) ->
        run = (w1, ret (fallback_profile text (exn_msg e))))
  /\ (forall w1 log kv msg,
        generate_json generator json_loads w (CV_PARSE_PROMPT_format text)
          0.2%float 2 = (w1, log, inr (JDict kv)) ->
        CVProfile_validate (dict_set (py "raw_text") (JStr text) kv) = inl msg ->
        run = (w1, ret (fallback_profile text msg)))
  /\ (forall reason,
        raw_text (fallback_profile text reason) = text
        /\ cv_summary (fallback_profile text reason)
           = Some (py "CV parsing failed: " ++ reason ++ py ". Using raw text.")).
Proof.
  intros Hlen. cbv zeta. unfold parse_text.
  assert (Hguard : (negb (truthy cv_text) || (length (strip cv_text) <? 50))%bool
                   = false).
  { apply orb_false_iff. split.
    - pose proof (strip_length cv_text) as Hs.
      destruct cv_text; [| reflexivity].
      change (length (@nil N)) with 0 in Hs. lia.
    - apply Nat.ltb_ge. exact Hlen. }
  rewrite Hguard.
  set (text := if max_cv_chars <? length cv_text
               then firstn max_cv_chars cv_text else cv_text).
  destruct (generate_json generator json_loads w
              (CV_PARSE_PROMPT_format text) 0.2%float 2)
    as [[w1 log] r] eqn:Hgen.
  split; [| split; [| split]].
  - destruct r as [e | []]; try (eexists; reflexivity).
    destruct (CVProfile_validate _); eexists; reflexivity.
  - intros w1' log' e H. injection H as <- _ ->. reflexivity.
  - intros w1' log' kv msg H Hval. injection H as <- _ ->.
    now rewrite Hval.
  - intros reason. split; reflexivity.
Qed.

End ParseTextFacts.

Lemma parse_text_falls_back_witness :
  parse_text scripted_generator loads_empty_object prompt_is_text rejects_all
    [inl (py "LLM generation failed: connection refused")] sample_cv
  = ([],
     ret (fallback_profile sample_cv
            (py "LLM JSON generation failed: LLM generation failed: connection refused"))).
Proof.
  assert (Hlen : 50 <= length (strip sample_cv)) by (vm_compute; lia).
  destruct (parse_text_falls_back _ scripted_generator loads_empty_object
              prompt_is_text rejects_all
              [inl (py "LLM generation failed: connection refused")]
              sample_cv Hlen) as (_ & Hgen & _).
  apply (Hgen [] [mk_call (sample_cv ++ json_instruction) 0.2%float 3000
                    (inl (py "LLM generation failed: connection refused"))]
              (Exn Exception
                 (py "LLM JSON generation failed: LLM generation failed: connection refused"))).
  vm_compute. reflexivity.
Defined.

(** C7, as the claim states it, fails: on an empty text, and on a text of
    fewer than 50 characters, [parse_text] raises to its caller, before any
    generation. *)
Lemma parse_text_raises_on_short_text :
  parse_text scripted_generator loads_empty_object prompt_is_text rejects_all
    [inr (py "{}")] (py "")
  = ([inr (py "{}")], raise ValueError "CV text is too short or empty")
  /\ parse_text scripted_generator loads_empty_object prompt_is_text
       rejects_all [inr (py "{}")] (py "Jane Doe, engineer. Python, Docker.")
     = ([inr (py "{}")], raise ValueError "CV text is too short or empty").
Proof. split; vm_compute; reflexivity. Qed.

(** A validation failure gives the fallback profile too. *)
Example parse_text_validation_failure :
  parse_text scripted_generator loads_empty_object prompt_is_text rejects_all
    [inr (py "{}")] sample_cv
  = ([], ret (fallback_profile sample_cv (py "1 validation error for CVProfile"))).
Proof. vm_compute. reflexivity. Qed.

(** * What the matcher finds *)

Import ReLang.

Section MatcherLanguage.

Variables (ignorecase multiline : bool).

Lemma rmatch_star r1 prev s k :
  rmatch ignorecase multiline (Star r1) prev s k
  = star_loop ignorecase multiline r1 k (length s) prev s.
Proof. reflexivity. Qed.

Lemma rmatch_seq r1 r2 prev s k :
  rmatch ignorecase multiline (Seq r1 r2) prev s k
  = rmatch ignorecase multiline r1 prev s
      (fun p' s' => rmatch ignorecase multiline r2 p' s' k).
Proof. reflexivity. Qed.

Lemma rmatch_alt r1 r2 prev s k :
  rmatch ignorecase multiline (Alt r1 r2) prev s k
  = match rmatch ignorecase multiline r1 prev s k with
    | Some rest => Some rest
    | None => rmatch ignorecase multiline r2 prev s k
    end.
Proof. reflexivity. Qed.

Lemma rmatch_class items prev c s k :
  rmatch ignorecase multiline (Class items) prev (c :: s) k
  = if class_match ignorecase items c then k (Some c) s else None.
Proof. reflexivity. Qed.

Lemma rmatch_chr x prev c s k :
  rmatch ignorecase multiline (Chr x) prev (c :: s) k
  = if chr_match ignorecase x c then k (Some c) s else None.
Proof. reflexivity. Qed.

Lemma rmatch_bol prev s k :
  rmatch ignorecase multiline Bol prev s k
  = if at_bol multiline prev then k prev s else None.
Proof. reflexivity. Qed.

Lemma rmatch_eps prev s k :
  rmatch ignorecase multiline Eps prev s k = k prev s.
Proof. reflexivity. Qed.

(** A repetition always matches when what follows it does. *)
Lemma star_loop_total r1 k :
  (forall p s, k p s <> None) ->
  forall n prev s, star_loop ignorecase multiline r1 k n prev s <> None.
Proof.
  intros Hk n prev s. destruct n; cbn [star_loop]; [apply Hk |].
  match goal with
  | |- match ?x with _ => _ end <> _ => destruct x
  end; [discriminate | apply Hk].
Qed.

Lemma char_before_cons prev c u :
  char_before prev (c :: u) = char_before (Some c) u.
Proof. unfold char_before. cbn [rev]. destruct (rev u); reflexivity. Qed.

Lemma chr_match_refl x : chr_match ignorecase x x = true.
Proof. unfold chr_match. now rewrite N.eqb_refl. Qed.

(** A literal text matches itself and goes on with what follows. *)
Lemma rmatch_lit w : forall prev s k,
  rmatch ignorecase multiline (Lit w) prev (w ++ s) k
  = k (char_before prev w) s.
Proof.
  induction w as [| c w IH]; intros prev s k; [reflexivity |].
  destruct w as [| c' w'].
  - cbn [Lit app]. now rewrite rmatch_chr, chr_match_refl.
  - change (Lit (c :: c' :: w')) with (Seq (Chr c) (Lit (c' :: w'))).
    rewrite rmatch_seq. change ((c :: c' :: w') ++ s) with (c :: (c' :: w') ++ s).
    rewrite rmatch_chr, chr_match_refl. cbv beta. rewrite IH.
    now rewrite (char_before_cons prev c (c' :: w')).
Qed.

(** A literal matches a text that its characters match one by one. *)
Lemma rmatch_lit_chars kw : forall w prev s k,
  Forall2 (fun x c => chr_match ignorecase x c = true) kw w ->
  rmatch ignorecase multiline (Lit kw) prev (w ++ s) k
  = k (char_before prev w) s.
Proof.
  induction kw as [| x kw IH]; intros w prev s k H.
  - inversion H; subst. reflexivity.
  - inversion H as [| x' c kw' w' Hc Hrest]; subst.
    destruct kw as [| x2 kw2].
    + inversion Hrest; subst. cbn [Lit app].
      now rewrite rmatch_chr, Hc.
    + change (Lit (x :: x2 :: kw2)) with (Seq (Chr x) (Lit (x2 :: kw2))).
      rewrite rmatch_seq. change ((c :: w') ++ s) with (c :: w' ++ s).
      rewrite rmatch_chr, Hc. cbv beta. rewrite (IH w' _ s k Hrest).
      inversion Hrest; subst.
      now rewrite (char_before_cons prev c (y :: l')).
Qed.

Lemma rmatch_alt_total r1 r2 prev s k :
  rmatch ignorecase multiline r1 prev s k <> None
  \/ rmatch ignorecase multiline r2 prev s k <> None ->
  rmatch ignorecase multiline (Alt r1 r2) prev s k <> None.
Proof.
  intros H. rewrite rmatch_alt.
  destruct (rmatch ignorecase multiline r1 prev s k); [discriminate |].
  destruct H as [H | H]; [congruence | exact H].
Qed.

Lemma rmatch_class_total items prev c s k :
  class_match ignorecase items c = true -> k (Some c) s <> None ->
  rmatch ignorecase multiline (Class items) prev (c :: s) k <> None.
Proof. intros Hc Hk. now rewrite rmatch_class, Hc. Qed.

Lemma rmatch_star_total r1 prev s k :
  (forall p s', k p s' <> None) ->
  rmatch ignorecase multiline (Star r1) prev s k <> None.
Proof. intros Hk. rewrite rmatch_star. now apply star_loop_total. Qed.

(** A successful match consumed a text of the language of the pattern. *)
Lemma rmatch_sound r : forall prev s k res,
  rmatch ignorecase multiline r prev s k = Some res ->
  exists m s' p',
    s = m ++ s' /\ lang ignorecase r m /\ k p' s' = Some res.
Proof.
  induction r as [| x | items | r1 IH1 r2 IH2 | r1 IH1 r2 IH2 | r1 IH1 | |];
    intros prev s k res H.
  - exists [], s, prev. repeat split; [constructor | exact H].
  - simpl in H. destruct s as [| c s']; [discriminate |].
    destruct (chr_match ignorecase x c) eqn:E; [| discriminate].
    exists [c], s', (Some c). repeat split; [now constructor | exact H].
  - simpl in H. destruct s as [| c s']; [discriminate |].
    destruct (class_match ignorecase items c) eqn:E; [| discriminate].
    exists [c], s', (Some c). repeat split; [now constructor | exact H].
  - simpl in H.
    destruct (IH1 _ _ _ _ H) as (m1 & s1 & p1 & -> & L1 & H1).
    destruct (IH2 _ _ _ _ H1) as (m2 & s2 & p2 & -> & L2 & H2).
    exists (m1 ++ m2), s2, p2. repeat split;
      [now rewrite app_assoc | now constructor | exact H2].
  - simpl in H.
    destruct (rmatch ignorecase multiline r1 prev s k) as [rest |] eqn:E1.
    + injection H as <-.
      destruct (IH1 _ _ _ _ E1) as (m1 & s1 & p1 & -> & L1 & H1).
      exists m1, s1, p1. repeat split; [now apply lang_alt_l | exact H1].
    + destruct (IH2 _ _ _ _ H) as (m2 & s2 & p2 & -> & L2 & H2).
      exists m2, s2, p2. repeat split; [now apply lang_alt_r | exact H2].
  - rewrite rmatch_star in H. revert H. generalize (length s). intros n.
    revert prev s. induction n as [| n IHn]; intros prev s H; cbn [star_loop] in H.
    + exists [], s, prev. repeat split; [constructor | exact H].
    + match type of H with
      | match ?x with _ => _ end = _ => destruct x as [rest |] eqn:E1
      end.
      * injection H as <-.
        destruct (IH1 _ _ _ _ E1) as (m1 & s1 & p1 & -> & L1 & H1).
        destruct (length s1 <? length (m1 ++ s1)); [| discriminate].
        destruct (IHn _ _ H1) as (m2 & s2 & p2 & -> & L2 & H2).
        exists (m1 ++ m2), s2, p2. repeat split;
          [now rewrite app_assoc | now constructor | exact H2].
      * exists [], s, prev. repeat split; [constructor | exact H].
  - simpl in H. destruct (at_bol multiline prev); [| discriminate].
    exists [], s, prev. repeat split; [constructor | exact H].
  - simpl in H. destruct (at_wordb prev s); [| discriminate].
    exists [], s, prev. repeat split; [constructor | exact H].
Qed.

Lemma match_here_sound r prev s rest :
  match_here ignorecase multiline r prev s = Some rest ->
  exists m, s = m ++ rest /\ lang ignorecase r m.
Proof.
  intros H. destruct (rmatch_sound r _ _ _ _ H) as (m & s' & p' & -> & L & Hk).
  injection Hk as ->. now exists m.
Qed.

(** What [search] returns is a part of the text, in the language of the
    pattern. *)
Lemma search_from_sound r : forall s prev m rest,
  search_from ignorecase multiline r prev s = Some (m, rest) ->
  lang ignorecase r m /\ exists u, s = u ++ m ++ rest.
Proof.
  induction s as [| c s IH]; intros prev m rest H;
    rewrite search_from_unfold in H;
    match type of H with
    | match ?x with _ => _ end = _ => destruct x as [rest0 |] eqn:E
    end; try discriminate.
  - destruct (match_here_sound r _ _ _ E) as (m0 & Hs & L).
    injection H as <- <-.
    assert (m0 = []) by (destruct m0; [reflexivity | discriminate]). subst m0.
    simpl in Hs. subst rest0. split; [exact L | now exists []].
  - destruct (match_here_sound r _ _ _ E) as (m0 & Hs & L).
    rewrite Hs, length_app in H.
    replace (length m0 + length rest0 - length rest0) with (length m0) in H
      by lia.
    rewrite firstn_exact in H. injection H as <- <-.
    split; [exact L | now exists []].
  - destruct (IH _ _ _ H) as (L & u & ->). split; [exact L |].
    now exists (c :: u).
Qed.

Lemma forallb_same {A : Type} (f g : A -> bool) (l : list A) :
  (forall a, f a = g a) -> forallb f l = forallb g l.
Proof.
  intros H. induction l as [| a l IH]; [reflexivity |].
  cbn [forallb]. now rewrite H, IH.
Qed.

(** [search] returns a match of the pattern at the place where it found
    it. *)
Lemma search_from_position r : forall s prev m rest,
  search_from ignorecase multiline r prev s = Some (m, rest) ->
  exists u, s = u ++ m ++ rest
    /\ match_here ignorecase multiline r (char_before prev u) (m ++ rest)
       = Some rest.
Proof.
  induction s as [| c s IH]; intros prev m rest H;
    rewrite search_from_unfold in H;
    match type of H with
    | match ?x with _ => _ end = _ => destruct x as [rest0 |] eqn:E
    end; try discriminate.
  - destruct (match_here_sound r _ _ _ E) as (m0 & Hs & L).
    injection H as <- <-.
    assert (m0 = []) by (destruct m0; [reflexivity | discriminate]). subst m0.
    simpl in Hs. subst rest0. exists []. split; [reflexivity | exact E].
  - destruct (match_here_sound r _ _ _ E) as (m0 & Hs & L).
    rewrite Hs, length_app in H.
    replace (length m0 + length rest0 - length rest0) with (length m0) in H
      by lia.
    rewrite firstn_exact in H. injection H as <- <-.
    exists []. split; [exact Hs | now rewrite <- Hs].
  - destruct (IH _ _ _ H) as (u & -> & Hm).
    exists (c :: u). split; [reflexivity |].
    now rewrite char_before_cons.
Qed.

(** A text of the language of a repeated class is made of characters of
    the class. *)
Lemma lang_star_class items m :
  lang ignorecase (Star (Class items)) m ->
  forallb (class_match ignorecase items) m = true.
Proof.
  intros H. remember (Star (Class items)) as r eqn:Hr.
  induction H as [| | | | | | | r0 m1 m2 H1 _ H2 IH2 | |]; try discriminate.
  - reflexivity.
  - injection Hr as ->. inversion H1 as [| | its c Hc | | | | | | |]; subst.
    cbn [app forallb]. rewrite Hc. now apply IH2.
Qed.

Lemma lang_seq_inv r1 r2 m :
  lang ignorecase (Seq r1 r2) m ->
  exists m1 m2, m = m1 ++ m2 /\ lang ignorecase r1 m1 /\ lang ignorecase r2 m2.
Proof.
  intros H. inversion H as [| | | r1' r2' m1 m2 H1 H2 | | | | | |]; subst.
  now exists m1, m2.
Qed.

Lemma lang_class_inv items m :
  lang ignorecase (Class items) m ->
  exists c, m = [c] /\ class_match ignorecase items c = true.
Proof.
  intros H. inversion H as [| | its c Hc | | | | | | |]; subst. now exists c.
Qed.

Lemma lang_chr_inv x m :
  lang ignorecase (Chr x) m ->
  exists c, m = [c] /\ chr_match ignorecase x c = true.
Proof.
  intros H. inversion H as [| x' c Hc | | | | | | | |]; subst. now exists c.
Qed.

Lemma lang_wordb_inv m : lang ignorecase WordB m -> m = [].
Proof. intros H. now inversion H. Qed.

(** A text of the language of [[...]+] is not empty and made of characters
    of the class. *)
Lemma lang_plus_class_all items m :
  lang ignorecase (Plus (Class items)) m ->
  m <> [] /\ forallb (class_match ignorecase items) m = true.
Proof.
  intros H. apply lang_seq_inv in H as (m1 & m2 & -> & H1 & H2).
  apply lang_class_inv in H1 as (c & -> & Hc).
  apply lang_star_class in H2. split; [discriminate |].
  cbn [app forallb]. now rewrite Hc, H2.
Qed.

(** The first match [findall] lists is the one [search] finds. *)
Lemma findall_head r s m ms :
  findall ignorecase multiline r s = m :: ms ->
  exists rest, search_from ignorecase multiline r None s = Some (m, rest).
Proof.
  unfold findall. cbn [findall_from]. intros H.
  destruct (search_from ignorecase multiline r None s) as [[m0 rest] |];
    [| discriminate].
  injection H as <- _. now exists rest.
Qed.

(** When the pattern matches at some place of the text, [search] finds a
    match. *)
Lemma search_from_complete r u : forall prev s,
  match_here ignorecase multiline r (char_before prev u) s <> None ->
  search_from ignorecase multiline r prev (u ++ s) <> None.
Proof.
  induction u as [| c u IH]; intros prev s H; rewrite search_from_unfold.
  - change (char_before prev []) with prev in H. cbn [app].
    destruct (match_here ignorecase multiline r prev s);
      [discriminate | congruence].
  - destruct (match_here ignorecase multiline r prev ((c :: u) ++ s));
      [discriminate |].
    cbn [app]. apply IH.
    replace (char_before (Some c) u) with (char_before prev (c :: u)); [exact H |].
    unfold char_before. cbn [rev].
    destruct (rev u); reflexivity.
Qed.

(** A repetition of a character class runs over the characters of the
    class and then tries what follows. *)
Lemma star_class_runs items ws : forall k rest prev n,
  (forall c, In c ws -> class_match ignorecase items c = true) ->
  length (ws ++ rest) <= n ->
  k (char_before prev ws) rest <> None ->
  star_loop ignorecase multiline (Class items) k n prev (ws ++ rest) <> None.
Proof.
  induction ws as [| c ws IH]; intros k rest prev n Hws Hn Hk.
  - simpl in *. destruct n; cbn [star_loop]; [exact Hk |].
    match goal with
    | |- match ?x with _ => _ end <> _ => destruct x
    end; [discriminate | exact Hk].
  - destruct n as [| n]; [simpl in Hn; lia |].
    cbn [star_loop app rmatch].
    rewrite (Hws c (or_introl eq_refl)).
    replace (length (ws ++ rest) <? length (c :: ws ++ rest)) with true
      by (symmetry; apply Nat.ltb_lt; simpl; lia).
    assert (Hrec : star_loop ignorecase multiline (Class items) k n (Some c)
                     (ws ++ rest) <> None).
    { apply IH.
      - intros c' Hc'. apply Hws. now right.
      - simpl in Hn. lia.
      - replace (char_before (Some c) ws) with (char_before prev (c :: ws));
          [exact Hk |].
        unfold char_before. cbn [rev]. destruct (rev ws); reflexivity. }
    destruct (star_loop ignorecase multiline (Class items) k n (Some c)
                (ws ++ rest)); [discriminate | congruence].
Qed.

Lemma star_loop_stops items k n prev rest :
  stops ignorecase items rest ->
  star_loop ignorecase multiline (Class items) k n prev rest = k prev rest.
Proof.
  intros Hstop. destruct n; [reflexivity |]. cbn [star_loop].
  destruct rest as [| c rest]; [reflexivity |].
  rewrite rmatch_class. cbn [stops] in Hstop. now rewrite Hstop.
Qed.

(** A greedy repetition of a class takes all the characters of the class
    when what follows matches after them. *)
Lemma star_class_greedy items ws : forall k rest prev n r,
  (forall c, In c ws -> class_match ignorecase items c = true) ->
  length (ws ++ rest) <= n ->
  stops ignorecase items rest ->
  k (char_before prev ws) rest = Some r ->
  star_loop ignorecase multiline (Class items) k n prev (ws ++ rest) = Some r.
Proof.
  induction ws as [| c ws IH]; intros k rest prev n r Hws Hn Hstop Hk.
  - cbn [app]. now rewrite star_loop_stops.
  - destruct n as [| n]; [simpl in Hn; lia |].
    cbn [star_loop app]. rewrite rmatch_class, (Hws c (or_introl eq_refl)).
    replace (length (ws ++ rest) <? length (c :: ws ++ rest)) with true
      by (symmetry; apply Nat.ltb_lt; simpl; lia).
    rewrite (IH k rest (Some c) n r); [reflexivity | | | exact Hstop |].
    + intros c' Hc'. apply Hws. now right.
    + simpl in Hn. lia.
    + now rewrite <- (char_before_cons prev c ws).
Qed.

(** When what follows fails after every non-empty run of the characters
    [back], the repetition leaves them all. *)
Lemma star_class_gives_back items back : forall k rest prev n,
  (forall b1 b2, back = b1 ++ b2 -> b1 <> [] ->
     k (char_before prev b1) (b2 ++ rest) = None) ->
  stops ignorecase items rest ->
  star_loop ignorecase multiline (Class items) k n prev (back ++ rest)
  = k prev (back ++ rest).
Proof.
  induction back as [| c back IH]; intros k rest prev n Hfail Hstop.
  - cbn [app]. now apply star_loop_stops.
  - destruct n as [| n]; [reflexivity |].
    cbn [star_loop app]. rewrite rmatch_class.
    destruct (class_match ignorecase items c); [| reflexivity].
    destruct (length (back ++ rest) <? length (c :: back ++ rest));
      [| reflexivity].
    rewrite IH; [| | exact Hstop].
    + pose proof (Hfail [c] back eq_refl ltac:(discriminate)) as H0.
      change (char_before prev [c]) with (Some c) in H0. now rewrite H0.
    + intros b1 b2 -> Hne. rewrite <- (char_before_cons prev c b1).
      now apply (Hfail (c :: b1) b2).
Qed.

(** The repetition backs up to the longest run after which what follows
    matches. *)
Lemma star_class_backtracks items ws : forall back k rest prev n r,
  (forall c, In c ws -> class_match ignorecase items c = true) ->
  length (ws ++ back ++ rest) <= n ->
  stops ignorecase items rest ->
  (forall b1 b2, back = b1 ++ b2 -> b1 <> [] ->
     k (char_before prev (ws ++ b1)) (b2 ++ rest) = None) ->
  k (char_before prev ws) (back ++ rest) = Some r ->
  star_loop ignorecase multiline (Class items) k n prev (ws ++ back ++ rest)
  = Some r.
Proof.
  induction ws as [| c ws IH]; intros back k rest prev n r Hws Hn Hstop Hfail Hk.
  - cbn [app]. rewrite star_class_gives_back; [exact Hk | | exact Hstop].
    intros b1 b2 Hb Hne. exact (Hfail b1 b2 Hb Hne).
  - destruct n as [| n]; [simpl in Hn; lia |].
    cbn [star_loop app]. rewrite rmatch_class, (Hws c (or_introl eq_refl)).
    replace (length (ws ++ back ++ rest) <? length (c :: ws ++ back ++ rest))
      with true by (symmetry; apply Nat.ltb_lt; simpl; lia).
    rewrite (IH back k rest (Some c) n r); [reflexivity | | | exact Hstop | |].
    + intros c' Hc'. apply Hws. now right.
    + simpl in Hn. lia.
    + intros b1 b2 Hb Hne. rewrite <- (char_before_cons prev c (ws ++ b1)).
      exact (Hfail b1 b2 Hb Hne).
    + now rewrite <- (char_before_cons prev c ws).
Qed.

Lemma rmatch_wordb prev s k :
  rmatch ignorecase multiline WordB prev s k
  = if at_wordb prev s then k prev s else None.
Proof. reflexivity. Qed.

End MatcherLanguage.

(** * More facts about the quality checks *)

Import ValidatorSets.

Section IssueFacts.

(** X1: the issue list has one entry for each check that failed: its length
    and the number of true checks add up to seven.  A draft that passes has
    at most two issues and a draft without issues scores 100. *)
Theorem validate_draft_issue_count draft :
  let q := validate_draft draft in
  length (issues q) + sum_bools (checks_of q) = 7
  /\ (passed q = true -> length (issues q) <= 2)
  /\ (issues q = [] -> score q = 100%float).
Proof.
  unfold validate_draft. cbv zeta.
  generalize (_check_has_metric (subject draft ++ py " " ++ body draft)),
    (_check_has_link (subject draft ++ py " " ++ body draft)),
    (_check_company_hook draft),
    (_check_has_cta (subject draft ++ py " " ++ body draft)),
    (_check_word_limit (body draft) 180),
    (_check_no_emojis (subject draft ++ py " " ++ body draft)),
    (_check_no_bullets (body draft)).
  intros m l h c w e b.
  destruct m, l, h, c, w, e, b;
    (split; [reflexivity |]); (split; [| intros H; try discriminate H; reflexivity]);
    intros H; try (vm_compute in H; discriminate H); cbn; lia.
Qed.

End IssueFacts.

(** Replace the code points of character literals by their values. *)
Ltac eval_chars :=
  repeat match goal with
    | |- context [ch ?a] =>
        let v := eval vm_compute in (ch a) in change (ch a) with v
    | H : context [ch ?a] |- _ =>
        let v := eval vm_compute in (ch a) in change (ch a) with v in H
    end.

(** Turn comparisons of code points into arithmetic. *)
Ltac bools_to_props :=
  unfold in_range in *;
  rewrite ?orb_true_iff, ?andb_true_iff, ?N.leb_le, ?N.eqb_eq in *.

Lemma chr_match_plain x c : chr_match false x c = true -> c = x.
Proof.
  unfold chr_match. simpl. rewrite orb_false_r. apply N.eqb_eq.
Qed.

(** Invert a language hypothesis on a pattern without repetition. *)
Ltac inv_lang :=
  repeat match goal with
    | H : lang _ (Seq _ _) _ |- _ => inversion H; subst; clear H
    | H : lang _ (Alt _ _) _ |- _ => inversion H; subst; clear H
    | H : lang _ (Chr _) _ |- _ => inversion H; subst; clear H
    | H : lang _ (Class _) _ |- _ => inversion H; subst; clear H
    | H : lang _ Eps _ |- _ => inversion H; subst; clear H
    | H : chr_match false _ _ = true |- _ => apply chr_match_plain in H; subst
    end.

Section PatternFacts.

Lemma class_match_plain items c : class_match false items c = class_mem items c.
Proof. unfold class_match. simpl. now rewrite orb_false_r. Qed.

Lemma found_search_complete ignorecase multiline r u s :
  match_here ignorecase multiline r (char_before None u) s <> None ->
  found (search ignorecase multiline r (u ++ s)) = true.
Proof.
  intros H. unfold search.
  pose proof (search_from_complete ignorecase multiline r u None s H) as Hs.
  destruct (search_from ignorecase multiline r None (u ++ s));
    [reflexivity | congruence].
Qed.

Lemma found_search_sound ignorecase multiline r s :
  found (search ignorecase multiline r s) = true ->
  exists u m rest, s = u ++ m ++ rest /\ lang ignorecase r m.
Proof.
  unfold search. destruct (search_from ignorecase multiline r None s)
    as [[m rest] |] eqn:E; [| discriminate].
  intros _. destruct (search_from_sound ignorecase multiline r s None m rest E)
    as (L & u & ->).
  now exists u, m, rest.
Qed.

(** What is in the language of a repeated class begins with a character of
    the class. *)
Lemma lang_plus_class ignorecase items m :
  lang ignorecase (Plus (Class items)) m ->
  exists c m', m = c :: m' /\ class_match ignorecase items c = true.
Proof.
  intros H. inversion H as [| | | r1 r2 m1 m2 H1 H2 | | | | | |]; subst.
  inversion H1; subst. now exists c, m2.
Qed.

Lemma emoji_class c :
  class_mem [CRange 0x1f600 0x1f64f; CRange 0x1f300 0x1f5ff;
             CRange 0x1f680 0x1f6ff; CRange 0x1f1e0 0x1f1ff;
             CRange 0x2702 0x27b0; CRange 0x24c2 0x1f251;
             CRange 0x1f900 0x1f9ff] c
  = emoji_char c.
Proof.
  unfold emoji_char, class_mem. cbn [existsb item_mem].
  rewrite orb_false_r, !orb_assoc. reflexivity.
Qed.

(** Where the emoji pattern is found. *)
Lemma emoji_search text :
  found (search false false emoji_pattern text) = existsb emoji_char text.
Proof.
  destruct (existsb emoji_char text) eqn:E.
  - apply existsb_exists in E as (c & Hin & Hc).
    destruct (in_split c text Hin) as (u & v & ->).
    apply found_search_complete.
    unfold match_here, emoji_pattern, Plus.
    rewrite rmatch_seq, rmatch_class, class_match_plain, emoji_class, Hc,
      rmatch_star.
    apply star_loop_total. discriminate.
  - destruct (found (search false false emoji_pattern text)) eqn:F;
      [| reflexivity].
    destruct (found_search_sound _ _ _ _ F) as (u & m & rest & -> & L).
    destruct (lang_plus_class _ _ _ L) as (c & m' & -> & Hc).
    rewrite class_match_plain, emoji_class in Hc.
    assert (Hex : existsb emoji_char (u ++ (c :: m') ++ rest) = true).
    { apply existsb_exists. exists c. split; [| exact Hc].
      apply in_or_app. right. now left. }
    congruence.
Qed.

(** X2: the emoji check passes exactly when no character of the text lies
    in one of the seven ranges of the pattern. *)
Theorem check_no_emojis_spec text :
  _check_no_emojis text = negb (existsb emoji_char text).
Proof.
  unfold _check_no_emojis. f_equal. apply emoji_search.
Qed.

Lemma findall_found ignorecase multiline r s :
  (0 <? length (findall ignorecase multiline r s))
  = found (search ignorecase multiline r s).
Proof.
  unfold findall, search. cbn [findall_from].
  destruct (search_from ignorecase multiline r None s) as [[m rest] |];
    reflexivity.
Qed.

(** The characters with which the address of a link can begin, by the
    classes of the pattern. *)
Lemma url_char_classes c :
  url_char c
  = (class_mem [CRange (ch "a") (ch "z"); CRange (ch "A") (ch "Z")] c
     || class_mem [CRange (ch "0") (ch "9")] c
     || class_mem [CRange (ch "$") (ch "_"); CChar (ch "@"); CChar (ch ".");
                   CChar (ch "&"); CChar (ch "+")] c
     || class_mem [CChar (ch "!"); CChar (ch "*"); CChar (ch "\");
                   CChar (ch "("); CChar (ch "\"); CChar (ch ")");
                   CChar (ch ",")] c)%bool.
Proof.
  unfold url_char, class_mem. cbn [existsb item_mem]. eval_chars.
  apply eq_true_iff_eq. bools_to_props. lia.
Qed.

Lemma class_mem_single x c : class_mem [CChar x] c = true -> c = x.
Proof.
  unfold class_mem. cbn [existsb item_mem]. rewrite orb_false_r.
  apply N.eqb_eq.
Qed.

(** What the link pattern can match: [http://] or [https://] and then a
    character of an address. *)
Lemma lang_url_pattern m :
  lang false url_pattern m ->
  exists c m',
    (m = py "http://" ++ c :: m' \/ m = py "https://" ++ c :: m')
    /\ url_char c = true.
Proof.
  intros H. unfold url_pattern in H. cbn in H. unfold Opt, Plus in H.
  inv_lang;
    match goal with
    | H : lang _ (Star _) ?t |- _ => clear H; generalize t; intros tail
    end;
    repeat match goal with
      | H : class_match false _ _ = true |- _ =>
          rewrite class_match_plain in H
      end;
    repeat match goal with
      | H : class_mem [CChar _] _ = true |- _ =>
          apply class_mem_single in H; subst
      end;
    eexists _, _;
    (split; [first [left; cbn; reflexivity | right; cbn; reflexivity] |]);
    rewrite url_char_classes; eval_chars;
    repeat match goal with
      | H : class_mem _ _ = true |- _ => rewrite H
      end;
    rewrite ?orb_true_r; try reflexivity.
Qed.

(** The link pattern matches wherever an address begins. *)
Lemma url_pattern_matches prev opt c rest :
  opt = [] \/ opt = py "s" ->
  url_char c = true ->
  match_here false false url_pattern prev
    (py "http" ++ opt ++ py "://" ++ c :: rest) <> None.
Proof.
  intros Hopt Hc. unfold match_here, url_pattern.
  cbn [Seqs]. unfold L. rewrite rmatch_seq, rmatch_lit, rmatch_seq.
  assert (Htail : forall p,
    rmatch false false
      (Seq (Lit (py "://"))
         (Plus
            (Alts
               [Class [CRange (ch "a") (ch "z"); CRange (ch "A") (ch "Z")];
                Class [CRange (ch "0") (ch "9")];
                Class [CRange (ch "$") (ch "_"); CChar (ch "@");
                       CChar (ch "."); CChar (ch "&"); CChar (ch "+")];
                Class [CChar (ch "!"); CChar (ch "*"); CChar (ch "\");
                       CChar (ch "("); CChar (ch "\"); CChar (ch ")");
                       CChar (ch ",")];
                Seq (Chr (ch "%")) (Seq hexdigit hexdigit)])))
      p (py "://" ++ c :: rest) (fun _ r => Some r) <> None).
  { intros p. rewrite rmatch_seq, rmatch_lit. unfold Plus.
    rewrite rmatch_seq. cbn [Alts].
    assert (Hk : forall i, class_mem i c = true ->
      rmatch false false (Class i) (char_before p (py "://")) (c :: rest)
        (fun p' s' => rmatch false false
           (Star
              (Alt (Class [CRange (ch "a") (ch "z"); CRange (ch "A") (ch "Z")])
                 (Alt (Class [CRange (ch "0") (ch "9")])
                    (Alt
                       (Class [CRange (ch "$") (ch "_"); CChar (ch "@");
                               CChar (ch "."); CChar (ch "&"); CChar (ch "+")])
                       (Alt
                          (Class [CChar (ch "!"); CChar (ch "*");
                                  CChar (ch "\"); CChar (ch "(");
                                  CChar (ch "\"); CChar (ch ")");
                                  CChar (ch ",")])
                          (Seq (Chr (ch "%")) (Seq hexdigit hexdigit)))))))
           p' s' (fun _ r => Some r)) <> None).
    { intros i Hi. apply rmatch_class_total.
      - now rewrite class_match_plain.
      - apply rmatch_star_total. discriminate. }
    rewrite url_char_classes in Hc.
    apply orb_true_iff in Hc as [Hc | Hc];
      [apply orb_true_iff in Hc as [Hc | Hc];
       [apply orb_true_iff in Hc as [Hc | Hc] |] |].
    - apply rmatch_alt_total. left. now apply Hk.
    - apply rmatch_alt_total. right. apply rmatch_alt_total. left.
      now apply Hk.
    - apply rmatch_alt_total. right. apply rmatch_alt_total. right.
      apply rmatch_alt_total. left. now apply Hk.
    - apply rmatch_alt_total. right. apply rmatch_alt_total. right.
      apply rmatch_alt_total. right. apply rmatch_alt_total. left.
      now apply Hk. }
  destruct Hopt as [-> | ->].
  - cbn [app]. apply rmatch_alt_total. right. rewrite rmatch_eps.
    apply Htail.
  - apply rmatch_alt_total. left. apply rmatch_class_total; [reflexivity |].
    apply Htail.
Qed.

(** X3: the link check passes exactly when the text holds [http://] or
    [https://] followed by a character of an address: a letter, a digit, a
    character from [$] to [_] or an exclamation mark.  An address without
    the scheme, such as [github.com/me], is no link. *)
Theorem check_has_link_spec text :
  _check_has_link text = true
  <-> exists u c rest,
        (text = u ++ py "http://" ++ c :: rest
         \/ text = u ++ py "https://" ++ c :: rest)
        /\ url_char c = true.
Proof.
  unfold _check_has_link. rewrite findall_found. split.
  - intros H. apply found_search_sound in H as (u & m & rest & -> & L).
    apply lang_url_pattern in L as (c & m' & Hm & Hc).
    exists u, c, (m' ++ rest). split; [| exact Hc].
    destruct Hm as [-> | ->]; [left | right];
      now rewrite <- !app_assoc, <- app_comm_cons.
  - intros (u & c & rest & [-> | ->] & Hc); apply found_search_complete.
    + apply (url_pattern_matches _ [] c rest); [now left | exact Hc].
    + apply (url_pattern_matches _ (py "s") c rest); [now right | exact Hc].
Qed.

Lemma space_class c : class_match false [CSpace] c = isspace c.
Proof.
  rewrite class_match_plain. unfold class_mem. cbn [existsb item_mem].
  apply orb_false_r.
Qed.

Lemma bullet_class c :
  class_match false
    [CChar (ch "-"); CChar 0x2022; CChar (ch "*"); CChar 0x2192] c
  = bullet_char c.
Proof.
  rewrite class_match_plain. unfold class_mem, bullet_char.
  cbn [existsb item_mem]. now rewrite orb_false_r, !orb_assoc.
Qed.

Lemma at_bol_line_start u :
  at_bol true (char_before None u) = line_start u.
Proof.
  unfold char_before, line_start. destruct (rev u); reflexivity.
Qed.

(** What the bullet patterns match after the start of the line: white
    space, a bullet, and white space again. *)
Lemma lang_bullet_line m :
  lang false (Seqs [Star space; bullet; Plus space]) m ->
  exists ws b w ws',
    m = ws ++ b :: w :: ws' /\ forallb isspace ws = true
    /\ bullet_char b = true /\ isspace w = true.
Proof.
  cbn [Seqs]. unfold space, bullet. intros H.
  inversion H as [| | | r1 r2 m1 m2 H1 H2 | | | | | |]; subst.
  inversion H2 as [| | | r1 r2 m3 m4 H3 H4 | | | | | |]; subst.
  inversion H3 as [| | its b Hb | | | | | | |]; subst.
  apply lang_plus_class in H4 as (w & ws' & -> & Hw).
  apply lang_star_class in H1.
  exists m1, b, w, ws'. repeat split.
  - rewrite <- H1. apply forallb_same. intros c. now rewrite space_class.
  - now rewrite <- bullet_class.
  - now rewrite <- space_class.
Qed.

(** The bullet pattern matches at the start of a line that begins with a
    bullet. *)
Lemma bullet_line_matches u ws b w rest :
  line_start u = true -> forallb isspace ws = true ->
  bullet_char b = true -> isspace w = true ->
  match_here false true (Seqs [Bol; Star space; bullet; Plus space])
    (char_before None u) (ws ++ b :: w :: rest) <> None.
Proof.
  intros Hu Hws Hb Hw. unfold match_here. cbn [Seqs].
  rewrite rmatch_seq, rmatch_bol, at_bol_line_start, Hu, rmatch_seq.
  unfold space at 1. rewrite rmatch_star. apply star_class_runs.
  - intros c Hc. rewrite space_class.
    now apply (proj1 (forallb_forall isspace ws) Hws).
  - apply le_n.
  - rewrite rmatch_seq. unfold bullet.
    rewrite rmatch_class, bullet_class, Hb. unfold Plus, space.
    rewrite rmatch_seq, rmatch_class, space_class, Hw.
    apply rmatch_star_total. discriminate.
Qed.

(** X4: the bullet check fails exactly when some line of the body begins,
    after optional white space, with a dash, a bullet (U+2022), a star or
    an arrow (U+2192) that white space follows.  A dash inside a line, or
    one with no space after it, is no bullet. *)
Theorem check_no_bullets_spec body :
  _check_no_bullets body = false
  <-> exists u ws b w rest,
        body = u ++ ws ++ b :: w :: rest
        /\ line_start u = true /\ forallb isspace ws = true
        /\ bullet_char b = true /\ isspace w = true.
Proof.
  unfold _check_no_bullets, bullet_patterns. cbn [existsb].
  rewrite orb_false_r, negb_false_iff, orb_true_iff. split.
  - intros [H | H].
    + unfold search in H.
      destruct (search_from false true
                  (Seqs [Bol; Star space; bullet; Plus space]) None body)
        as [[m rest] |] eqn:E; [| discriminate].
      apply search_from_position in E as (u & -> & Hm).
      unfold match_here in Hm. cbn [Seqs] in Hm. rewrite rmatch_seq in Hm.
      rewrite rmatch_bol, at_bol_line_start in Hm.
      destruct (line_start u) eqn:Hu; [| discriminate].
      apply (match_here_sound false true
               (Seqs [Star space; bullet; Plus space])) in Hm
        as (m0 & Hs & L).
      apply app_inv_tail in Hs. subst m0.
      apply lang_bullet_line in L as (ws & b & w & ws' & -> & Hws & Hb & Hw).
      exists u, ws, b, w, (ws' ++ rest). repeat split; try assumption.
      now rewrite <- !app_assoc.
    + apply found_search_sound in H as (u & m & rest & -> & L).
      change (Seqs [Chr newline_char; Star space; bullet; Plus space])
        with (Seq (Chr newline_char) (Seqs [Star space; bullet; Plus space]))
        in L.
      inversion L as [| | | r1 r2 m1 m2 H1 H2 | | | | | |]; subst.
      inversion H1 as [| x c Hc | | | | | | | |]; subst.
      apply chr_match_plain in Hc. subst c.
      apply lang_bullet_line in H2 as (ws & b & w & ws' & -> & Hws & Hb & Hw).
      exists (u ++ [newline_char]), ws, b, w, (ws' ++ rest).
      repeat split; try assumption.
      * now rewrite <- !app_assoc.
      * unfold line_start. rewrite rev_unit. reflexivity.
  - intros (u & ws & b & w & rest & -> & Hu & Hws & Hb & Hw). left.
    apply found_search_complete. now apply bullet_line_matches.
Qed.

End PatternFacts.

(** * Words: [str.split] undoes [str.join] *)

Section Words.

Lemma split_ws_go_word w : forall s cur,
  forallb (fun c => negb (isspace c)) w = true ->
  split_ws_go (w ++ s) cur = split_ws_go s (rev w ++ cur).
Proof.
  induction w as [| c w IH]; intros s cur H; [reflexivity |].
  cbn [forallb] in H. apply andb_true_iff in H as [Hc Hw].
  apply negb_true_iff in Hc.
  cbn [app split_ws_go rev]. rewrite Hc, IH by exact Hw.
  now rewrite <- app_assoc.
Qed.

Lemma split_ws_go_spaces sp : forall s,
  forallb isspace sp = true ->
  split_ws_go (sp ++ s) [] = split_ws_go s [].
Proof.
  induction sp as [| c sp IH]; intros s H; [reflexivity |].
  cbn [forallb] in H. apply andb_true_iff in H as [Hc Hsp].
  cbn [app split_ws_go]. rewrite Hc. now apply IH.
Qed.

Lemma split_ws_go_sep sep s c cur :
  truthy sep = true -> forallb isspace sep = true ->
  split_ws_go (sep ++ s) (c :: cur) = rev (c :: cur) :: split_ws_go s [].
Proof.
  intros Hne Hsp. destruct sep as [| x sp]; [discriminate |].
  cbn [forallb] in Hsp. apply andb_true_iff in Hsp as [Hx Hsp].
  cbn [app split_ws_go]. rewrite Hx. f_equal. now apply split_ws_go_spaces.
Qed.

Lemma is_word_parts w :
  is_word w = true ->
  exists c w', rev w = c :: w'
    /\ forallb (fun c => negb (isspace c)) w = true.
Proof.
  unfold is_word. intros H. apply andb_true_iff in H as [Hne Hw].
  destruct (rev w) as [| c w'] eqn:E.
  - apply (f_equal (@rev N)) in E. rewrite rev_involutive in E. subst w.
    discriminate.
  - now exists c, w'.
Qed.

(** Splitting the words joined by a white-space separator gives the words
    back. *)
Lemma split_ws_join sep words :
  truthy sep = true -> forallb isspace sep = true ->
  forallb is_word words = true ->
  split_ws (join sep words) = words.
Proof.
  intros Hne Hsp. unfold split_ws.
  induction words as [| w ws IH]; intros Hws; [reflexivity |].
  cbn [forallb] in Hws. apply andb_true_iff in Hws as [Hw Hws].
  destruct (is_word_parts w Hw) as (c & w' & Hrev & Hns).
  destruct ws as [| w2 ws].
  - cbn [join]. rewrite <- (app_nil_r w) at 1.
    rewrite split_ws_go_word by exact Hns.
    rewrite app_nil_r, Hrev. cbn [split_ws_go].
    now rewrite <- Hrev, rev_involutive.
  - change (join sep (w :: w2 :: ws)) with (w ++ sep ++ join sep (w2 :: ws)).
    rewrite split_ws_go_word by exact Hns.
    rewrite app_nil_r, Hrev, split_ws_go_sep by assumption.
    rewrite <- Hrev, rev_involutive. f_equal. now apply IH.
Qed.

(** X5: a body made of words (non-empty, free of white space) joined by
    single spaces is split into these words again: the draft counts them
    in [word_count], the validator accepts the body exactly when there are
    at most 180 of them, and otherwise its issue names their number. *)
Theorem word_limit_counts_words (words : list str) (subject job_title company : str) :
  forallb is_word words = true ->
  let draft :=
    EmailDraft_new subject (join (py " ") words) job_title company in
  word_count draft = length words
  /\ under_word_limit (validate_draft draft) = (length words <=? 180)
  /\ (180 < length words ->
      In (cross ++ py " Too long: " ++ str_of_nat (length words)
          ++ py " words (limit: 180)")
         (issues (validate_draft draft))).
Proof.
  intros Hws draft.
  assert (Hsplit : split_ws (join (py " ") words) = words)
    by (apply split_ws_join; [reflexivity | reflexivity | exact Hws]).
  assert (Hlimit : under_word_limit (validate_draft draft)
                   = (length words <=? 180)).
  { unfold validate_draft, draft. cbn [body EmailDraft_new].
    unfold QualityCheck_new, set_issues. cbn [under_word_limit].
    unfold _check_word_limit. now rewrite Hsplit. }
  split; [| split].
  - unfold draft, EmailDraft_new. cbn [word_count]. now rewrite Hsplit.
  - exact Hlimit.
  - intros Hlong.
    assert (Hw : _check_word_limit (body draft) 180 = false).
    { unfold _check_word_limit, draft. cbn [body EmailDraft_new].
      rewrite Hsplit. apply Nat.leb_gt. exact Hlong. }
    unfold validate_draft. cbv zeta. unfold set_issues. cbn [issues].
    unfold _generate_issues, QualityCheck_new.
    cbn [has_metric has_project_link has_company_hook has_clear_cta
         under_word_limit no_emojis no_bullet_dashes].
    rewrite Hw.
    rewrite !in_app_iff. right. right. right. right. left.
    unfold draft at 1. cbn [body EmailDraft_new]. rewrite Hsplit.
    left. reflexivity.
Qed.

Lemma word_limit_counts_words_witness :
  word_count
    (EmailDraft_new (py "Hi") (join (py " ") [py "Hello"; py "there"]) [] [])
  = 2
  /\ under_word_limit
       (validate_draft
          (EmailDraft_new (py "Hi") (join (py " ") [py "Hello"; py "there"])
             [] []))
     = true.
Proof.
  destruct (word_limit_counts_words [py "Hello"; py "there"] (py "Hi") [] []
              eq_refl) as (H1 & H2 & _).
  split; [exact H1 | exact H2].
Defined.

End Words.

(** * More facts about the model client *)

Import Parts.

Section TextParts.

Lemma part_of_refl s : part_of s s.
Proof. exists [], []. now rewrite app_nil_r. Qed.

Lemma part_of_trans a b c : part_of a b -> part_of b c -> part_of a c.
Proof.
  intros (x & y & ->) (u & v & ->). exists (u ++ x), (y ++ v). same_app.
Qed.

Lemma part_of_skipn n s : part_of (skipn n s) s.
Proof. exists (firstn n s), []. now rewrite app_nil_r, firstn_skipn. Qed.

Lemma part_of_firstn n s : part_of (firstn n s) s.
Proof. exists [], (skipn n s). cbn [app]. now rewrite firstn_skipn. Qed.

Lemma part_of_lstrip s : part_of (lstrip s) s.
Proof.
  destruct (lstrip_suffix s) as [w Hw]. exists w, [].
  now rewrite app_nil_r.
Qed.

Lemma part_of_rstrip s : part_of (rstrip s) s.
Proof. destruct (rstrip_prefix s) as [w Hw]. now exists [], w. Qed.

Lemma part_of_strip s : part_of (strip s) s.
Proof.
  unfold strip. apply (part_of_trans _ (lstrip s));
    [apply part_of_rstrip | apply part_of_lstrip].
Qed.

Lemma part_of_cons x c s : part_of x s -> part_of x (c :: s).
Proof. intros (a & b & ->). now exists (c :: a), b. Qed.

Lemma part_of_app_r x p s : part_of x s -> part_of x (p ++ s).
Proof. intros (a & b & ->). exists (p ++ a), b. same_app. Qed.

(** Every piece [split] returns is a part of the text. *)
Lemma split_go_parts sep x s : forall cur skip,
  (skip = 0 \/ cur = []) ->
  In x (split_go sep s cur skip) -> part_of x (rev cur ++ s).
Proof.
  induction s as [| c s IH]; intros cur skip Hinv Hin; cbn [split_go] in Hin.
  - destruct Hin as [<- | []]. rewrite app_nil_r. apply part_of_refl.
  - destruct skip as [| k].
    + destruct (startswith (c :: s) sep).
      * destruct Hin as [<- | Hin].
        -- exists [], (c :: s). reflexivity.
        -- apply part_of_app_r, part_of_cons.
           apply (IH [] _ (or_intror eq_refl) Hin).
      * replace (rev cur ++ c :: s) with (rev (c :: cur) ++ s)
          by (cbn [rev]; same_app).
        apply (IH _ 0 (or_introl eq_refl) Hin).
    + destruct Hinv as [Hk | ->]; [discriminate |].
      cbn [rev app]. apply part_of_cons.
      apply (IH [] k (or_intror eq_refl) Hin).
Qed.

Lemma split_parts sep x s : In x (split s sep) -> part_of x s.
Proof.
  intros H. apply (split_go_parts sep x s [] 0 (or_introl eq_refl) H).
Qed.

Lemma strip_preambles_part response :
  part_of (strip_preambles response) response.
Proof.
  unfold strip_preambles.
  apply (part_of_trans _ (strip response)); [| apply part_of_strip].
  generalize (strip response). generalize preambles.
  intros pres. induction pres as [| pre pres IH]; intros r.
  - apply part_of_refl.
  - cbn [fold_left]. destruct (startswith (lower r) pre).
    + eapply part_of_trans; [apply IH |].
      eapply part_of_trans; [apply part_of_strip | apply part_of_skipn].
    + apply IH.
Qed.

Lemma strip_fences_part response : part_of (strip_fences response) response.
Proof.
  unfold strip_fences.
  destruct (contains response fence); [| apply part_of_refl].
  destruct (3 <=? length (split response fence)) eqn:E;
    [| apply part_of_refl].
  apply Nat.leb_le in E.
  assert (Hpart : part_of (nth 1 (split response fence) []) response).
  { apply (split_parts fence). apply nth_In. lia. }
  destruct (startswith (lower (strip (nth 1 (split response fence) [])))
              (py "json")); [| exact Hpart].
  eapply part_of_trans; [apply part_of_strip |].
  eapply part_of_trans; [apply part_of_skipn |].
  eapply part_of_trans; [apply part_of_strip | exact Hpart].
Qed.

Lemma unwrap_part response : part_of (unwrap response) response.
Proof.
  unfold unwrap. eapply part_of_trans;
    [apply strip_fences_part | apply strip_preambles_part].
Qed.

Lemma part_of_In c s r : part_of s r -> In c s -> In c r.
Proof.
  intros (a & b & ->) H. apply in_or_app. right. apply in_or_app. now left.
Qed.

(** X6: the parser never makes text up: what it returns is a contiguous
    part of the response it was given. *)
Theorem clean_json_response_part response s :
  _clean_json_response response = ret s -> part_of s response.
Proof.
  unfold _clean_json_response. intros H.
  destruct (find_char lbrace (unwrap response)) as [start |]; [| discriminate].
  destruct (scan_braces (skipn start (unwrap response)) start 0) as [e |];
    [| discriminate].
  injection H as <-.
  eapply part_of_trans; [apply part_of_firstn |].
  eapply part_of_trans; [apply part_of_skipn | apply unwrap_part].
Qed.

Lemma clean_json_response_part_witness :
  part_of (py "{}") (py "Output: ok {} done").
Proof.
  apply (clean_json_response_part (py "Output: ok {} done") (py "{}")).
  reflexivity.
Defined.

(** What the parser returns is a balanced object. *)
Lemma clean_returns_balanced response s :
  _clean_json_response response = ret s -> balanced_object s.
Proof.
  unfold _clean_json_response. intros H.
  destruct (find_char lbrace (unwrap response)) as [start |] eqn:Hfind;
    [| discriminate].
  destruct (find_char_split _ _ _ Hfind) as (pre & rest & Htext & Hpre & ->).
  rewrite Htext, skipn_exact in H.
  destruct (scan_braces (lbrace :: rest) (length pre) 0) as [e |] eqn:Hscan;
    [| discriminate].
  destruct (scan_braces_sound (lbrace :: rest) (length pre) 0 e
              ltac:(lia) (or_intror (ex_intro _ rest eq_refl)) Hscan)
    as (obj & post & Hsplit & -> & Hne & Hzero & Hopen).
  replace (length pre + length obj - length pre) with (length obj) in H by lia.
  rewrite Hsplit, firstn_exact in H. injection H as <-.
  repeat split.
  - destruct obj as [| c obj]; [contradiction |].
    injection Hsplit as <- _. now exists obj.
  - lia.
  - intros k Hk. specialize (Hopen k). rewrite Z.add_0_l in Hopen.
    apply Hopen. lia.
Qed.

(** X23: parsing what the parser returned gives it back, provided the
    returned object holds no code fence; an object with a fence inside may
    be cut at it when it is parsed again. *)
Theorem clean_json_response_idempotent response s :
  _clean_json_response response = ret s ->
  contains s fence = false ->
  _clean_json_response s = ret s.
Proof.
  intros H Hfence. apply clean_returns_balanced in H.
  destruct (unwrap_in_prose [] s [] H (fun Hin => Hin))
    as (pre & post & Htext & Hpre).
  - cbn [app]. now rewrite app_nil_r.
  - cbn [app] in Htext. rewrite app_nil_r in Htext.
    now apply (clean_of_unwrapped s pre s post).
Qed.

Lemma clean_json_response_idempotent_witness :
  _clean_json_response (py "{}") = ret (py "{}").
Proof.
  apply (clean_json_response_idempotent (py "Output: ok {} done") (py "{}"));
    reflexivity.
Defined.

End TextParts.

Section StripFacts.

Lemma lstrip_idem s : lstrip (lstrip s) = lstrip s.
Proof.
  induction s as [| c s IH]; [reflexivity |].
  cbn [lstrip]. destruct (isspace c) eqn:E; [exact IH |].
  cbn [lstrip]. now rewrite E.
Qed.

Lemma lstrip_head s c t : lstrip s = c :: t -> isspace c = false.
Proof.
  induction s as [| x s IH]; [discriminate |].
  cbn [lstrip]. destruct (isspace x) eqn:E; [exact IH |].
  intros H. injection H as <- _. exact E.
Qed.

Lemma rstrip_idem s : rstrip (rstrip s) = rstrip s.
Proof. unfold rstrip. now rewrite rev_involutive, lstrip_idem. Qed.

(** Stripping a stripped text changes nothing. *)
Lemma strip_idem s : strip (strip s) = strip s.
Proof.
  unfold strip.
  assert (H : lstrip (rstrip (lstrip s)) = rstrip (lstrip s)).
  { destruct (lstrip s) as [| c t] eqn:E; [reflexivity |].
    pose proof (lstrip_head s c t E) as Hc.
    change (c :: t) with ([] ++ c :: t).
    rewrite (rstrip_app_nonspace c [] t Hc). cbn [app lstrip].
    now rewrite Hc. }
  now rewrite H, rstrip_idem.
Qed.

End StripFacts.

Section GenerateTextFacts.

Variable World : Type.
Variable post : World -> str -> str -> float -> Z -> World * post_outcome.
Variable model : str.

(** X7: what a request to the model server comes to.  A text is returned
    only for a response with status 200 whose body is a JSON object, and
    it is stripped; every failure is the time-out message or carries the
    prefix "LLM generation failed: ", the messages for status 404 and for
    the other status codes included, since the handler of the [try] block
    catches them too. *)
Theorem generate_text_outcome w prompt temperature max_tokens :
  match snd (generate_text post model w prompt temperature max_tokens) with
  | inr text =>
      strip text = text
      /\ exists kv,
           snd (post w model prompt temperature max_tokens)
           = PostResponse 200 (inr (JDict kv))
  | inl msg =>
      msg = py "LLM request timed out. Try a smaller model or reduce prompt size."
      \/ exists reason, msg = py "LLM generation failed: " ++ reason
  end.
Proof.
  unfold generate_text.
  destruct (post w model prompt temperature max_tokens) as [w1 outcome].
  cbn [snd]. destruct outcome as [| msg | status_code body].
  - now left.
  - right. now exists msg.
  - destruct (Z.eqb status_code 200) eqn:E200.
    + apply Z.eqb_eq in E200. subst status_code.
      destruct body as [msg | v].
      * right. now exists msg.
      * destruct v; try (right; eexists; reflexivity).
        destruct (dict_get (py "response") kv) as [v |].
        -- destruct v; try (right; eexists; reflexivity).
           split; [apply strip_idem | now exists kv].
        -- split; [apply strip_idem | now exists kv].
    + destruct (Z.eqb status_code 404); right; eexists; reflexivity.
Qed.

End GenerateTextFacts.

(** * More facts about the search for contacts *)

Import ContactSets ContactSearch.

Section EmailShape.

Lemma email_local_class c :
  class_match false
    (alnum_items ++ [CChar (ch "."); CChar (ch "_"); CChar (ch "%");
                     CChar (ch "+"); CChar (ch "-")]) c
  = email_local_char c.
Proof.
  rewrite class_match_plain.
  unfold class_mem, email_local_char, alnum_char, alnum_items.
  cbn [app existsb item_mem]. now rewrite orb_false_r, !orb_assoc.
Qed.

Lemma email_domain_class c :
  class_match false (alnum_items ++ [CChar (ch "."); CChar (ch "-")]) c
  = email_domain_char c.
Proof.
  rewrite class_match_plain.
  unfold class_mem, email_domain_char, alnum_char, alnum_items.
  cbn [app existsb item_mem]. now rewrite orb_false_r, !orb_assoc.
Qed.

Lemma email_tld_class c :
  class_match false
    [CRange (ch "A") (ch "Z"); CChar (ch "|"); CRange (ch "a") (ch "z")] c
  = email_tld_char c.
Proof.
  rewrite class_match_plain. unfold class_mem, email_tld_char.
  cbn [existsb item_mem]. now rewrite orb_false_r, !orb_assoc.
Qed.

(** X8: an address taken from a text is a contiguous part of it of the
    form [local@domain.tld]: a non-empty local part of letters, digits and
    [._%+-], a non-empty domain of letters, digits, dots and dashes, and a
    last label of at least two characters that are letters or, as the
    class [[A-Z|a-z]] has it, bars. *)
Theorem extract_email_shape text e :
  _extract_email text = Some e ->
  part_of e text
  /\ exists local domain tld,
       e = local ++ ch "@" :: domain ++ ch "." :: tld
       /\ local <> [] /\ forallb email_local_char local = true
       /\ domain <> [] /\ forallb email_domain_char domain = true
       /\ 2 <= length tld /\ forallb email_tld_char tld = true.
Proof.
  unfold _extract_email.
  destruct (findall false false email_pattern text) as [| m ms] eqn:E;
    [discriminate |].
  intros H. injection H as <-.
  apply findall_head in E as [rest E].
  apply search_from_sound in E as (L & u & ->).
  split; [now exists u, rest |].
  unfold email_pattern in L. cbn [Seqs] in L.
  apply lang_seq_inv in L as (m0 & m1 & -> & H0 & L).
  apply lang_wordb_inv in H0 as ->.
  apply lang_seq_inv in L as (local & m2 & -> & Hlocal & L).
  apply lang_seq_inv in L as (at_ & m3 & -> & Hat & L).
  apply lang_seq_inv in L as (domain & m4 & -> & Hdomain & L).
  apply lang_seq_inv in L as (dot & m5 & -> & Hdot & L).
  apply lang_seq_inv in L as (t1 & m6 & -> & Ht1 & L).
  apply lang_seq_inv in L as (t2 & m7 & -> & Ht2 & L).
  apply lang_seq_inv in L as (t3 & m8 & -> & Ht3 & L).
  apply lang_wordb_inv in L as ->.
  apply lang_chr_inv in Hat as (c & -> & Hc). apply chr_match_plain in Hc as ->.
  apply lang_chr_inv in Hdot as (c & -> & Hc). apply chr_match_plain in Hc as ->.
  apply lang_plus_class_all in Hlocal as [Hl1 Hl2].
  apply lang_plus_class_all in Hdomain as [Hd1 Hd2].
  unfold tld_char in Ht1, Ht2, Ht3.
  apply lang_class_inv in Ht1 as (c1 & -> & Hc1).
  apply lang_class_inv in Ht2 as (c2 & -> & Hc2).
  apply lang_star_class in Ht3.
  exists local, domain, (c1 :: c2 :: t3). repeat split.
  - cbn [app]. now rewrite app_nil_r.
  - exact Hl1.
  - rewrite <- Hl2. apply forallb_same. intros c.
    now rewrite email_local_class.
  - exact Hd1.
  - rewrite <- Hd2. apply forallb_same. intros c.
    now rewrite email_domain_class.
  - cbn [length]. lia.
  - assert (H3 : forallb email_tld_char t3 = true).
    { rewrite <- Ht3. apply forallb_same. intros c.
      now rewrite email_tld_class. }
    cbn [forallb].
    rewrite <- (email_tld_class c1), Hc1, <- (email_tld_class c2), Hc2.
    exact H3.
Qed.

Lemma extract_email_shape_witness :
  part_of (py "jane@acme.com") (py "Reach her at jane@acme.com today").
Proof.
  exact (proj1 (extract_email_shape (py "Reach her at jane@acme.com today")
                  (py "jane@acme.com") eq_refl)).
Defined.

End EmailShape.

Section RoleKeyword.

Lemma forallb_rev {A : Type} (f : A -> bool) (l : list A) :
  forallb f (rev l) = forallb f l.
Proof.
  apply eq_true_iff_eq. rewrite !forallb_forall. split; intros H x Hx.
  - apply H. now apply in_rev in Hx.
  - apply H. now apply in_rev.
Qed.

(** [str.split] returns words: none is empty, none holds white space. *)
Lemma split_ws_go_words s : forall cur,
  forallb (fun c => negb (isspace c)) cur = true ->
  Forall (fun w => is_word w = true) (split_ws_go s cur).
Proof.
  assert (Hcur : forall c cur,
            forallb (fun c => negb (isspace c)) (c :: cur) = true ->
            is_word (rev (c :: cur)) = true).
  { intros c cur H. unfold is_word. rewrite forallb_rev, H, andb_true_r.
    cbn [rev]. destruct (rev cur); reflexivity. }
  induction s as [| c s IH]; intros cur H; cbn [split_ws_go].
  - destruct cur as [| x cur]; constructor; [now apply Hcur | constructor].
  - destruct (isspace c) eqn:E.
    + destruct cur as [| x cur]; [now apply IH |].
      constructor; [now apply Hcur | now apply IH].
    + apply IH. cbn [forallb]. now rewrite E, H.
Qed.

Lemma split_ws_words s : Forall (fun w => is_word w = true) (split_ws s).
Proof. now apply split_ws_go_words. Qed.

Lemma split_ws_go_nil s : forall cur,
  split_ws_go s cur = [] -> cur = [] /\ forallb isspace s = true.
Proof.
  induction s as [| c s IH]; intros cur H; cbn [split_ws_go] in H.
  - destruct cur; [now split | discriminate].
  - cbn [forallb]. destruct (isspace c) eqn:E.
    + destruct cur; [| discriminate]. split; [reflexivity |].
      now apply (IH []).
    + apply IH in H as [H _]. discriminate.
Qed.

Lemma contains_head s k kw : contains s (k :: kw) = true -> In k s.
Proof.
  induction s as [| c s IH]; cbn [contains startswith]; [discriminate |].
  intros H. apply orb_true_iff in H as [H | H].
  - apply andb_true_iff in H as [H _]. apply N.eqb_eq in H. now left.
  - right. now apply IH.
Qed.

Lemma lower_char_space c : isspace c = true -> lower_char c = c.
Proof.
  intros H. unfold lower_char, isupper.
  destruct (in_range 65 90 c) eqn:E; [| reflexivity].
  exfalso. unfold isspace in H. bools_to_props. lia.
Qed.

(** X9: the role keyword taken from a job title is always one word: never
    empty and free of white space.  For an empty or blank title it is
    "manager". *)
Theorem extract_role_keyword_word job_title :
  is_word (_extract_role_keyword job_title) = true
  /\ (forallb isspace job_title = true ->
      _extract_role_keyword job_title = py "manager").
Proof.
  unfold _extract_role_keyword. split.
  - destruct (find _ keywords) as [keyword |] eqn:E.
    + apply find_some in E as [Hin _].
      vm_compute in Hin.
      repeat (destruct Hin as [<- | Hin]; [reflexivity |]). contradiction.
    + pose proof (split_ws_words job_title) as Hw.
      destruct (split_ws job_title) as [| word ws]; [reflexivity |].
      now inversion Hw.
  - intros Hblank.
    destruct (find _ keywords) as [keyword |] eqn:E.
    + exfalso. apply find_some in E as [Hin Hc].
      assert (Hk : exists k kw, keyword = k :: kw /\ isspace k = false).
      { vm_compute in Hin.
        repeat (destruct Hin as [<- | Hin];
                [eexists _, _; split; reflexivity |]).
        contradiction. }
      destruct Hk as (k & kw & -> & Hk).
      apply contains_head in Hc. unfold lower in Hc.
      apply in_map_iff in Hc as (c0 & Hc0 & Hin0).
      pose proof (proj1 (forallb_forall isspace job_title) Hblank c0 Hin0)
        as Hs.
      rewrite (lower_char_space c0 Hs) in Hc0. congruence.
    + rewrite <- (app_nil_r job_title).
      unfold split_ws. rewrite split_ws_go_spaces by exact Hblank.
      reflexivity.
Qed.

End RoleKeyword.

Section FindContactsFacts.

Variable World : Type.
Variable generator : World -> str -> float -> Z -> World * (str + str).
Variable json_loads : str -> option json.
Variable CONTACT_SEARCH_QUERIES_PROMPT_format : str -> str -> str -> str.
Variable ddgs_text : World -> json -> Z -> World * (str + list SearchResult).
Variable py_str : json -> str.

Lemma str_eqb_eq a : forall b, str_eqb a b = true <-> a = b.
Proof.
  induction a as [| x a IH]; intros [| y b]; cbn [str_eqb];
    try (split; [discriminate | discriminate]); [now split |].
  rewrite andb_true_iff, N.eqb_eq, IH. split.
  - now intros [-> ->].
  - intros H. now injection H.
Qed.

Lemma seen_spec n seen :
  existsb (str_eqb n) seen = true <-> In n seen.
Proof.
  rewrite existsb_exists. split.
  - intros (x & Hx & E). apply str_eqb_eq in E. now subst.
  - intros H. exists n. split; [exact H | now apply str_eqb_eq].
Qed.

Lemma extract_contact_name result company_name c :
  _extract_contact_from_result result company_name = Some c ->
  truthy (name c) = true.
Proof.
  unfold _extract_contact_from_result.
  destruct (_extract_name_from_title (get_or_empty (res_title result)))
    as [[| n0 n] |]; try discriminate.
  intros H. injection H as <-. reflexivity.
Qed.

Lemma collected_step result company_name contacts seen_names :
  collected contacts seen_names ->
  let '(contacts', seen_names') :=
    match _extract_contact_from_result result company_name with
    | Some contact =>
        if negb (existsb (str_eqb (name contact)) seen_names)
        then (contacts ++ [contact], name contact :: seen_names)
        else (contacts, seen_names)
    | None => (contacts, seen_names)
    end in
  collected contacts' seen_names'
  /\ length contacts' <= S (length contacts).
Proof.
  intros (Hnd & Hseen & Hne).
  destruct (_extract_contact_from_result result company_name) as [c |] eqn:E;
    [| split; [exact (conj Hnd (conj Hseen Hne)) | lia]].
  destruct (existsb (str_eqb (name c)) seen_names) eqn:Eseen; cbn [negb];
    [split; [exact (conj Hnd (conj Hseen Hne)) | lia] |].
  assert (Hnew : ~ In (name c) (map name contacts)).
  { intros Hin. apply Hseen, seen_spec in Hin. congruence. }
  split; [| rewrite length_app; cbn [length]; lia].
  repeat split.
  - rewrite map_app. cbn [map]. apply NoDup_app; [exact Hnd | | ].
    + constructor; [intros [] | constructor].
    + intros n Hn [<- | []]. now apply Hnew.
  - intros [<- | Hin]; rewrite map_app; apply in_or_app;
      [right; now left | left; now apply Hseen].
  - rewrite map_app. intros Hin. apply in_app_or in Hin as [Hin | [<- | []]];
      [right; now apply Hseen | now left].
  - apply Forall_app. split; [exact Hne |].
    constructor; [now apply (extract_contact_name result company_name) |
                  constructor].
Qed.

Lemma scan_results_collected company_name max_results results :
  forall contacts seen_names,
  collected contacts seen_names ->
  (Z.of_nat (length contacts) < max_results \/ contacts = [])%Z ->
  let '(contacts', seen_names') :=
    scan_results results company_name max_results contacts seen_names in
  collected contacts' seen_names'
  /\ (Z.of_nat (length contacts') <= Z.max 1 max_results)%Z.
Proof.
  induction results as [| result results IH]; intros contacts seen_names Hc Hlen;
    cbn [scan_results].
  - split; [exact Hc |]. destruct Hlen as [Hlen | ->]; cbn [length]; lia.
  - pose proof (collected_step result company_name contacts seen_names Hc)
      as Hstep.
    destruct (match _extract_contact_from_result result company_name with
              | Some contact =>
                  if negb (existsb (str_eqb (name contact)) seen_names)
                  then (contacts ++ [contact], name contact :: seen_names)
                  else (contacts, seen_names)
              | None => (contacts, seen_names)
              end) as [contacts1 seen1].
    destruct Hstep as [Hc1 Hlen1].
    destruct (max_results <=? Z.of_nat (length contacts1))%Z eqn:E.
    + split; [exact Hc1 |].
      destruct Hlen as [Hlen | ->]; cbn [length] in *; lia.
    + apply Z.leb_gt in E. apply IH; [exact Hc1 | now left].
Qed.

Lemma run_queries_collected company_name max_results queries :
  forall w contacts seen_names,
  collected contacts seen_names ->
  (Z.of_nat (length contacts) < max_results \/ contacts = [])%Z ->
  let contacts' :=
    snd (run_queries ddgs_text queries w company_name max_results contacts
           seen_names) in
  NoDup (map name contacts')
  /\ Forall (fun c => truthy (name c) = true) contacts'
  /\ (Z.of_nat (length contacts') <= Z.max 1 max_results)%Z.
Proof.
  induction queries as [| query queries IH]; intros w contacts seen_names Hc Hlen;
    cbn [run_queries].
  - cbn [snd]. destruct Hc as (Hnd & _ & Hne). repeat split; try assumption.
    destruct Hlen as [Hlen | ->]; cbn [length]; lia.
  - destruct (ddgs_text w query 5) as [w1 [msg | results]].
    + now apply IH.
    + pose proof (scan_results_collected company_name max_results results
                    contacts seen_names Hc Hlen) as Hscan.
      destruct (scan_results results company_name max_results contacts
                  seen_names) as [contacts1 seen1].
      destruct Hscan as [Hc1 Hlen1].
      destruct (max_results <=? Z.of_nat (length contacts1))%Z eqn:E.
      * cbn [snd]. destruct Hc1 as (Hnd & _ & Hne). now repeat split.
      * apply Z.leb_gt in E. apply IH; [exact Hc1 | now left].
Qed.

(** X10: the contacts [find_contacts] returns have pairwise different
    names, none of them empty, and there are at most [max_results] of
    them, or one when [max_results] is below one: the limit is tested only
    after a contact has been added. *)
Theorem find_contacts_result w company_name job_title max_results :
  let contacts :=
    snd (find_contacts generator json_loads
           CONTACT_SEARCH_QUERIES_PROMPT_format ddgs_text py_str
           w company_name job_title max_results) in
  NoDup (map name contacts)
  /\ Forall (fun c => truthy (name c) = true) contacts
  /\ (Z.of_nat (length contacts) <= Z.max 1 max_results)%Z.
Proof.
  unfold find_contacts.
  destruct (search_queries generator json_loads
              CONTACT_SEARCH_QUERIES_PROMPT_format py_str w company_name
              job_title) as [w1 queries].
  apply run_queries_collected; [| now right].
  repeat split; [constructor | intros [] | intros [] | constructor].
Qed.

(** X11: the prompt asks the model for a JSON array, but the parser of the
    model client only accepts an object.  When the response holds no
    opening brace, as an array of strings does, the contacts are searched
    with the three default queries, after one request to the model. *)
Theorem search_queries_array_response w company_name job_title w1 response :
  generator w
    (CONTACT_SEARCH_QUERIES_PROMPT_format company_name job_title
       (_extract_role_keyword job_title) ++ json_instruction)
    0.3%float 3000%Z
  = (w1, inr response) ->
  contains response [lbrace] = false ->
  search_queries generator json_loads CONTACT_SEARCH_QUERIES_PROMPT_format
    py_str w company_name job_title
  = (w1, default_queries company_name (_extract_role_keyword job_title)).
Proof.
  intros Hgen Hno. unfold search_queries, generate_json.
  cbn [generate_json_loop]. rewrite Hgen.
  assert (Hclean : exists e, _clean_json_response response = inl e).
  { unfold _clean_json_response. rewrite find_char_absent.
    - eexists. reflexivity.
    - intros Hin. apply (part_of_In _ _ _ (unwrap_part response)) in Hin.
      apply contains_char in Hin. congruence. }
  destruct Hclean as [e ->]. reflexivity.
Qed.

(** The generator that leaves the count alone leaves it alone through all
    the attempts of [generate_json]. *)
Lemma generate_json_loop_count remaining : forall attempt max_retries w n
    json_prompt temperature,
  snd (fst (fst (generate_json_loop (not_counting generator) json_loads
                   remaining attempt max_retries (w, n) json_prompt
                   temperature))) = n.
Proof.
  induction remaining as [| remaining IH];
    intros attempt max_retries w n json_prompt temperature;
    cbn [generate_json_loop]; [reflexivity |].
  unfold not_counting at 1.
  destruct (generator w json_prompt temperature 3000) as [w1 r].
  destruct r as [msg | response_text]; [reflexivity |].
  destruct (_clean_json_response response_text) as [e | cleaned];
    [reflexivity |].
  destruct (json_loads cleaned); [reflexivity |].
  destruct (attempt <? max_retries - 1); [| reflexivity].
  specialize (IH (S attempt) max_retries w1 n json_prompt
                (temperature * 0.5)%float).
  destruct (generate_json_loop (not_counting generator) json_loads remaining
              (S attempt) max_retries (w1, n) json_prompt
              (temperature * 0.5)%float) as [[w2 cs] res].
  exact IH.
Qed.

Lemma run_queries_count company_name max_results queries :
  forall w n contacts seen_names,
  snd (fst (run_queries (counting ddgs_text) queries (w, n) company_name
              max_results contacts seen_names))
  <= n + length queries.
Proof.
  induction queries as [| query queries IH]; intros w n contacts seen_names;
    cbn [run_queries].
  - cbn [fst snd length]. lia.
  - unfold counting at 1.
    destruct (ddgs_text w query 5) as [w1 [msg | results]].
    + specialize (IH w1 (S n) contacts seen_names). cbn [length]. lia.
    + destruct (scan_results results company_name max_results contacts
                  seen_names) as [contacts1 seen1].
      destruct (max_results <=? Z.of_nat (length contacts1))%Z.
      * cbn [fst snd length]. lia.
      * specialize (IH w1 (S n) contacts1 seen1). cbn [length]. lia.
Qed.

(** X24: [find_contacts] asks the search engine at most three times,
    however many queries the model returns and whatever the searches
    give. *)
Theorem find_contacts_searches w company_name job_title max_results :
  snd (fst (find_contacts (not_counting generator) json_loads
              CONTACT_SEARCH_QUERIES_PROMPT_format (counting ddgs_text)
              py_str (w, 0) company_name job_title max_results))
  <= 3.
Proof.
  unfold find_contacts, search_queries, generate_json.
  pose proof (generate_json_loop_count 2 0 2 w 0
                (CONTACT_SEARCH_QUERIES_PROMPT_format company_name job_title
                   (_extract_role_keyword job_title) ++ json_instruction)
                0.3%float) as Hcount.
  destruct (generate_json_loop (not_counting generator) json_loads 2 0 2
              (w, 0)
              (CONTACT_SEARCH_QUERIES_PROMPT_format company_name job_title
                 (_extract_role_keyword job_title) ++ json_instruction)
              0.3%float) as [[[w1 n1] log] r].
  cbn [fst snd] in Hcount. subst n1.
  match goal with
  | |- snd (fst (run_queries _ (firstn 3 ?qs) _ _ _ _ _)) <= 3 =>
      pose proof (run_queries_count company_name max_results (firstn 3 qs)
                    w1 0 [] []) as Hrun;
      pose proof (firstn_le_length 3 qs) as Hlen
  end.
  lia.
Qed.

End FindContactsFacts.

Lemma search_queries_array_response_witness :
  search_queries scripted_generator loads_empty_object
    (fun company_name _ _ => company_name) (fun _ => [])
    [inr (py "[" ++ dq ++ py "Acme recruiter" ++ dq ++ py "]")]
    (py "Acme") (py "Data Engineer")
  = ([], default_queries (py "Acme") (py "engineer")).
Proof.
  exact (search_queries_array_response _ scripted_generator loads_empty_object
           (fun company_name _ _ => company_name) (fun _ => [])
           [inr (py "[" ++ dq ++ py "Acme recruiter" ++ dq ++ py "]")]
           (py "Acme") (py "Data Engineer") []
           (py "[" ++ dq ++ py "Acme recruiter" ++ dq ++ py "]")
           eq_refl eq_refl).
Defined.

(** * The role and the name of a contact *)

Section RoleFacts.

Lemma contains_part x y kw :
  part_of x y -> contains x kw = true -> contains y kw = true.
Proof.
  intros (a & b & ->) H. apply contains_app_r. now apply contains_app_l.
Qed.

(** Every word [str.split] returns is a part of the text. *)
Lemma split_ws_go_parts x s : forall cur,
  In x (split_ws_go s cur) -> part_of x (rev cur ++ s).
Proof.
  induction s as [| c s IH]; intros cur Hin; cbn [split_ws_go] in Hin.
  - destruct cur as [| y cur]; [destruct Hin |].
    destruct Hin as [<- | []]. rewrite app_nil_r. apply part_of_refl.
  - destruct (isspace c).
    + destruct cur as [| y cur].
      * cbn [rev app]. apply part_of_cons. apply (IH [] Hin).
      * destruct Hin as [<- | Hin].
        -- exists [], (c :: s). reflexivity.
        -- apply part_of_app_r, part_of_cons. apply (IH [] Hin).
    + replace (rev cur ++ c :: s) with (rev (c :: cur) ++ s)
        by (cbn [rev]; same_app).
      now apply IH.
Qed.

Lemma split_ws_parts x s : In x (split_ws s) -> part_of x s.
Proof. apply (split_ws_go_parts x s []). Qed.

Lemma enumerate_from_words {A : Type} (l : list A) : forall i,
  map snd (enumerate_from i l) = l.
Proof.
  induction l as [| x l IH]; intros i; [reflexivity |].
  cbn [enumerate_from map snd]. now rewrite IH.
Qed.

(** A phrase is found only around a word that holds the keyword. *)
Lemma role_phrase_word keyword words indexed phrase :
  role_phrase keyword words indexed = Some phrase ->
  exists word, In word (map snd indexed) /\ contains word keyword = true.
Proof.
  induction indexed as [| [i word] indexed IH]; [discriminate |].
  cbn [role_phrase].
  destruct (contains word keyword && (0 <? i))%bool eqn:E.
  - intros _. apply andb_true_iff in E as [E _].
    exists word. split; [now left | exact E].
  - intros H. destruct (IH H) as (word' & Hin & Hc).
    exists word'. split; [now right | exact Hc].
Qed.

Lemma role_phrase_none title keyword :
  contains title keyword = false ->
  role_phrase keyword (split_ws title) (enumerate_from 0 (split_ws title))
  = None.
Proof.
  intros Hno.
  destruct (role_phrase keyword (split_ws title)
              (enumerate_from 0 (split_ws title))) as [phrase |] eqn:E;
    [| reflexivity].
  apply role_phrase_word in E as (word & Hin & Hc).
  rewrite enumerate_from_words in Hin.
  apply (contains_part word title keyword (split_ws_parts _ _ Hin)) in Hc.
  congruence.
Qed.

Lemma extract_role_from_title keywords title combined :
  part_of title combined ->
  _extract_role_from keywords title combined
  = _extract_role_from keywords title title.
Proof.
  intros Hpart. induction keywords as [| keyword keywords IH]; [reflexivity |].
  cbn [_extract_role_from].
  destruct (contains title keyword) eqn:Et.
  - now rewrite (contains_part title combined keyword Hpart Et), IH.
  - rewrite (role_phrase_none title keyword Et), IH.
    now destruct (contains combined keyword).
Qed.

Lemma extract_role_from_short keywords title combined :
  length (split_ws title) <= 1 ->
  _extract_role_from keywords title combined = py "Unknown Role".
Proof.
  intros Hlen. induction keywords as [| keyword keywords IH]; [reflexivity |].
  cbn [_extract_role_from].
  assert (Hnone : role_phrase keyword (split_ws title)
                    (enumerate_from 0 (split_ws title)) = None).
  { destruct (split_ws title) as [| w [| w' ws]]; [reflexivity | |].
    - cbn [enumerate_from role_phrase]. now rewrite andb_false_r.
    - cbn [length] in Hlen. lia. }
  rewrite Hnone, IH. now destruct (contains combined keyword).
Qed.

(** X20: the role of a contact is read from the title alone: the snippet
    is searched for the keywords, but a keyword found only there gives no
    role, so that the result is the same for every snippet.  A title of a
    single word, or none, always gives "Unknown Role", since the word that
    holds the keyword may not be the first one. *)
Theorem extract_role_ignores_snippet title snippet :
  _extract_role title snippet = _extract_role title []
  /\ (length (split_ws title) <= 1 ->
      _extract_role title snippet = Some (py "Unknown Role")).
Proof.
  unfold _extract_role. split.
  - f_equal.
    rewrite (extract_role_from_title role_keywords title
               (title ++ py " " ++ snippet)) by (now exists [], (py " " ++ snippet)).
    rewrite (extract_role_from_title role_keywords title
               (title ++ py " " ++ [])) by (now exists [], (py " " ++ [])).
    reflexivity.
  - intros Hlen. f_equal. now apply extract_role_from_short.
Qed.

End RoleFacts.

Section NameFacts.

Lemma strip_word_pair w0 w1 :
  is_word w0 = true -> is_word w1 = true ->
  strip (w0 ++ py " " ++ w1) = w0 ++ py " " ++ w1.
Proof.
  intros H0 H1.
  destruct (is_word_parts w1 H1) as (l & t1 & Hrev & Hns1).
  unfold is_word in H0. apply andb_true_iff in H0 as [Hne0 Hns0].
  destruct w0 as [| h t0]; [discriminate |].
  cbn [forallb] in Hns0. apply andb_true_iff in Hns0 as [Hh _].
  apply negb_true_iff in Hh.
  assert (Hw1 : w1 = rev t1 ++ [l]).
  { rewrite <- (rev_involutive w1), Hrev. reflexivity. }
  assert (Hl : isspace l = false).
  { apply negb_true_iff.
    apply (proj1 (forallb_forall _ w1) Hns1 l).
    rewrite Hw1. apply in_or_app. right. now left. }
  rewrite Hw1.
  pose proof (strip_keeps h (t0 ++ py " " ++ rev t1) l [] [] Hh Hl) as Hk.
  cbn [app lstrip rstrip rev] in Hk. rewrite app_nil_r in Hk.
  replace ((h :: t0) ++ py " " ++ rev t1 ++ [l])
    with (h :: (t0 ++ py " " ++ rev t1) ++ [l]) by same_app.
  exact Hk.
Qed.

Lemma extract_name_stripped title name :
  _extract_name_from_title title = Some name -> strip name = name.
Proof.
  unfold _extract_name_from_title.
  destruct (contains title (py "|") && contains title (py "LinkedIn"))%bool.
  - destruct (contains (strip (nth 0 (split title (py "|")) [])) (py "-")).
    + intros H. injection H as <-. apply strip_idem.
    + pose proof (split_ws_words title) as Hw.
      destruct (split_ws title) as [| [| c0 w0] [| [| c1 w1] ws]];
        try discriminate.
      destruct (isupper c0 && isupper c1)%bool; [| discriminate].
      intros H. injection H as <-.
      inversion Hw as [| x l Hx Hl]; subst.
      inversion Hl as [| y l' Hy Hl']; subst.
      exact (strip_word_pair (c0 :: w0) (c1 :: w1) Hx Hy).
  - pose proof (split_ws_words title) as Hw.
    destruct (split_ws title) as [| [| c0 w0] [| [| c1 w1] ws]];
      try discriminate.
    destruct (isupper c0 && isupper c1)%bool; [| discriminate].
    intros H. injection H as <-.
    inversion Hw as [| x l Hx Hl]; subst.
    inversion Hl as [| y l' Hy Hl']; subst.
    exact (strip_word_pair (c0 :: w0) (c1 :: w1) Hx Hy).
Qed.

(** X21: what every contact taken from a search result has: a name that
    is not empty and has no white space at its ends, a role, the address
    of the result as its source, and as LinkedIn address either nothing or
    that same address, the latter exactly when it holds "linkedin.com". *)
Theorem extract_contact_fields result company_name c :
  _extract_contact_from_result result company_name = Some c ->
  name c <> [] /\ strip (name c) = name c
  /\ role c <> None
  /\ source c = get_or_empty (res_href result)
  /\ linkedin c
     = (if contains (source c) (py "linkedin.com") then Some (source c)
        else None).
Proof.
  unfold _extract_contact_from_result.
  destruct (_extract_name_from_title (get_or_empty (res_title result)))
    as [[| n0 n] |] eqn:E; try discriminate.
  intros H. injection H as <-.
  cbn [name role source linkedin]. repeat split.
  - discriminate.
  - now apply (extract_name_stripped (get_or_empty (res_title result))).
  - unfold _extract_role. discriminate.
Qed.

Lemma extract_contact_fields_witness :
  exists c,
    _extract_contact_from_result sample_result (py "Acme") = Some c
    /\ name c = py "Jane Doe"
    /\ source c = py "https://www.linkedin.com/in/janedoe".
Proof.
  destruct (_extract_contact_from_result sample_result (py "Acme"))
    as [c |] eqn:E; [| vm_compute in E; discriminate].
  exists c. split; [reflexivity |].
  destruct (extract_contact_fields sample_result (py "Acme") c E)
    as (_ & _ & _ & Hsource & _).
  split; [| exact Hsource].
  vm_compute in E. injection E as <-. reflexivity.
Defined.

End NameFacts.

Section EmailRoundTrip.

Lemma char_before_last p u :
  exists x, char_before (Some p) u = Some x /\ (x = p \/ In x u).
Proof.
  unfold char_before. destruct (rev u) as [| x r] eqn:E.
  - exists p. split; [reflexivity | now left].
  - exists x. split; [reflexivity |]. right.
    apply in_rev. rewrite E. now left.
Qed.

Lemma letter_facts c :
  letter c = true ->
  isword c = true /\ email_tld_char c = true /\ c <> ch ".".
Proof.
  unfold letter, isword, isupper, islower, email_tld_char. eval_chars.
  intros H. repeat split.
  - apply orb_true_iff in H as [H | H]; rewrite H; now rewrite ?orb_true_r.
  - apply orb_true_iff in H as [H | H]; rewrite H; now rewrite ?orb_true_r.
  - intros ->. vm_compute in H. discriminate.
Qed.

Lemma extract_email_exact l0 local d0 labels t1 t2 tld :
  isword l0 = true ->
  forallb email_local_char (l0 :: local) = true ->
  forallb email_domain_char (d0 :: labels) = true ->
  forallb letter (t1 :: t2 :: tld) = true ->
  _extract_email
    ((l0 :: local) ++ ch "@" :: (d0 :: labels) ++ ch "." :: t1 :: t2 :: tld)
  = Some ((l0 :: local) ++ ch "@" :: (d0 :: labels)
          ++ ch "." :: t1 :: t2 :: tld).
Proof.
  intros Hw Hlocal Hdom Htld.
  cbn [forallb] in Hlocal, Hdom, Htld.
  apply andb_true_iff in Hlocal as [Hl0 Hlocal].
  apply andb_true_iff in Hdom as [Hd0 Hlabels].
  apply andb_true_iff in Htld as [Ht1 Htld].
  apply andb_true_iff in Htld as [Ht2 Htld].
  assert (Hmatch :
    match_here false false email_pattern None
      ((l0 :: local) ++ ch "@" :: (d0 :: labels) ++ ch "." :: t1 :: t2 :: tld)
    = Some []).
  { unfold match_here, email_pattern. cbn [Seqs app].
    rewrite rmatch_seq, rmatch_wordb.
    replace (at_wordb None
               (l0 :: local ++ ch "@" :: d0 :: labels
                ++ ch "." :: t1 :: t2 :: tld)) with true
      by (unfold at_wordb; now rewrite Hw).
    unfold Plus at 1. rewrite !rmatch_seq, rmatch_class, email_local_class, Hl0.
    rewrite rmatch_star. apply star_class_greedy.
    - intros c Hc. rewrite email_local_class.
      now apply (proj1 (forallb_forall _ local) Hlocal).
    - apply le_n.
    - reflexivity.
    - cbv beta. rewrite rmatch_seq, rmatch_chr, chr_match_refl. cbv beta.
      unfold Plus at 1.
      rewrite !rmatch_seq, rmatch_class, email_domain_class, Hd0.
      replace (labels ++ ch "." :: t1 :: t2 :: tld)
        with (labels ++ (ch "." :: t1 :: t2 :: tld) ++ [])
        by (now rewrite app_nil_r).
      rewrite rmatch_star. apply star_class_backtracks.
      + intros c Hc. rewrite email_domain_class.
        now apply (proj1 (forallb_forall _ labels) Hlabels).
      + apply le_n.
      + exact I.
      + intros b1 b2 Hb Hne. rewrite app_nil_r. cbv beta.
        rewrite rmatch_seq.
        destruct b2 as [| x b2]; [reflexivity |].
        rewrite rmatch_chr.
        assert (Hx : letter x = true).
        { destruct b1 as [| y b1]; [contradiction |].
          injection Hb as _ Hb.
          assert (Hin : In x (t1 :: t2 :: tld))
            by (rewrite Hb; apply in_or_app; right; now left).
          assert (Hall : forallb letter (t1 :: t2 :: tld) = true)
            by (cbn [forallb]; now rewrite Ht1, Ht2, Htld).
          now apply (proj1 (forallb_forall _ _) Hall). }
        destruct (chr_match false (ch ".") x) eqn:E; [| reflexivity].
        apply chr_match_plain in E.
        now destruct (letter_facts x Hx) as (_ & _ & Hdot).
      + rewrite app_nil_r. cbv beta.
        rewrite rmatch_seq, rmatch_chr, chr_match_refl. cbv beta.
        unfold tld_char.
        rewrite rmatch_seq, rmatch_class, email_tld_class.
        rewrite (proj1 (proj2 (letter_facts t1 Ht1))).
        rewrite rmatch_seq, rmatch_class, email_tld_class.
        rewrite (proj1 (proj2 (letter_facts t2 Ht2))).
        rewrite rmatch_seq, rmatch_star.
        rewrite <- (app_nil_r tld) at 2.
        apply star_class_greedy.
        * intros c Hc. rewrite email_tld_class.
          apply letter_facts.
          now apply (proj1 (forallb_forall _ tld) Htld).
        * rewrite app_nil_r. apply le_n.
        * exact I.
        * cbv beta. rewrite rmatch_wordb.
          destruct (char_before_last t2 tld) as (x & -> & Hx).
          assert (Hlx : letter x = true).
          { destruct Hx as [-> | Hx]; [exact Ht2 |].
            now apply (proj1 (forallb_forall _ tld) Htld). }
          unfold at_wordb.
          now rewrite (proj1 (letter_facts x Hlx)). }
  unfold _extract_email, findall. cbn [findall_from].
  rewrite search_from_unfold, Hmatch.
  change (length (@nil N)) with 0. rewrite Nat.sub_0_r, firstn_all.
  reflexivity.
Qed.

(** X22: the addresses [generate_email_permutations] guesses are addresses
    for [_extract_email]: when the first name begins with a letter, a
    digit or an underscore, the names are made of the characters of a
    local part, and the domain ends with a dot and at least two letters
    after characters of a domain, each guess is found, whole, in the text
    that consists of it. *)
Theorem guessed_emails_are_recognized first_name last_name domain
    f0 first last_ d0 labels t1 t2 tld :
  strip (lower first_name) = f0 :: first ->
  strip (lower last_name) = last_ ->
  domain_part domain = (d0 :: labels) ++ ch "." :: t1 :: t2 :: tld ->
  isword f0 = true ->
  forallb email_local_char ((f0 :: first) ++ last_) = true ->
  forallb email_domain_char (d0 :: labels) = true ->
  forallb letter (t1 :: t2 :: tld) = true ->
  exists guesses,
    generate_email_permutations first_name last_name domain = inr guesses
    /\ length guesses = 3
    /\ Forall (fun g => exists e, email g = Some e /\ _extract_email e = Some e)
         guesses.
Proof.
  intros Hfirst Hlast Hdomain Hw Hlocal Hdom Htld.
  unfold generate_email_permutations. rewrite Hfirst, Hlast, Hdomain.
  eexists. split; [reflexivity |]. split; [reflexivity |].
  rewrite forallb_app in Hlocal. apply andb_true_iff in Hlocal as [Hf Hl].
  cbn [firstn enumerate_from map].
  change (py "@") with [ch "@"]. change (py ".") with [ch "."].
  repeat constructor; eexists; (split; [reflexivity |]); cbn [email].
  - replace ((f0 :: first) ++ [ch "."] ++ last_ ++ [ch "@"]
             ++ (d0 :: labels) ++ ch "." :: t1 :: t2 :: tld)
      with ((f0 :: first ++ ch "." :: last_) ++ ch "@" :: (d0 :: labels)
            ++ ch "." :: t1 :: t2 :: tld) by same_app.
    apply extract_email_exact; try assumption.
    cbn [forallb] in Hf |- *. apply andb_true_iff in Hf as [Hf0 Hf].
    rewrite Hf0, forallb_app, Hf. cbn [forallb andb]. now rewrite Hl.
  - replace ((f0 :: first) ++ [ch "@"]
             ++ (d0 :: labels) ++ ch "." :: t1 :: t2 :: tld)
      with ((f0 :: first) ++ ch "@" :: (d0 :: labels)
            ++ ch "." :: t1 :: t2 :: tld) by same_app.
    apply extract_email_exact; assumption.
  - replace ((f0 :: first) ++ last_ ++ [ch "@"]
             ++ (d0 :: labels) ++ ch "." :: t1 :: t2 :: tld)
      with ((f0 :: first ++ last_) ++ ch "@" :: (d0 :: labels)
            ++ ch "." :: t1 :: t2 :: tld) by same_app.
    apply extract_email_exact; try assumption.
    cbn [forallb] in Hf |- *. apply andb_true_iff in Hf as [Hf0 Hf].
    now rewrite Hf0, forallb_app, Hf, Hl.
Qed.

End EmailRoundTrip.

Lemma guessed_emails_are_recognized_witness :
  exists guesses,
    generate_email_permutations (py "Jane") (py "Doe") (py "Acme.com")
    = inr guesses
    /\ length guesses = 3
    /\ Forall (fun g => exists e, email g = Some e /\ _extract_email e = Some e)
         guesses.
Proof.
  exact (guessed_emails_are_recognized (py "Jane") (py "Doe") (py "Acme.com")
           (ch "j") (py "ane") (py "doe") (ch "a") (py "cme")
           (ch "c") (ch "o") (py "m")
           eq_refl eq_refl eq_refl eq_refl eq_refl eq_refl eq_refl).
Defined.

Section LinkedInTitle.

Lemma rstrip_trailing_space v c :
  isspace c = true -> rstrip (v ++ [c]) = rstrip v.
Proof.
  intros Hc. unfold rstrip. rewrite rev_app_distr. cbn [rev app lstrip].
  now rewrite Hc.
Qed.

Lemma lstrip_blank u : forallb isspace u = true -> lstrip u = [].
Proof.
  induction u as [| x u IH]; [reflexivity |]. cbn [forallb lstrip].
  intros H. apply andb_true_iff in H as [Hx Hu]. now rewrite Hx, IH.
Qed.

Lemma lstrip_app_space u c :
  isspace c = true ->
  lstrip (u ++ [c]) = if forallb isspace u then [] else lstrip u ++ [c].
Proof.
  intros Hc. induction u as [| x u IH]; cbn [app lstrip forallb].
  - now rewrite Hc.
  - destruct (isspace x); [exact IH | reflexivity].
Qed.

(** A white-space character at the end of a text is stripped with the
    rest. *)
Lemma strip_trailing_space u c :
  isspace c = true -> strip (u ++ [c]) = strip u.
Proof.
  intros Hc. unfold strip. rewrite (lstrip_app_space u c Hc).
  destruct (forallb isspace u) eqn:E.
  - now rewrite (lstrip_blank u E).
  - now apply rstrip_trailing_space.
Qed.

Lemma not_in_lstrip (a : N) u : ~ In a u -> ~ In a (lstrip u).
Proof.
  intros H Hin. apply H. destruct (lstrip_suffix u) as [w Hw].
  rewrite Hw. apply in_or_app. now right.
Qed.

(** X25: a title of the form LinkedIn pages have, "Name - Position |
    LinkedIn", gives the name before the dash, stripped, when neither the
    name nor the position holds a bar and the name holds no dash. *)
Theorem extract_name_linkedin_title name_ position :
  ~ In (ch "|") name_ -> ~ In (ch "-") name_ -> ~ In (ch "|") position ->
  _extract_name_from_title
    (name_ ++ py " - " ++ position ++ py " | LinkedIn")
  = Some (strip name_).
Proof.
  intros Hbar Hdash Hpos. unfold _extract_name_from_title.
  set (before := (name_ ++ [ch " "]) ++ ch "-" :: ch " " :: position ++ [ch " "]).
  assert (Htitle : name_ ++ py " - " ++ position ++ py " | LinkedIn"
                   = before ++ ch "|" :: py " LinkedIn").
  { unfold before. change (py " - ") with [ch " "; ch "-"; ch " "].
    change (py " | LinkedIn") with ([ch " "] ++ ch "|" :: py " LinkedIn").
    same_app. }
  assert (Hnobar : ~ In (ch "|") before).
  { unfold before. rewrite !in_app_iff. cbn [In]. rewrite !in_app_iff.
    cbn [In]. eval_chars. intuition discriminate. }
  rewrite Htitle.
  replace (contains (before ++ ch "|" :: py " LinkedIn") (py "|")) with true
    by (symmetry; apply (contains_char _ (ch "|")), in_or_app; right; now left).
  replace (contains (before ++ ch "|" :: py " LinkedIn") (py "LinkedIn"))
    with true
    by (symmetry; apply contains_app_r; reflexivity).
  cbn [andb]. unfold split.
  change (py "|") with [ch "|"].
  rewrite (split_go_char_first (ch "|") before (py " LinkedIn") [] Hnobar).
  cbn [nth rev app].
  assert (Hparts : strip before
                   = lstrip (name_ ++ [ch " "])
                     ++ ch "-" :: rstrip (ch " " :: position ++ [ch " "])).
  { unfold strip, before.
    rewrite (lstrip_app_nonspace (ch "-") _ _ eq_refl).
    now rewrite (rstrip_app_nonspace (ch "-") _ _ eq_refl). }
  rewrite Hparts.
  replace (contains
             (lstrip (name_ ++ [ch " "])
              ++ ch "-" :: rstrip (ch " " :: position ++ [ch " "]))
             (py "-")) with true
    by (symmetry; apply (contains_char _ (ch "-")), in_or_app; right; now left).
  change (py "-") with [ch "-"].
  rewrite split_go_char_first.
  - cbn [nth rev app]. f_equal.
    unfold strip at 1. rewrite lstrip_idem. fold (strip (name_ ++ [ch " "])).
    now apply strip_trailing_space.
  - apply not_in_lstrip. rewrite in_app_iff. cbn [In]. eval_chars.
    intuition discriminate.
Qed.

Lemma extract_name_linkedin_title_witness :
  _extract_name_from_title
    (py "Jane Doe" ++ py " - " ++ py "Engineering Manager" ++ py " | LinkedIn")
  = Some (strip (py "Jane Doe")).
Proof.
  apply (extract_name_linkedin_title (py "Jane Doe") (py "Engineering Manager"));
    intros H; vm_compute in H; intuition discriminate.
Defined.

End LinkedInTitle.

(** * Facts about the extraction of the CV *)

Import CvExtract.

Section PdfFacts.

Lemma add_pages_app text ps qs :
  add_pages (add_pages text ps) qs = add_pages text (ps ++ qs).
Proof. unfold add_pages. now rewrite fold_left_app. Qed.

Lemma try_reading_returns text reading text' stripped :
  try_reading text reading = (text', Some stripped) ->
  truthy stripped = true /\ strip stripped = stripped
  /\ stripped = strip (add_pages text (pages_read reading))
  /\ failure reading = None.
Proof.
  unfold try_reading. destruct (failure reading); [discriminate |].
  destruct (truthy (strip (add_pages text (pages_read reading)))) eqn:E;
    [| discriminate].
  intros H. injection H as _ <-. repeat split; [exact E | apply strip_idem].
Qed.

Lemma try_reading_text text reading :
  fst (try_reading text reading) = add_pages text (pages_read reading).
Proof.
  unfold try_reading. destruct (failure reading); [reflexivity |].
  destruct (truthy _); reflexivity.
Qed.

(** X12: the text taken from a PDF.  It is the stripped text of the pages
    pdfplumber read, when that reading raised nothing and the text is not
    blank; otherwise the pages PyPDF2 reads are added to what pdfplumber
    had collected, also before a failure, and the whole is returned
    stripped under the same conditions; otherwise the [ValueError] is
    raised.  A text that is returned is never empty and has no white
    space at its ends. *)
Theorem extract_text_from_pdf_spec plumber pypdf :
  let first := add_pages [] (pages_read plumber) in
  let both := add_pages [] (pages_read plumber ++ pages_read pypdf) in
  _extract_text_from_pdf plumber pypdf
  = (if match failure plumber with None => truthy (strip first) | Some _ => false end
     then ret (strip first)
     else if match failure pypdf with None => truthy (strip both) | Some _ => false end
     then ret (strip both)
     else raise ValueError
            "Could not extract text from PDF. File may be scanned image or corrupted.")
  /\ (forall text, _extract_text_from_pdf plumber pypdf = ret text ->
        truthy text = true /\ strip text = text).
Proof.
  cbv zeta. split.
  - unfold _extract_text_from_pdf, try_reading.
    rewrite <- add_pages_app.
    destruct (failure plumber), (failure pypdf);
      repeat match goal with
        | |- context [truthy ?t] => destruct (truthy t) eqn:?
        end; try reflexivity; congruence.
  - intros text H. unfold _extract_text_from_pdf in H.
    destruct (try_reading [] plumber) as [text1 [s1 |]] eqn:E1.
    + injection H as <-.
      destruct (try_reading_returns _ _ _ _ E1) as (H1 & H2 & _). now split.
    + destruct (try_reading text1 pypdf) as [text2 [s2 |]] eqn:E2;
        [| discriminate].
      injection H as <-.
      destruct (try_reading_returns _ _ _ _ E2) as (H1 & H2 & _). now split.
Qed.

End PdfFacts.

Section ParsePdfFacts.

Variable World : Type.
Variable generator : World -> str -> float -> Z -> World * (str + str).
Variable json_loads : str -> option json.
Variable CV_PARSE_PROMPT_format : str -> str.
Variable CVProfile_validate : list (str * json) -> (str + CVProfile)%type.
Variable pdfplumber_read : str -> pdf_reading.
Variable PyPDF2_read : str -> pdf_reading.

(** After its guard [parse_text] always returns a profile. *)
Lemma parse_text_returns w cv_text :
  (negb (truthy cv_text) || (length (strip cv_text) <? 50))%bool = false ->
  exists w' profile,
    parse_text generator json_loads CV_PARSE_PROMPT_format CVProfile_validate
      w cv_text = (w', ret profile).
Proof.
  intros Hguard. unfold parse_text. rewrite Hguard.
  destruct (generate_json generator json_loads w _ _ 2) as [[w1 log] r].
  destruct r as [e | v]; [eexists _, _; reflexivity |].
  destruct v; try (eexists _, _; reflexivity).
  destruct (CVProfile_validate _); eexists _, _; reflexivity.
Qed.

(** X13: [parse_pdf] raises in two cases only, both before any request to
    the model: when no text can be taken from the file, and when the text
    taken from it has fewer than 50 characters.  In every other case it
    returns a profile, the fallback one when the model or the validation
    fails. *)
Theorem parse_pdf_outcome w pdf_path :
  match _extract_text_from_pdf (pdfplumber_read pdf_path)
          (PyPDF2_read pdf_path) with
  | inl e =>
      parse_pdf generator json_loads CV_PARSE_PROMPT_format CVProfile_validate
        pdfplumber_read PyPDF2_read w pdf_path
      = (w, raise ValueError
              "Could not extract text from PDF. File may be scanned image or corrupted.")
  | inr text =>
      if length text <? 50
      then parse_pdf generator json_loads CV_PARSE_PROMPT_format
             CVProfile_validate pdfplumber_read PyPDF2_read w pdf_path
           = (w, raise ValueError "CV text is too short or empty")
      else exists w' profile,
             parse_pdf generator json_loads CV_PARSE_PROMPT_format
               CVProfile_validate pdfplumber_read PyPDF2_read w pdf_path
             = (w', ret profile)
  end.
Proof.
  unfold parse_pdf.
  destruct (extract_text_from_pdf_spec (pdfplumber_read pdf_path)
              (PyPDF2_read pdf_path)) as [Hspec Hpost].
  destruct (_extract_text_from_pdf (pdfplumber_read pdf_path)
              (PyPDF2_read pdf_path)) as [e | text] eqn:E.
  - cbv zeta in Hspec.
    repeat match type of Hspec with
      | _ = (if ?b then _ else _) => destruct b
      end; try discriminate. unfold raise in Hspec.
    injection Hspec as ->. reflexivity.
  - destruct (Hpost text eq_refl) as [Hne Hstrip].
    destruct (length text <? 50) eqn:Hlen.
    + unfold parse_text. now rewrite Hstrip, Hlen, orb_true_r.
    + apply parse_text_returns. now rewrite Hstrip, Hlen, Hne.
Qed.

End ParsePdfFacts.

Section ProfileLists.

Lemma in_append_if l links x :
  In l (append_if links x) <-> In l links \/ (x = Some l /\ l <> []).
Proof.
  unfold append_if. destruct x as [[| c t] |].
  - split; [now left |]. intros [H | [H Hne]]; [exact H |].
    injection H as <-. contradiction.
  - rewrite in_app_iff. cbn [In]. split.
    + intros [H | [<- | []]]; [now left | right; split; [reflexivity | discriminate]].
    + intros [H | [H _]]; [now left |]. injection H as <-. right. now left.
  - split; [now left |]. intros [H | [H _]]; [exact H | discriminate].
Qed.

Lemma in_project_links l projects : forall links,
  In l (fold_left
          (fun links project =>
             append_if (append_if links (proj_link project))
               (proj_github project))
          projects links)
  <-> In l links
      \/ exists project, In project projects
           /\ l <> []
           /\ (proj_link project = Some l \/ proj_github project = Some l).
Proof.
  induction projects as [| p projects IH]; intros links; cbn [fold_left].
  - split; [now left |]. intros [H | (p & [] & _)]. exact H.
  - rewrite IH, !in_append_if. split.
    + intros [[[H | [H Hne]] | [H Hne]] | (q & Hq & Hne & H)].
      * now left.
      * right. exists p. split; [now left | split; [exact Hne | now left]].
      * right. exists p. split; [now left | split; [exact Hne | now right]].
      * right. exists q. split; [now right | now split].
    + intros [H | (q & [<- | Hq] & Hne & [H | H])].
      * left. left. now left.
      * left. left. right. now split.
      * left. right. now split.
      * right. exists q. split; [exact Hq | split; [exact Hne | now left]].
      * right. exists q. split; [exact Hq | split; [exact Hne | now right]].
Qed.

Lemma in_experience_metrics m experiences : forall metrics,
  In m (fold_left (fun metrics exp => metrics ++ exp_metrics exp)
          experiences metrics)
  <-> In m metrics
      \/ exists exp, In exp experiences /\ In m (exp_metrics exp).
Proof.
  induction experiences as [| e experiences IH]; intros metrics;
    cbn [fold_left].
  - split; [now left |]. intros [H | (e & [] & _)]. exact H.
  - rewrite IH, in_app_iff. split.
    + intros [[H | H] | (x & Hx & H)].
      * now left.
      * right. exists e. split; [now left | exact H].
      * right. exists x. split; [now right | exact H].
    + intros [H | (x & [<- | Hx] & H)].
      * left. now left.
      * left. now right.
      * right. now exists x.
Qed.

Lemma in_project_impacts m projects : forall metrics,
  In m (fold_left (fun metrics project => append_if metrics (proj_impact project))
          projects metrics)
  <-> In m metrics
      \/ exists project, In project projects
           /\ proj_impact project = Some m /\ m <> [].
Proof.
  induction projects as [| p projects IH]; intros metrics; cbn [fold_left].
  - split; [now left |]. intros [H | (p & [] & _)]. exact H.
  - rewrite IH, in_append_if. split.
    + intros [[H | [H Hne]] | (q & Hq & H)].
      * now left.
      * right. exists p. split; [now left | now split].
      * right. exists q. split; [now right | exact H].
    + intros [H | (q & [<- | Hq] & H)].
      * left. now left.
      * left. now right.
      * right. now exists q.
Qed.

(** X14: the links drawn from a profile are exactly the non-empty texts
    among its GitHub, LinkedIn and portfolio addresses and the link and
    GitHub address of each project: an absent or empty field is never
    listed.  The metrics drawn from it are every metric of every
    experience, empty or not, and the non-empty impacts of the projects. *)
Theorem extract_links_metrics_members cv_profile :
  (forall l, In l (extract_links cv_profile)
     <-> l <> []
         /\ (cv_github cv_profile = Some l \/ cv_linkedin cv_profile = Some l
             \/ cv_portfolio cv_profile = Some l
             \/ exists project, In project (cv_projects cv_profile)
                  /\ (proj_link project = Some l
                      \/ proj_github project = Some l)))
  /\ (forall m, In m (extract_metrics cv_profile)
        <-> (exists exp, In exp (cv_experiences cv_profile)
               /\ In m (exp_metrics exp))
            \/ (m <> [] /\ exists project, In project (cv_projects cv_profile)
                  /\ proj_impact project = Some m)).
Proof.
  split.
  - intros l. unfold extract_links. cbv zeta.
    rewrite in_project_links, !in_append_if. cbn [In]. split.
    + intros [[[[[] | [H Hne]] | [H Hne]] | [H Hne]] | (p & Hp & Hne & H)];
        (split; [exact Hne |]).
      * now left.
      * right. now left.
      * right. right. now left.
      * right. right. right. now exists p.
    + intros [Hne [H | [H | [H | (p & Hp & H)]]]].
      * left. left. left. right. now split.
      * left. left. right. now split.
      * left. right. now split.
      * right. now exists p.
  - intros m. unfold extract_metrics. cbv zeta.
    rewrite in_project_impacts, in_experience_metrics. cbn [In]. split.
    + intros [[[] | H] | (p & Hp & H & Hne)]; [now left |].
      right. split; [exact Hne | now exists p].
    + intros [H | [Hne (p & Hp & H)]]; [left; now right |].
      right. now exists p.
Qed.

End ProfileLists.

(** * Facts about the WhatsApp links and the model list *)

Import WhatsApp LlmModels.

Section PhoneFacts.

Variable str_isdigit : N -> bool.
Variable quote : str -> result str.

Lemma filter_idem {A : Type} (f : A -> bool) (l : list A) :
  filter f (filter f l) = filter f l.
Proof.
  induction l as [| a l IH]; [reflexivity |].
  cbn [filter]. destruct (f a) eqn:E; [| exact IH].
  cbn [filter]. now rewrite E, IH.
Qed.

(** X15: formatting a phone number keeps its digits and nothing else, so
    formatting twice is formatting once and a number is valid exactly when
    its formatted form is.  When the number holds at least one digit, the
    link made for it is the link made for its formatted form; a number
    without any digit still gives a link with an empty number, not the
    link made when no number is given. *)
Theorem phone_number_formatting phone message :
  format_phone_number str_isdigit (format_phone_number str_isdigit phone)
  = format_phone_number str_isdigit phone
  /\ forallb str_isdigit (format_phone_number str_isdigit phone) = true
  /\ validate_phone_number str_isdigit (format_phone_number str_isdigit phone)
     = validate_phone_number str_isdigit phone
  /\ (truthy (format_phone_number str_isdigit phone) = true ->
      create_click_to_chat_url str_isdigit quote message
        (Some (format_phone_number str_isdigit phone))
      = create_click_to_chat_url str_isdigit quote message (Some phone))
  /\ (truthy phone = true ->
      truthy (format_phone_number str_isdigit phone) = false ->
      forall encoded, quote message = ret encoded ->
      create_click_to_chat_url str_isdigit quote message (Some phone)
      = ret (py "https://wa.me/?text=" ++ encoded)
      /\ create_click_to_chat_url str_isdigit quote message None
         = ret (py "https://wa.me?text=" ++ encoded)).
Proof.
  unfold format_phone_number. repeat split.
  - apply filter_idem.
  - apply forallb_forall. intros c Hc. now apply filter_In in Hc.
  - unfold validate_phone_number. rewrite filter_idem.
    destruct phone as [| c p]; [reflexivity |].
    destruct (filter str_isdigit (c :: p)) as [| d ds] eqn:E; reflexivity.
  - intros Hne. unfold create_click_to_chat_url.
    destruct (quote message) as [e | encoded]; [reflexivity |].
    destruct (filter str_isdigit phone) as [| d ds] eqn:E; [discriminate |].
    rewrite <- E, filter_idem.
    destruct phone as [| c p]; [discriminate | reflexivity].
  - unfold create_click_to_chat_url. rewrite H1.
    destruct phone as [| c p]; [discriminate |].
    destruct (filter str_isdigit (c :: p)); [reflexivity | discriminate].
  - unfold create_click_to_chat_url. now rewrite H1.
Qed.

End PhoneFacts.

Section ModelListFacts.

Variable World : Type.
Variable get : World -> str -> World * get_outcome.
Variable base_url : str.

Lemma names_of_spec models names :
  names_of models = Some names <->
  Forall2 (fun model name => model_name_of model = Some name) models names.
Proof.
  revert names. induction models as [| m models IH]; intros names;
    cbn [names_of].
  - split.
    + intros H. injection H as <-. constructor.
    + intros H. now inversion H.
  - destruct (model_name_of m) as [n |] eqn:E.
    + destruct (names_of models) as [ns |] eqn:E'.
      * split.
        -- intros H. injection H as <-. constructor; [exact E |].
           now apply IH.
        -- intros H. inversion H as [| m' n' ms' ns' Hn Hns]; subst.
           apply IH in Hns. congruence.
      * split; [discriminate |].
        intros H. inversion H as [| m' n' ms' ns' Hn Hns]; subst.
        apply IH in Hns. discriminate.
    + split; [discriminate |].
      intros H. inversion H; subst. congruence.
Qed.

Lemma name_in_spec x names :
  name_in x names = true <-> In (JStr x) names.
Proof.
  unfold name_in. rewrite existsb_exists. split.
  - intros (n & Hn & E). destruct n; try discriminate.
    apply str_eqb_eq in E. now subst.
  - intros H. exists (JStr x). split; [exact H | now apply str_eqb_eq].
Qed.

(** X16: a model is reported as available exactly when the server answers
    with status 200 and a JSON object whose "models" value is a list of
    objects that all have a "name", one of the names being the model's
    name or that name followed by ":latest".  A single entry without a
    name hides every model, since the exception it raises empties the
    list. *)
Theorem check_model_availability_spec w model_name :
  snd (check_model_availability get base_url w model_name) = true
  <-> exists kv models names,
        snd (get w (base_url ++ py "/api/tags"))
        = GetResponse 200 (Some (JDict kv))
        /\ dict_get (py "models") kv = Some (JList models)
        /\ Forall2 (fun model name => model_name_of model = Some name)
             models names
        /\ (In (JStr model_name) names
            \/ In (JStr (model_name ++ py ":latest")) names).
Proof.
  unfold check_model_availability, list_models.
  destruct (get w (base_url ++ py "/api/tags")) as [w1 outcome].
  cbn [snd].
  assert (Havail : forall names,
    (if name_in model_name names then true
     else if name_in (model_name ++ py ":latest") names then true else false)
    = true
    <-> In (JStr model_name) names
        \/ In (JStr (model_name ++ py ":latest")) names).
  { intros names. rewrite <- !name_in_spec.
    destruct (name_in model_name names),
             (name_in (model_name ++ py ":latest") names);
      intuition discriminate. }
  assert (Hnone : (if name_in model_name [] then true
                   else if name_in (model_name ++ py ":latest") [] then true
                        else false) = false) by reflexivity.
  split.
  - intros H. destruct outcome as [| status_code body];
      [rewrite Hnone in H; discriminate |].
    destruct (Z.eqb status_code 200) eqn:E200;
      [| rewrite Hnone in H; discriminate].
    apply Z.eqb_eq in E200. subst status_code.
    destruct body as [data |]; [| rewrite Hnone in H; discriminate].
    destruct (model_names data) as [names |] eqn:En;
      [| rewrite Hnone in H; discriminate].
    apply Havail in H.
    unfold model_names in En.
    destruct data; try discriminate.
    destruct (dict_get (py "models") kv) as [v |] eqn:Ev.
    + destruct v as [| | | | s | models | kv'].
      1-4: discriminate.
      * destruct s; [| discriminate]. injection En as <-.
        destruct H as [[] | []].
      * exists kv, models, names. repeat split; try assumption.
        now apply names_of_spec.
      * destruct kv'; [| discriminate]. injection En as <-.
        destruct H as [[] | []].
    + injection En as <-. destruct H as [[] | []].
  - intros (kv & models & names & -> & Hm & Hnames & Hin).
    cbn [Z.eqb Pos.eqb model_names]. rewrite Hm.
    apply names_of_spec in Hnames. rewrite Hnames. now apply Havail.
Qed.

End ModelListFacts.

(** * What is enough for the metric and call-to-action checks *)

Lemma lower_char_idem c : lower_char (lower_char c) = lower_char c.
Proof.
  unfold lower_char, isupper.
  destruct (in_range 65 90 c) eqn:E; [| now rewrite E].
  replace (in_range 65 90 (c + 32)) with false; [reflexivity |].
  symmetry. unfold in_range in *.
  apply andb_true_iff in E as [E1 E2]. apply N.leb_le in E1, E2.
  apply andb_false_iff. right. apply N.leb_gt. lia.
Qed.

(** Without regard to case, a character matches its lower-case form. *)
Lemma chr_match_lower c : chr_match true (lower_char c) c = true.
Proof.
  unfold chr_match. cbn [andb]. rewrite lower_char_idem, N.eqb_refl.
  apply orb_true_r.
Qed.

Lemma lit_chars_lower w :
  Forall2 (fun x c => chr_match true x c = true) (lower w) w.
Proof.
  induction w as [| c w IH]; cbn [lower map]; constructor;
    [apply chr_match_lower | exact IH].
Qed.

(** A literal in lower case matches, without regard to case, every text
    that it is the lower-case form of. *)
Lemma rmatch_lit_lower multiline kw w prev s k :
  lower w = kw ->
  rmatch true multiline (Lit kw) prev (w ++ s) k = k (char_before prev w) s.
Proof.
  intros <-. apply rmatch_lit_chars. apply lit_chars_lower.
Qed.

(** A repetition of a class can match nothing. *)
Lemma rmatch_star_skip ignorecase multiline items prev s k :
  k prev s <> None ->
  rmatch ignorecase multiline (Star (Class items)) prev s k <> None.
Proof.
  intros Hk. rewrite rmatch_star.
  apply (star_class_runs ignorecase multiline items [] k s prev (length s)).
  - intros c [].
  - apply le_n.
  - exact Hk.
Qed.

(** Try the alternatives in turn, each a literal the text begins with. *)
Ltac pick_literal :=
  first
    [ solve [unfold L; rewrite rmatch_lit_lower by assumption; discriminate]
    | apply rmatch_alt_total; left;
      solve [unfold L; rewrite rmatch_lit_lower by assumption; discriminate]
    | apply rmatch_alt_total; right; pick_literal ].

Section EnoughFacts.

(** X17: the call-to-action check accepts every text in which "call",
    "chat", "meeting", "demo", "discuss", "talk" or "show" occurs, in
    upper or lower case and also inside a longer word. *)
Theorem check_has_cta_words u w rest kw :
  In kw [py "call"; py "chat"; py "meeting"; py "demo"; py "discuss";
         py "talk"; py "show"] ->
  lower w = kw ->
  _check_has_cta (u ++ w ++ rest) = true.
Proof.
  intros Hin Hw. unfold _check_has_cta, cta_patterns. cbn [existsb].
  assert (H1 : In kw [py "call"; py "chat"; py "meeting"; py "demo"] ->
    found (search true false
             (Seqs [Opt (Alts [L "quick"; L "brief"; L "short"]); Star space;
                    Alts [L "call"; L "chat"; L "meeting"; L "demo"]])
             (u ++ w ++ rest)) = true).
  { intros Hk. apply found_search_complete. unfold match_here.
    cbn [Seqs]. rewrite rmatch_seq. unfold Opt.
    apply rmatch_alt_total. right. rewrite rmatch_eps, rmatch_seq.
    unfold space. apply rmatch_star_skip. cbn [Alts].
    destruct Hk as [<- | [<- | [<- | [<- | []]]]]; pick_literal. }
  assert (H3 : In kw [py "discuss"; py "talk"; py "show"; py "demo"] ->
    found (search true false (Alts [L "discuss"; L "talk"; L "show"; L "demo"])
             (u ++ w ++ rest)) = true).
  { intros Hk. apply found_search_complete. unfold match_here. cbn [Alts].
    destruct Hk as [<- | [<- | [<- | [<- | []]]]]; pick_literal. }
  cbn [In] in Hin, H1, H3.
  destruct Hin as [Hk | [Hk | [Hk | [Hk | [Hk | [Hk | [Hk | []]]]]]]].
  1-4: rewrite H1 by tauto; reflexivity.
  1-3: rewrite H3 by tauto; now rewrite !orb_true_r.
Qed.

Lemma check_has_cta_words_witness :
  _check_has_cta (py "See my " ++ py "Show" ++ py "case") = true.
Proof.
  apply (check_has_cta_words (py "See my ") (py "Show") (py "case") (py "show")).
  - cbn [In]. tauto.
  - reflexivity.
Defined.

Lemma digit_class d : isdigit d = true -> class_match true [CDigit] d = true.
Proof.
  intros H. unfold class_match, class_mem. cbn [existsb item_mem].
  now rewrite H.
Qed.

(** X18: the metric check accepts every text in which a digit from 0 to 9
    is directly followed by a per-cent sign, by K, k, M or m, or by x or
    X. *)
Theorem check_has_metric_digit_unit u d c rest :
  isdigit d = true ->
  In c (py "%KkMmxX") ->
  _check_has_metric (u ++ d :: c :: rest) = true.
Proof.
  intros Hd Hc. unfold _check_has_metric, metric_patterns. cbn [existsb].
  assert (Hplus : forall (unit_ : regex),
    rmatch true false unit_ (Some d) (c :: rest) (fun _ r => Some r) <> None ->
    found (search true false (Seq (Plus digit) unit_) (u ++ d :: c :: rest))
    = true).
  { intros unit_ Hu. apply found_search_complete. unfold match_here, Plus, digit.
    rewrite !rmatch_seq, rmatch_class, (digit_class d Hd).
    now apply rmatch_star_skip. }
  cbn [py map list_ascii_of_string In] in Hc.
  destruct Hc as [<- | [<- | [<- | [<- | [<- | [<- | [<- | []]]]]]]].
  - rewrite (Hplus (Chr (ch "%"))); [reflexivity |].
    rewrite rmatch_chr. discriminate.
  - rewrite (Hplus (Class [CChar (ch "K"); CChar (ch "k"); CChar (ch "M");
                           CChar (ch "m")])); [now rewrite !orb_true_r |].
    rewrite rmatch_class. discriminate.
  - rewrite (Hplus (Class [CChar (ch "K"); CChar (ch "k"); CChar (ch "M");
                           CChar (ch "m")])); [now rewrite !orb_true_r |].
    rewrite rmatch_class. discriminate.
  - rewrite (Hplus (Class [CChar (ch "K"); CChar (ch "k"); CChar (ch "M");
                           CChar (ch "m")])); [now rewrite !orb_true_r |].
    rewrite rmatch_class. discriminate.
  - rewrite (Hplus (Class [CChar (ch "K"); CChar (ch "k"); CChar (ch "M");
                           CChar (ch "m")])); [now rewrite !orb_true_r |].
    rewrite rmatch_class. discriminate.
  - rewrite (Hplus (Chr (ch "x"))); [now rewrite !orb_true_r |].
    rewrite rmatch_chr. discriminate.
  - rewrite (Hplus (Chr (ch "x"))); [now rewrite !orb_true_r |].
    rewrite rmatch_chr. discriminate.
Qed.

Lemma check_has_metric_digit_unit_witness :
  _check_has_metric (py "about " ++ ch "3" :: ch "X" :: py " faster") = true.
Proof.
  apply (check_has_metric_digit_unit (py "about ") (ch "3") (ch "X")
           (py " faster")).
  - reflexivity.
  - cbn. tauto.
Defined.

End EnoughFacts.

(** * The checks on the subject and the body *)

Section SubjectAndBody.

(** A part of [s ++ sp :: b] that does not hold [sp] lies in [s] or in
    [b]. *)
Lemma prefix_without_sep (sp : N) w : forall s b rest,
  s ++ sp :: b = w ++ rest -> ~ In sp w -> exists rest', s = w ++ rest'.
Proof.
  induction w as [| x w IH]; intros s b rest H Hno; [now exists s |].
  destruct s as [| y s].
  - injection H as <- _. exfalso. apply Hno. now left.
  - injection H as <- H.
    destruct (IH s b rest H (fun Hin => Hno (or_intror Hin))) as [rest' ->].
    now exists rest'.
Qed.

Lemma part_without_sep (sp : N) w u : forall s b rest,
  s ++ sp :: b = u ++ w ++ rest -> ~ In sp w ->
  (exists rest', s = u ++ w ++ rest') \/ (exists u', b = u' ++ w ++ rest).
Proof.
  induction u as [| x u IH]; intros s b rest H Hno.
  - left. cbn [app] in *. now apply (prefix_without_sep sp w s b rest).
  - destruct s as [| y s].
    + injection H as _ H. right. now exists u.
    + injection H as <- H.
      destruct (IH s b rest H Hno) as [[rest' ->] | [u' ->]].
      * left. now exists rest'.
      * right. now exists u'.
Qed.

Lemma url_char_not_space c : url_char c = true -> c <> ch " ".
Proof.
  intros H ->. vm_compute in H. discriminate.
Qed.

(** Where a link is, by the text. *)
Lemma has_link_iff text :
  found (search false false url_pattern text) = true
  <-> exists u opt c rest,
        (opt = [] \/ opt = py "s")
        /\ text = u ++ (py "http" ++ opt ++ py "://" ++ [c]) ++ rest
        /\ url_char c = true.
Proof.
  split.
  - intros H. apply found_search_sound in H as (u & m & rest & -> & L).
    apply lang_url_pattern in L as (c & m' & Hm & Hc).
    destruct Hm as [-> | ->].
    + exists u, [], c, (m' ++ rest). split; [now left |].
      split; [same_app | exact Hc].
    + exists u, (py "s"), c, (m' ++ rest). split; [now right |].
      split; [same_app | exact Hc].
  - intros (u & opt & c & rest & Hopt & -> & Hc).
    apply found_search_complete.
    replace ((py "http" ++ opt ++ py "://" ++ [c]) ++ rest)
      with (py "http" ++ opt ++ py "://" ++ c :: rest)
      by (destruct Hopt as [-> | ->]; same_app).
    now apply url_pattern_matches.
Qed.

(** X19: the checks of the text "subject body" come apart: a link counts
    when it is in the subject or in the body, and the text is free of
    emojis when the subject and the body both are.  The space between the
    two never makes or breaks a link.  The word limit and the bullets are
    checked on the body alone. *)
Theorem validate_draft_subject_and_body draft :
  let q := validate_draft draft in
  has_project_link q
  = (_check_has_link (subject draft) || _check_has_link (body draft))%bool
  /\ no_emojis q
     = (_check_no_emojis (subject draft) && _check_no_emojis (body draft))%bool
  /\ under_word_limit q = _check_word_limit (body draft) 180
  /\ no_bullet_dashes q = _check_no_bullets (body draft).
Proof.
  cbv zeta. unfold validate_draft, set_issues, QualityCheck_new.
  cbn [has_project_link no_emojis under_word_limit no_bullet_dashes].
  split; [| split; [| split; reflexivity]].
  - unfold _check_has_link. rewrite !findall_found.
    apply eq_true_iff_eq. rewrite orb_true_iff, !has_link_iff. split.
    + intros (u & opt & c & rest & Hopt & Htext & Hc).
      change (py " " ++ body draft) with (ch " " :: body draft) in Htext.
      apply part_without_sep in Htext.
      * destruct Htext as [[rest' Hs] | [u' Hb]].
        -- left. now exists u, opt, c, rest'.
        -- right. now exists u', opt, c, rest.
      * intros Hin. pose proof (url_char_not_space c Hc) as Hsp.
        destruct Hopt as [-> | ->]; cbn in Hin;
          repeat (destruct Hin as [Hin | Hin];
                  [first [discriminate Hin | exfalso; exact (Hsp Hin)] |]);
          exact Hin.
    + intros [(u & opt & c & rest & Hopt & -> & Hc)
             | (u & opt & c & rest & Hopt & -> & Hc)].
      * exists u, opt, c, (rest ++ py " " ++ body draft).
        split; [exact Hopt |]. split; [same_app | exact Hc].
      * exists (subject draft ++ py " " ++ u), opt, c, rest.
        split; [exact Hopt |]. split; [same_app | exact Hc].
  - unfold _check_no_emojis. rewrite !emoji_search, !existsb_app.
    cbn [py map list_ascii_of_string existsb].
    replace (emoji_char (N_of_ascii " ")) with false by reflexivity.
    cbn [orb]. now rewrite negb_orb.
Qed.

End SubjectAndBody.
